(** * ELFE / XL: the evaluation pipeline, embedded in Rocq

    The development follows the C++ sources of the interpreter:
    - [tree.h]-level data: the eight node kinds, with the per-node header
      (identity, source position, info chain);
    - [context.h]: [RewriteDefined], [RewriteType], [ScopeParent],
      [Context::Rehash], [Context::HasRewritesFor];
    - [interpreter.h]: [Interpreter::IsClosure], [Interpreter::MakeClosure];
    - [syntax.cpp]: the priority and delimiter tables, [Syntax::ReadSyntaxFile];
    - [parser.cpp]: [Parser::Parse], the operator-precedence loop, and
      [Parser::NextToken], which feeds it;
    - [compiler-args.cpp]: [RewriteCandidate::Bind], [RewriteCalls::Check];
    - [options.h]: [Options::LibPath], [Options::LibRemap];
    - [unit.cpp]: [CompilerUnit::ValidCName];
    - [winglob.cpp]: [globinternal].

    Pointers that may be null are [option]; the integer types of the source
    are [Z] with their wrap-around written out; a [double] is its 64 bits;
    [std::map] is [gmap]. *)

From Stdlib Require Import ZArith Bool Lia.
From stdpp Require Import base option list strings gmap.

Set Warnings "-register-all".

Local Open Scope string_scope.
Local Open Scope Z_scope.

(* ====================================================================== *)
(** * Trees                                                               *)
(* ====================================================================== *)

(** [enum kind]: the kinds of nodes. *)
Inductive kind : Set :=
  INTEGER | REAL | TEXT | NAME | BLOCK | PREFIX | POSTFIX | INFIX.

(** Modelled from the spec: the numeric values of [enum kind] ([tree.h] is
    not among the sources); the data model lists the leaves first, in the
    order integer, real, text, name, then block, prefix, postfix, infix. *)
Definition kind_rank (k : kind) : Z :=
  match k with
  | INTEGER => 0 | REAL => 1 | TEXT => 2 | NAME => 3
  | BLOCK => 4 | PREFIX => 5 | POSTFIX => 6 | INFIX => 7
  end.

Definition kind_eqb (a b : kind) : bool := kind_rank a =? kind_rank b.

Definition TreePosition := Z.

(** A [double] is an IEEE 754 binary64 number, kept as its 64 bits: one
    bit of sign, eleven of exponent, fifty-two of fraction. *)
Definition double := Z.

Definition double_is_nan (d : double) : bool :=
  (Z.land (Z.shiftr d 52) 2047 =? 2047)
  && negb (Z.land d (2 ^ 52 - 1) =? 0).

Definition double_is_zero (d : double) : bool :=
  Z.land d (2 ^ 63 - 1) =? 0.

(** [a == b] on [double]: a NaN equals nothing, the two zeros are equal. *)
Definition double_eqb (a b : double) : bool :=
  negb (double_is_nan a) && negb (double_is_nan b)
  && ((a mod 2 ^ 64 =? b mod 2 ^ 64)
      || (double_is_zero a && double_is_zero b)).

(** [- a] on [double]: the sign bit is flipped. *)
Definition double_neg (a : double) : double := Z.lxor (a mod 2 ^ 64) (2 ^ 63).

(** [Tree::NOWHERE], the position of a node built without one.  [tree.h]
    is not among the sources; the number chosen here stands for a position
    that no token has, and nothing below depends on it. *)
Definition NOWHERE : TreePosition := -1.

(** Entries of the info chain that the code below queries by tag. *)
Inductive Info : Set :=
| ClosureInfo
| CommentsInfo (before after : list string).

(** What every node carries besides its payload.  [addr] stands for the
    address of the object: the code compares trees by pointer. *)
Record Node : Set := mkNode {
  addr     : N;
  position : TreePosition;
  info     : list Info
}.

Inductive Tree : Set :=
| Integer (n : Node) (value : Z)
| Real    (n : Node) (value : double)
| Text    (n : Node) (value opening closing : string)
| Name    (n : Node) (value : string)
| Block   (n : Node) (child : Tree) (opening closing : string)
| Prefix  (n : Node) (left right : Tree)
| Postfix (n : Node) (left right : Tree)
| Infix   (n : Node) (name : string) (left right : Tree).

Definition node (t : Tree) : Node :=
  match t with
  | Integer n _ | Real n _ | Text n _ _ _ | Name n _
  | Block n _ _ _ | Prefix n _ _ | Postfix n _ _ | Infix n _ _ _ => n
  end.

Definition Kind (t : Tree) : kind :=
  match t with
  | Integer _ _ => INTEGER | Real _ _ => REAL | Text _ _ _ _ => TEXT
  | Name _ _ => NAME | Block _ _ _ _ => BLOCK | Prefix _ _ _ => PREFIX
  | Postfix _ _ _ => POSTFIX | Infix _ _ _ _ => INFIX
  end.

Definition Position (t : Tree) : TreePosition := position (node t).

(** [a == b] on [Tree *]. *)
Definition same_tree (a b : Tree) : bool := (addr (node a) =? addr (node b))%N.

(** [a == b] on pointers that may be null. *)
Definition same_ptr (a b : option Tree) : bool :=
  match a, b with
  | Some x, Some y => same_tree x y
  | None, None => true
  | _, _ => false
  end.

Definition is_closure_info (i : Info) : bool :=
  match i with ClosureInfo => true | _ => false end.

(** [tree->GetInfo<ClosureInfo>() != NULL] *)
Definition HasClosureInfo (t : Tree) : bool :=
  existsb is_closure_info (info (node t)).

Definition AsPrefix (t : Tree) : option Tree :=
  match t with Prefix _ _ _ => Some t | _ => None end.

Definition AsInfix (t : Tree) : option Tree :=
  match t with Infix _ _ _ _ => Some t | _ => None end.

Definition AsName (t : Tree) : option Tree :=
  match t with Name _ _ => Some t | _ => None end.

(** The tree without the node headers: what "structurally equal" means. *)
Inductive Shape : Set :=
| SInteger (value : Z)
| SReal    (value : double)
| SText    (value opening closing : string)
| SName    (value : string)
| SBlock   (child : Shape) (opening closing : string)
| SPrefix  (left right : Shape)
| SPostfix (left right : Shape)
| SInfix   (name : string) (left right : Shape).

Fixpoint shape (t : Tree) : Shape :=
  match t with
  | Integer _ v => SInteger v
  | Real _ v => SReal v
  | Text _ v o c => SText v o c
  | Name _ v => SName v
  | Block _ ch o c => SBlock (shape ch) o c
  | Prefix _ l r => SPrefix (shape l) (shape r)
  | Postfix _ l r => SPostfix (shape l) (shape r)
  | Infix _ nm l r => SInfix nm (shape l) (shape r)
  end.

Definition text_eqb (a b : string) : bool := bool_decide (a = b).

(** The text ["\n"]. *)
Definition newline : string := String (Ascii.ascii_of_nat 10) "".

(* ====================================================================== *)
(** * context.h: helpers on rewrites and scopes                           *)
(* ====================================================================== *)

(** Find what we actually define based on the shape of the left of a 'is'.
    The three tests of the source run once each, in this order. *)
Definition RewriteDefined (form : Tree) : Tree :=
  (* Check 'X as integer', we define X *)
  let form :=
    match form with
    | Infix _ name l _ =>
        if text_eqb name "as" || text_eqb name ":" then l else form
    | _ => form
    end in
  (* Check 'X when Condition', we define X *)
  let form :=
    match form with
    | Infix _ name l _ => if text_eqb name "when" then l else form
    | _ => form
    end in
  (* Check outermost (X): we define X *)
  match form with
  | Block _ child _ _ => child
  | _ => form
  end.

(** If we have a declaration with 'X as Type', return Type. *)
Definition RewriteType (what : Tree) : option Tree :=
  match what with
  | Infix _ name _ r => if text_eqb name "as" then Some r else None
  | _ => None
  end.

(** [scope->left->AsPrefix()]; a scope is a [Prefix]. *)
Definition ScopeParent (scope : Tree) : option Tree :=
  match scope with
  | Prefix _ l _ => AsPrefix l
  | _ => None
  end.

(** The reading of the data model's sentence on [RewriteDefined]: every
    [when], [as] and [:] annotation and every outer block is removed, down
    to the defined form. *)
Fixpoint DefinedForm (pattern : Tree) : Tree :=
  match pattern with
  | Infix _ name l _ =>
      if text_eqb name "as" || text_eqb name ":" || text_eqb name "when"
      then DefinedForm l else pattern
  | Block _ child _ _ => DefinedForm child
  | _ => pattern
  end.

(** A form that carries no annotation and is no block at its root. *)
Definition bare_form (form : Tree) : bool :=
  match form with
  | Infix _ name _ _ =>
      negb (text_eqb name "as" || text_eqb name ":" || text_eqb name "when")
  | Block _ _ _ _ => false
  | _ => true
  end.

(** The layers a pattern may put around the defined form, innermost first:
    one block, one guard, one type annotation. *)
Definition in_block (b : option (Node * string * string)) (form : Tree) : Tree :=
  match b with
  | Some (n, opening, closing) => Block n form opening closing
  | None => form
  end.

Definition guarded (g : option (Node * Tree)) (form : Tree) : Tree :=
  match g with
  | Some (n, cond) => Infix n "when" form cond
  | None => form
  end.

Definition typed (t : option (Node * bool * Tree)) (form : Tree) : Tree :=
  match t with
  | Some (n, colon, type) => Infix n (if colon then ":" else "as") form type
  | None => form
  end.

(** ** The hash of the rewrite table *)

(** [ulong] is [unsigned long] (base.h): 32 bits on ILP32 and LLP64
    targets, 64 bits on LP64 ones.  The width is a parameter. *)
Definition ulong_wrap (bits : Z) (x : Z) : Z := x mod 2 ^ bits.

(** [static inline ulong Rehash(ulong h) { return (h>>1) | (h<<31); }] *)
Definition Rehash (bits : Z) (h : Z) : Z :=
  Z.lor (Z.shiftr h 1) (ulong_wrap bits (Z.shiftl h 31)).

(** Rotation to the right by one bit of a [bits]-wide word. *)
Definition rotate_right1 (bits : Z) (h : Z) : Z :=
  Z.lor (Z.shiftr h 1) (ulong_wrap bits (Z.shiftl h (bits - 1))).

(** Its inverse, the rotation to the left by one bit. *)
Definition rotate_left1 (bits : Z) (h : Z) : Z :=
  Z.lor (ulong_wrap bits (Z.shiftl h 1)) (Z.shiftr h (bits - 1)).

(** The branch taken at one level of the rewrite tree: the low bit. *)
Definition hash_branch (h : Z) : bool := Z.odd h.

(** The branches taken along [depth] levels, rehashing at each level. *)
Fixpoint hash_path (bits : Z) (depth : nat) (h : Z) : list bool :=
  match depth with
  | O => []
  | S d => hash_branch h :: hash_path bits d (Rehash bits h)
  end.

(** ** The evaluation context *)

(** [struct Context]: the handle on the current scope.  The [compiled]
    cache is not consulted by the code modelled here. *)
Record Context : Set := mkContext {
  symbols : Tree
}.

Definition CurrentScope (c : Context) : Tree := symbols c.

(** The parts of the symbol table that live in context.cpp. *)
Class Symbols := {
  (** [Context::Bound (form, recurse = true)]: what a form is bound to. *)
  Bound : Context -> Tree -> option Tree;
  (** [static uint Context::hasRewritesForKind] *)
  hasRewritesForKind : Z
}.

(** Check if we detected rewrites for a specific kind. *)
Definition HasRewritesFor `{Symbols} (k : kind) : bool :=
  negb (Z.land hasRewritesForKind (Z.shiftl 1 (kind_rank k)) =? 0).

(* ====================================================================== *)
(** * interpreter.h: closures                                             *)
(* ====================================================================== *)

(** Check if something is a closure; the second component is the context
    built on the closed-over scope ([*context = new Context(scope)]). *)
Definition IsClosure (tree : Tree) : option (Tree * Context) :=
  match tree with
  | Prefix _ _ r =>
      match ScopeParent tree with
      | Some scope =>
          if HasClosureInfo tree then Some (r, mkContext scope) else None
      | None => None
      end
  | _ => None
  end.

(** The end of [MakeClosure]: wrap the value unless it is a marked prefix.
    [next] is the address the next [new] returns. *)
Definition wrap_value (next : N) (context : Context)
    (valueKind : kind) (value : Tree) : Tree * N :=
  if negb (kind_eqb valueKind PREFIX) || negb (HasClosureInfo value) then
    let scope := CurrentScope context in
    (Prefix (mkNode next NOWHERE [ClosureInfo]) scope value, N.succ next)
  else (value, next).

(** Create a closure encapsulating the current context.  One unit of fuel
    is spent at each pass through the label [retry]; [None] is a chain of
    bindings longer than the fuel. *)
Fixpoint MakeClosure `{Symbols} (fuel : nat) (next : N)
    (context : Context) (value : Tree) : option (Tree * N) :=
  match fuel with
  | O => None
  | S fuel =>
      let valueKind := Kind value in
      if (kind_rank NAME <=? kind_rank valueKind) || HasRewritesFor valueKind
      then
        match (if kind_eqb valueKind NAME then Bound context value else None)
        with
        | Some bound =>
            match IsClosure bound with
            | Some (inside, context') =>
                if negb (same_tree value inside)
                then MakeClosure fuel next context' inside
                else if negb (same_tree value bound)
                then MakeClosure fuel next context' bound
                else Some (wrap_value next context' valueKind value)
            | None =>
                if negb (same_tree value bound)
                then MakeClosure fuel next context bound
                else Some (wrap_value next context valueKind value)
            end
        | None => Some (wrap_value next context valueKind value)
        end
      else Some (value, next)
  end.

(** A closure, as the data model has it: a prefix marked by [ClosureInfo]. *)
Definition marked_closure (value : Tree) : bool :=
  kind_eqb (Kind value) PREFIX && HasClosureInfo value.

(** The reading of the data model's sentence on closing a closure: the
    inner value is wrapped again, over the current scope, when the scope
    of the closure is another one; the closure is kept otherwise. *)
Definition CloseAgain (next : N) (context : Context) (value : Tree)
  : Tree * N :=
  match value with
  | Prefix _ scope inner =>
      if same_tree scope (CurrentScope context) then (value, next)
      else (Prefix (mkNode next NOWHERE [ClosureInfo])
                   (CurrentScope context) inner, N.succ next)
  | _ => (value, next)
  end.

(* ====================================================================== *)
(** * Tokens                                                              *)
(* ====================================================================== *)

Inductive token_t : Set :=
| tokNONE | tokEOF | tokINTEGER | tokREAL | tokSTRING | tokQUOTE
| tokLONGSTRING | tokNAME | tokSYMBOL | tokNEWLINE
| tokPAROPEN | tokPARCLOSE | tokINDENT | tokUNINDENT | tokERROR.

#[global] Instance token_t_eq_dec : EqDecision token_t.
Proof. solve_decision. Defined.

(** One token together with what the scanner answers right after it. *)
Record Token : Set := mkToken {
  tok            : token_t;
  ScanPosition   : TreePosition;     (* scanner.Position() *)
  NameValue      : string;
  TextValue      : string;
  TokenText      : string;
  IntegerValue   : Z;
  RealValue      : double;
  HadSpaceBefore : bool;
  HadSpaceAfter  : bool;
  openquote      : string;           (* delimiters of a long text *)
  closequote     : string
}.

Definition plain_token (k : token_t) (pos : TreePosition) (txt : string)
    (before after : bool) : Token :=
  mkToken k pos txt txt txt 0 0 before after "" "".

(** The input of a consumer of tokens: the tokens ahead and, behind them,
    the end of the input, which the scanner answers again and again. *)
Record Stream : Set := mkStream {
  ahead        : list Token;
  end_position : TreePosition;
  end_text     : string
}.

(** What the scanner returns once the input is exhausted. *)
Definition end_token (input : Stream) : Token :=
  plain_token tokEOF (end_position input) (end_text input) false false.

Definition rest_of (input : Stream) (tokens : list Token) : Stream :=
  mkStream tokens (end_position input) (end_text input).

(** The two sentinels [Block::indent] and [Block::unindent] of tree.cpp. *)
Class BlockNames := {
  Block_indent   : string;
  Block_unindent : string
}.

(* ====================================================================== *)
(** * syntax.cpp: the syntax tables                                       *)
(* ====================================================================== *)

(** [struct Syntax], with the two members [ChildSyntax] adds. *)
Inductive Syntax : Type := mkSyntax {
  prefix_priority    : gmap string Z;
  infix_priority     : gmap string Z;
  postfix_priority   : gmap string Z;
  comment_delimiters : gmap string string;
  text_delimiters    : gmap string string;
  block_delimiters   : gmap string string;
  subsyntax_file     : gmap string string;
  subsyntax          : gmap string Syntax;
  known_tokens       : gset string;
  known_prefixes     : gset string;
  default_priority   : Z;
  statement_priority : Z;
  function_priority  : Z;
  filename           : string;
  delimiters         : gmap string string
}.

Section SyntaxUpdates.
Variable s : Syntax.

Definition with_prefix_priority (m : gmap string Z) : Syntax :=
  mkSyntax m (infix_priority s) (postfix_priority s) (comment_delimiters s)
    (text_delimiters s) (block_delimiters s) (subsyntax_file s) (subsyntax s)
    (known_tokens s) (known_prefixes s) (default_priority s)
    (statement_priority s) (function_priority s) (filename s) (delimiters s).

Definition with_infix_priority (m : gmap string Z) : Syntax :=
  mkSyntax (prefix_priority s) m (postfix_priority s) (comment_delimiters s)
    (text_delimiters s) (block_delimiters s) (subsyntax_file s) (subsyntax s)
    (known_tokens s) (known_prefixes s) (default_priority s)
    (statement_priority s) (function_priority s) (filename s) (delimiters s).

Definition with_postfix_priority (m : gmap string Z) : Syntax :=
  mkSyntax (prefix_priority s) (infix_priority s) m (comment_delimiters s)
    (text_delimiters s) (block_delimiters s) (subsyntax_file s) (subsyntax s)
    (known_tokens s) (known_prefixes s) (default_priority s)
    (statement_priority s) (function_priority s) (filename s) (delimiters s).

Definition with_comment_delimiters (m : gmap string string) : Syntax :=
  mkSyntax (prefix_priority s) (infix_priority s) (postfix_priority s) m
    (text_delimiters s) (block_delimiters s) (subsyntax_file s) (subsyntax s)
    (known_tokens s) (known_prefixes s) (default_priority s)
    (statement_priority s) (function_priority s) (filename s) (delimiters s).

Definition with_text_delimiters (m : gmap string string) : Syntax :=
  mkSyntax (prefix_priority s) (infix_priority s) (postfix_priority s)
    (comment_delimiters s) m (block_delimiters s) (subsyntax_file s)
    (subsyntax s) (known_tokens s) (known_prefixes s) (default_priority s)
    (statement_priority s) (function_priority s) (filename s) (delimiters s).

Definition with_block_delimiters (m : gmap string string) : Syntax :=
  mkSyntax (prefix_priority s) (infix_priority s) (postfix_priority s)
    (comment_delimiters s) (text_delimiters s) m (subsyntax_file s)
    (subsyntax s) (known_tokens s) (known_prefixes s) (default_priority s)
    (statement_priority s) (function_priority s) (filename s) (delimiters s).

Definition with_subsyntax_file (m : gmap string string) : Syntax :=
  mkSyntax (prefix_priority s) (infix_priority s) (postfix_priority s)
    (comment_delimiters s) (text_delimiters s) (block_delimiters s) m
    (subsyntax s) (known_tokens s) (known_prefixes s) (default_priority s)
    (statement_priority s) (function_priority s) (filename s) (delimiters s).

Definition with_subsyntax (m : gmap string Syntax) : Syntax :=
  mkSyntax (prefix_priority s) (infix_priority s) (postfix_priority s)
    (comment_delimiters s) (text_delimiters s) (block_delimiters s)
    (subsyntax_file s) m (known_tokens s) (known_prefixes s)
    (default_priority s) (statement_priority s) (function_priority s)
    (filename s) (delimiters s).

Definition with_known (tokens prefixes : gset string) : Syntax :=
  mkSyntax (prefix_priority s) (infix_priority s) (postfix_priority s)
    (comment_delimiters s) (text_delimiters s) (block_delimiters s)
    (subsyntax_file s) (subsyntax s) tokens prefixes
    (default_priority s) (statement_priority s) (function_priority s)
    (filename s) (delimiters s).

Definition with_priorities (default statement function : Z) : Syntax :=
  mkSyntax (prefix_priority s) (infix_priority s) (postfix_priority s)
    (comment_delimiters s) (text_delimiters s) (block_delimiters s)
    (subsyntax_file s) (subsyntax s) (known_tokens s) (known_prefixes s)
    default statement function (filename s) (delimiters s).

Definition with_filename (f : string) : Syntax :=
  mkSyntax (prefix_priority s) (infix_priority s) (postfix_priority s)
    (comment_delimiters s) (text_delimiters s) (block_delimiters s)
    (subsyntax_file s) (subsyntax s) (known_tokens s) (known_prefixes s)
    (default_priority s) (statement_priority s) (function_priority s)
    f (delimiters s).

Definition with_delimiters (m : gmap string string) : Syntax :=
  mkSyntax (prefix_priority s) (infix_priority s) (postfix_priority s)
    (comment_delimiters s) (text_delimiters s) (block_delimiters s)
    (subsyntax_file s) (subsyntax s) (known_tokens s) (known_prefixes s)
    (default_priority s) (statement_priority s) (function_priority s)
    (filename s) m.
End SyntaxUpdates.

(** The three lookups share one body: the entry if it is there and not
    zero, the default priority otherwise. *)
Definition priority_or_default (table : gmap string Z) (default : Z)
    (n : string) : Z :=
  match table !! n with
  | Some p => if p =? 0 then default else p
  | None => default
  end.

Definition InfixPriority (s : Syntax) (n : string) : Z :=
  priority_or_default (infix_priority s) (default_priority s) n.

Definition PrefixPriority (s : Syntax) (n : string) : Z :=
  priority_or_default (prefix_priority s) (default_priority s) n.

Definition PostfixPriority (s : Syntax) (n : string) : Z :=
  priority_or_default (postfix_priority s) (default_priority s) n.

Definition SetInfixPriority (s : Syntax) (n : string) (p : Z) : Syntax :=
  if p =? 0 then s else with_infix_priority s (<[n := p]> (infix_priority s)).

Definition SetPrefixPriority (s : Syntax) (n : string) (p : Z) : Syntax :=
  if p =? 0 then s else with_prefix_priority s (<[n := p]> (prefix_priority s)).

Definition SetPostfixPriority (s : Syntax) (n : string) (p : Z) : Syntax :=
  if p =? 0 then s
  else with_postfix_priority s (<[n := p]> (postfix_priority s)).

Definition KnownToken (s : Syntax) (n : string) : bool :=
  bool_decide (n ∈ known_tokens s).

Definition KnownPrefix (s : Syntax) (n : string) : bool :=
  bool_decide (n ∈ known_prefixes s).

Definition CommentDelimiter (s : Syntax) (Begin End : string) : Syntax :=
  with_comment_delimiters s (<[Begin := End]> (comment_delimiters s)).

Definition TextDelimiter (s : Syntax) (Begin End : string) : Syntax :=
  with_text_delimiters s (<[Begin := End]> (text_delimiters s)).

Definition BlockDelimiter (s : Syntax) (Begin End : string) : Syntax :=
  with_block_delimiters s (<[Begin := End]> (block_delimiters s)).

(** The three [Is...] tests return the closing delimiter when they hold;
    the caller's [End] is left alone when they do not. *)
Definition IsComment (s : Syntax) (Begin : string) : option string :=
  comment_delimiters s !! Begin.

Definition IsTextDelimiter (s : Syntax) (Begin : string) : option string :=
  text_delimiters s !! Begin.

Definition IsBlock (s : Syntax) (Begin : string) : option string :=
  block_delimiters s !! Begin.

(** [subsyntax[filename]] default-constructs a missing entry. *)
Class SyntaxFiles := {
  (** a default-constructed [ChildSyntax] *)
  NewChildSyntax : Syntax;
  (** [Syntax::ReadSyntaxFile (text filename)]: the tables after the file
      of that name has been read into them *)
  ReadSyntaxFileNamed : string -> Syntax -> Syntax;
  (** [Options::options->libpath] *)
  libpath : string
}.

(** Returns a child syntax if any is applicable, with its closing.  The
    entry of [subsyntax] is there whenever [subsyntax_file] names it (the
    reader below creates both), so that [subsyntax[filename]] inserts
    nothing. *)
Definition HasSpecialSyntax `{SyntaxFiles} (s : Syntax) (Begin : string)
  : option (Syntax * string) :=
  match subsyntax_file s !! Begin with
  | None => None
  | Some filename =>
      let child := default NewChildSyntax (subsyntax s !! filename) in
      match delimiters child !! Begin with
      | None => None            (* Defensive coding, should not happen *)
      | Some End => Some (child, End)
      end
  end.

(** ** options.h: library paths *)

Definition occurs_at (name pattern : string) (i : nat) : bool :=
  (i + String.length pattern <=? String.length name)%nat
  && text_eqb (String.substring i (String.length pattern) name) pattern.

(** [name.rfind(pattern)]; [None] is [npos]. *)
Definition rfind (name pattern : string) : option nat :=
  List.find (occurs_at name pattern) (rev (seq 0 (S (String.length name)))).

(** [Options::LibPath]; the comparison is one of [size_t] values, where
    [npos] and a difference of lengths of -1 are the same number. *)
Definition LibPath (name extension base : string) : string :=
  let expected :=
    Z.of_nat (String.length name) - Z.of_nat (String.length extension) in
  let at_end :=
    match rfind name extension with
    | Some i => Z.of_nat i =? expected
    | None => expected =? -1
    end in
  let name := if at_end then name else name +:+ extension in
  match String.index 0 "/" name with
  | None => base +:+ name
  | Some _ => name
  end.

(** ** Syntax::ReadSyntaxFile *)

Inductive State : Set :=
| inUnknown | inPrefix | inInfix | inPostfix
| inComment | inCommentDef
| inText | inTextDef
| inBlock | inBlockDef
| inSyntaxName | inSyntax | inSyntaxDef.

Definition state_rank (s : State) : Z :=
  match s with
  | inUnknown => 0 | inPrefix => 1 | inInfix => 2 | inPostfix => 3
  | inComment => 4 | inCommentDef => 5
  | inText => 6 | inTextDef => 7
  | inBlock => 8 | inBlockDef => 9
  | inSyntaxName => 10 | inSyntax => 11 | inSyntaxDef => 12
  end.

(** [int] and [uint] are 32 bits wide. *)
Definition to_uint (x : Z) : Z := x mod 2 ^ 32.
Definition to_int (x : Z) : Z := (x + 2 ^ 31) mod 2 ^ 32 - 2 ^ 31.

(** The syntax being filled and the locals of [ReadSyntaxFile]. *)
Record Reader : Type := mkReader {
  syntax      : Syntax;
  state       : State;
  entry       : string;
  priority    : Z;
  indents     : Z;
  done        : bool;
  childSyntax : option string      (* key of the entry in [subsyntax] *)
}.

Definition new_reader (s : Syntax) (indents : Z) : Reader :=
  mkReader s inUnknown "" 0 indents false None.

Definition set_syntax (r : Reader) (s : Syntax) : Reader :=
  mkReader s (state r) (entry r) (priority r) (indents r) (done r)
    (childSyntax r).

Definition set_state (r : Reader) (st : State) : Reader :=
  mkReader (syntax r) st (entry r) (priority r) (indents r) (done r)
    (childSyntax r).

Definition set_entry (r : Reader) (e : string) : Reader :=
  mkReader (syntax r) (state r) e (priority r) (indents r) (done r)
    (childSyntax r).

Definition set_priority (r : Reader) (p : Z) : Reader :=
  mkReader (syntax r) (state r) (entry r) p (indents r) (done r)
    (childSyntax r).

Definition set_indents (r : Reader) (i : Z) (d : bool) : Reader :=
  mkReader (syntax r) (state r) (entry r) (priority r) i d (childSyntax r).

Definition set_childSyntax (r : Reader) (c : option string) : Reader :=
  mkReader (syntax r) (state r) (entry r) (priority r) (indents r) (done r) c.

(** [t.substr(0, i)] for [1 <= i < len]. *)
Definition proper_prefixes (t : string) : list string :=
  map (fun i => String.substring 0 i t) (seq 1 (String.length t - 1)%nat).

(** The first block of the loop: record the token and its prefixes. *)
Definition learn_token (s : Syntax) (t : string) : Syntax :=
  with_known s ({[ t ]} ∪ known_tokens s)
    (list_to_set (proper_prefixes t) ∪ known_prefixes s).

(** The inner [switch (state)], for a text that is no keyword. *)
Definition read_entry `{SyntaxFiles} (r : Reader) (txt : string) : Reader :=
  let s := syntax r in
  match state r with
  | inUnknown => r
  | inPrefix =>
      set_syntax r
        (with_prefix_priority s (<[txt := priority r]> (prefix_priority s)))
  | inPostfix =>
      set_syntax r
        (with_postfix_priority s (<[txt := priority r]> (postfix_priority s)))
  | inInfix =>
      set_syntax r
        (with_infix_priority s (<[txt := priority r]> (infix_priority s)))
  | inComment => set_state (set_entry r txt) inCommentDef
  | inCommentDef =>
      set_state
        (set_syntax r
           (with_comment_delimiters s
              (<[entry r := txt]> (comment_delimiters s))))
        inComment
  | inText => set_state (set_entry r txt) inTextDef
  | inTextDef =>
      set_state
        (set_syntax r
           (with_text_delimiters s (<[entry r := txt]> (text_delimiters s))))
        inText
  | inBlock =>
      set_syntax (set_state (set_entry r txt) inBlockDef)
        (with_infix_priority s (<[txt := priority r]> (infix_priority s)))
  | inBlockDef =>
      let s1 :=
        with_block_delimiters s
          (<[txt := ""]> (<[entry r := txt]> (block_delimiters s))) in
      let s2 :=
        with_infix_priority s1 (<[txt := priority r]> (infix_priority s1)) in
      set_state (set_syntax r s2) inBlock
  | inSyntaxName =>
      let txt := LibPath txt ".syntax" libpath in
      let child := default NewChildSyntax (subsyntax s !! txt) in
      let child :=
        if text_eqb (filename child) ""
        then ReadSyntaxFileNamed txt (with_filename child txt)
        else child in
      set_state
        (set_childSyntax
           (set_syntax r (with_subsyntax s (<[txt := child]> (subsyntax s))))
           (Some txt))
        inSyntax
  | inSyntax => set_state (set_entry r txt) inSyntaxDef
  | inSyntaxDef =>
      match childSyntax r with
      | Some key =>
          let child := default NewChildSyntax (subsyntax s !! key) in
          let child' :=
            with_delimiters child (<[entry r := txt]> (delimiters child)) in
          let s1 := with_subsyntax s (<[key := child']> (subsyntax s)) in
          let s2 :=
            with_subsyntax_file s1
              (<[entry r := filename child']> (subsyntax_file s1)) in
          set_state (set_syntax r s2) inSyntax
      | None => set_state r inSyntax
      end
  end.

(** The magic tokens refer to the virtual delimiters. *)
Definition entry_text `{BlockNames} (txt : string) : string :=
  if text_eqb txt "NEWLINE" then newline
  else if text_eqb txt "INDENT" then Block_indent
  else if text_eqb txt "UNINDENT" then Block_unindent
  else txt.

(** The texts that open a section or set a global priority. *)
Definition section_keyword (txt : string) : bool :=
  bool_decide (txt ∈ ["INFIX"; "PREFIX"; "POSTFIX"; "BLOCK"; "COMMENT";
                      "TEXT"; "SYNTAX"; "STATEMENT"; "FUNCTION"; "DEFAULT"]).

(** The tokens whose text is an entry of a section. *)
Definition text_token (t : Token) : bool :=
  match tok t with
  | tokNAME | tokSYMBOL | tokSTRING | tokQUOTE => true
  | _ => false
  end.

(** The case of a name, symbol, string or quote token. *)
Definition read_text `{BlockNames} `{SyntaxFiles} (r : Reader) (txt : string)
  : Reader :=
  let txt := entry_text txt in
  let s := syntax r in
  if text_eqb txt "INFIX" then set_state r inInfix
  else if text_eqb txt "PREFIX" then set_state r inPrefix
  else if text_eqb txt "POSTFIX" then set_state r inPostfix
  else if text_eqb txt "BLOCK" then set_state r inBlock
  else if text_eqb txt "COMMENT" then set_state r inComment
  else if text_eqb txt "TEXT" then set_state r inText
  else if text_eqb txt "SYNTAX" then set_state r inSyntaxName
  else if text_eqb txt "STATEMENT" then
    set_syntax r
      (with_priorities s (default_priority s) (priority r)
         (function_priority s))
  else if text_eqb txt "FUNCTION" then
    set_syntax r
      (with_priorities s (default_priority s) (statement_priority s)
         (priority r))
  else if text_eqb txt "DEFAULT" then
    set_syntax r
      (with_priorities s (priority r) (statement_priority s)
         (function_priority s))
  else read_entry r txt.

(** One turn of the loop, for the token the scanner has just returned. *)
Definition read_token `{BlockNames} `{SyntaxFiles} (r : Reader) (t : Token)
  : Reader :=
  let r :=
    match tok t with
    | tokSYMBOL => set_syntax r (learn_token (syntax r) (TextValue t))
    | _ =>
        if state_rank inComment <=? state_rank (state r)
        then set_syntax r (learn_token (syntax r) (TextValue t))
        else r
    end in
  match tok t with
  | tokEOF => r
  | tokINTEGER => set_priority r (to_int (IntegerValue t))
  | tokINDENT | tokPAROPEN => set_indents r (to_uint (indents r + 1)) (done r)
  | tokUNINDENT | tokPARCLOSE =>
      let i := to_uint (indents r - 1) in
      set_indents r i (if i =? 0 then true else done r)
  | tokNAME | tokSYMBOL | tokSTRING | tokQUOTE => read_text r (TextValue t)
  | _ => r
  end.

(** The loop of [ReadSyntaxFile]: it runs until the end of the input or
    until the indentation closes. *)
Fixpoint read_tokens `{BlockNames} `{SyntaxFiles} (r : Reader)
    (tokens : list Token) (last : Token) : Reader * list Token :=
  match tokens with
  | [] => (read_token r last, [])
  | t :: rest =>
      let r' := read_token r t in
      match tok t with
      | tokEOF => (r', rest)
      | _ => if done r' then (r', rest) else read_tokens r' rest last
      end
  end.

(** [Syntax::ReadSyntaxFile (Scanner &scanner, uint indents)] *)
Definition ReadSyntaxFile `{BlockNames} `{SyntaxFiles} (s : Syntax)
    (input : Stream) (indents : Z) : Syntax * Stream :=
  let (r, rest) :=
    read_tokens (new_reader s indents) (ahead input) (end_token input) in
  (syntax r, rest_of input rest).

(* ====================================================================== *)
(** * parser.cpp: the operator-precedence parser                          *)
(* ====================================================================== *)

(** The parser is modelled from the tokens that [Parser::NextToken] hands
    to [Parse]: that function skips the comments, gathers the long texts,
    reads the [syntax] directives and merges the new lines.  The comments
    it collects are left out: no [CommentsInfo] is attached to the trees
    built here.  The calls [OpenParen] and [CloseParen], which act on the
    indentation the scanner tracks, show in the tokens only. *)
Module Parser.

Inductive ErrorArg : Set :=
| ArgText (s : string)
| ArgToken (t : token_t).          (* a token printed with "%u" *)

(** A message template, a position, and the arguments of [$1], [$2]. *)
Record Error : Set := mkError {
  message   : string;
  where_    : TreePosition;
  arguments : list ErrorArg
}.

(** What the calls of [Parse] share: the error sink and the allocator. *)
Record World : Set := mkWorld {
  errors : list Error;
  next   : N
}.

Definition Log (w : World) (e : Error) : World :=
  mkWorld (errors w ++ [e]) (next w).

(** The header of a node made by [new] at position [pos]. *)
Definition fresh (w : World) (pos : TreePosition) : Node * World :=
  (mkNode (next w) pos [], mkWorld (errors w) (N.succ (next w))).

(** Pending expression while parsing. *)
Record Pending : Set := mkPending {
  opcode   : string;
  argument : Tree;
  priority : Z;
  position : TreePosition
}.

(** The opcode of a pending prefix: the local [prefix] of [Parse]. *)
Definition prefix : string := "".

(** [long long] is 64 bits wide. *)
Definition to_longlong (x : Z) : Z := (x + 2 ^ 63) mod 2 ^ 64 - 2 ^ 63.

(** The options the parser reads, [Options::options->signedConstants]. *)
Class ParserOptions := {
  signedConstants : bool
}.

(** Create a prefix, special-case unary minus with constants. *)
Definition CreatePrefix `{ParserOptions} (w : World) (l r : Tree)
    (pos : TreePosition) : Tree * World :=
  let plain := let (n, w') := fresh w pos in (Prefix n l r, w') in
  if signedConstants then
    match l with
    | Name _ value =>
        if text_eqb value "-" then
          match r with
          | Integer n iv => (Integer n (to_longlong (- iv)), w)
          | Real n rv => (Real n (double_neg rv), w)
          | _ => plain
          end
        else plain
    | _ => plain
    end
  else plain.

(** The body of the three loops that unstack pending operators. *)
Definition unstack `{ParserOptions} (w : World) (prev : Pending)
    (operand : Tree) : Tree * World :=
  if text_eqb (opcode prev) prefix
  then CreatePrefix w (argument prev) operand (position prev)
  else let (n, w') := fresh w (position prev) in
       (Infix n (opcode prev) (argument prev) operand, w').

(** [prev.priority & ~1] *)
Definition clear_low_bit (p : Z) : Z := Z.land p (-2).

(** The test that keeps an entry on the stack. *)
Definition stays (done : bool) (default_priority priority : Z)
    (prev : Pending) : bool :=
  negb done
  && negb (Parser.priority prev =? default_priority)
  && (priority >? clear_low_bit (Parser.priority prev)).

(** Flush higher priority items on stack; the top is the head. *)
Fixpoint flush `{ParserOptions} (done : bool) (default_priority priority : Z)
    (w : World) (stack : list Pending) (operand : Tree)
  : list Pending * Tree * World :=
  match stack with
  | [] => ([], operand, w)
  | prev :: below =>
      if stays done default_priority priority prev
      then (stack, operand, w)
      else
        let (operand', w') := unstack w prev operand in
        flush done default_priority priority w' below operand'
  end.

(** The locals of [Parse] that live from one token to the next. *)
Record Frame : Set := mkFrame {
  result          : option Tree;
  left_           : option Tree;
  infix           : string;
  stack           : list Pending;
  result_priority : Z;
  is_expression   : bool;
  new_statement   : bool;
  blk_closing     : string;
  done            : bool
}.

Definition set_result (f : Frame) (r : option Tree) (p : Z) : Frame :=
  mkFrame r (left_ f) (infix f) (stack f) p (is_expression f)
    (new_statement f) (blk_closing f) (done f).

Definition set_left (f : Frame) (l : option Tree) (op : string) : Frame :=
  mkFrame (result f) l op (stack f) (result_priority f) (is_expression f)
    (new_statement f) (blk_closing f) (done f).

Definition set_stack (f : Frame) (s : list Pending) : Frame :=
  mkFrame (result f) (left_ f) (infix f) s (result_priority f)
    (is_expression f) (new_statement f) (blk_closing f) (done f).

Definition set_is_expression (f : Frame) (b : bool) : Frame :=
  mkFrame (result f) (left_ f) (infix f) (stack f) (result_priority f) b
    (new_statement f) (blk_closing f) (done f).

Definition set_new_statement (f : Frame) (b : bool) : Frame :=
  mkFrame (result f) (left_ f) (infix f) (stack f) (result_priority f)
    (is_expression f) b (blk_closing f) (done f).

Definition set_blk_closing (f : Frame) (c : string) : Frame :=
  mkFrame (result f) (left_ f) (infix f) (stack f) (result_priority f)
    (is_expression f) (new_statement f) c (done f).

Definition set_done (f : Frame) : Frame :=
  mkFrame (result f) (left_ f) (infix f) (stack f) (result_priority f)
    (is_expression f) (new_statement f) (blk_closing f) true.

(** The locals as [Parse] sets them before its loop. *)
Definition enter (s : Syntax) (closing : string) : Frame :=
  let paren_priority := InfixPriority s closing in
  let inside :=
    negb (text_eqb closing "") && (paren_priority >? statement_priority s) in
  mkFrame None None "" [] (default_priority s)
    inside (negb inside) "" false.

(** What the [switch] on one token leaves behind. *)
Record Scanned : Set := mkScanned {
  frame           : Frame;
  world           : World;
  input           : Stream;
  right_          : option Tree;
  prefix_priority : Z;
  infix_priority  : Z
}.

(** How a name after a partial result is taken. *)
Inductive Role : Set := AsInfix | AsPostfix | AsPrefix.

(** Complicated case: need to discriminate infix and prefix. *)
Definition discriminate (s : Syntax) (name : string)
    (hadSpaceBefore hadSpaceAfter : bool) : Role :=
  let infix_priority := InfixPriority s name in
  let prefix_vs_infix := PrefixPriority s name in
  if negb (infix_priority =? default_priority s)
     && ((prefix_vs_infix =? default_priority s)
         || negb hadSpaceBefore || hadSpaceAfter)
  then AsInfix
  else
    let postfix_priority := PostfixPriority s name in
    if negb (postfix_priority =? default_priority s)
    then AsPostfix
    else AsPrefix.

(** The reading of the parser's rule as the design text words it:
    infix needs no space before *and* a space after when the name also
    has a prefix priority. *)
Definition discriminate_as_written (s : Syntax) (name : string)
    (hadSpaceBefore hadSpaceAfter : bool) : Role :=
  let defined (p : Z) := negb (p =? default_priority s) in
  if defined (InfixPriority s name)
     && (negb (defined (PrefixPriority s name))
         || (negb hadSpaceBefore && hadSpaceAfter))
  then AsInfix
  else if defined (PostfixPriority s name) then AsPostfix
  else AsPrefix.

(** The first character of a token text, as the text of one character;
    [text[0]] of an empty text is the terminating zero. *)
Definition first_char (t : string) : string :=
  match t with
  | String c _ => String c ""
  | EmptyString => String (Ascii.ascii_of_nat 0) ""
  end.

(** The prefix priority of a name that starts an operand. *)
Definition operand_priority (s : Syntax) (name : string) : Z :=
  let p := PrefixPriority s name in
  if p =? default_priority s then function_priority s else p.

(** The children of a node are trees, where the source has pointers.  The
    one node that [Parse] builds around a pointer that may be null is the
    prefix of a child syntax: its operand is what the child parser
    returned.  [null_operand] stands for that operand when it is null; no
    code of the parser reads it, and what is proved holds whatever it
    is. *)
Class NullOperand := {
  null_operand : Tree
}.

Section Switch.
Context `{BlockNames} `{SyntaxFiles} `{ParserOptions} `{NullOperand}.

(** The recursive calls of [Parse], on a block or with a child syntax. *)
Variable Parse :
  Syntax -> string -> World -> Stream ->
  option (option Tree * World * Stream).

Variables (s : Syntax) (closing : string).

(** A leaf read from the token: [right = new ...]. *)
Definition leaf (f : Frame) (w : World) (rest : Stream) (pos : TreePosition)
    (make : Node -> Tree) (textual : bool) : Scanned :=
  let (n, w) := fresh w pos in
  let f :=
    if textual && negb (bool_decide (is_Some (result f)))
       && new_statement f
    then set_is_expression f false else f in
  mkScanned f w rest (Some (make n)) (function_priority s)
    (default_priority s).

(** The case of a name or a symbol. *)
Definition scan_name (f : Frame) (w : World) (t : Token) (rest : Stream)
  : option Scanned :=
  let pos := ScanPosition t in
  let name := NameValue t in
  let dflt := default_priority s in
  if text_eqb name closing then
    Some (mkScanned (set_done f) w rest None dflt dflt)
  else
    match HasSpecialSyntax s name with
    | Some (cs, closing') =>
        (* Read the input with the special syntax *)
        let f := set_blk_closing f closing' in
        match Parse cs closing' w rest with
        | Some (inner, w, rest) =>
            let inner :=
              match inner with
              | Some tree => tree
              | None => null_operand
              end in
            let (n1, w) := fresh w NOWHERE in
            let (n2, w) := fresh w pos in
            Some (mkScanned f w rest (Some (Prefix n2 (Name n1 name) inner))
                    dflt dflt)
        | None => None
        end
    | None =>
        match result f, left_ f with
        | None, _ =>
            let (n, w) := fresh w pos in
            let f :=
              if new_statement f && bool_decide (tok t = tokNAME)
              then set_is_expression f false else f in
            Some (mkScanned f w rest (Some (Name n name))
                    (operand_priority s name) dflt)
        | Some _, Some _ =>
            (* This is the right of an infix operator *)
            let (n, w) := fresh w pos in
            Some (mkScanned f w rest (Some (Name n name))
                    (operand_priority s name) dflt)
        | Some res, None =>
            let infix_priority := InfixPriority s name in
            let prefix_vs_infix := PrefixPriority s name in
            match
              discriminate s name (HadSpaceBefore t) (HadSpaceAfter t)
            with
            | AsInfix =>
                (* We got an infix *)
                Some (mkScanned (set_left f (result f) name) w rest None
                        dflt infix_priority)
            | AsPostfix =>
                (* We have a postfix operator *)
                let postfix_priority := PostfixPriority s name in
                let (n, w) := fresh w pos in
                let '(stack', res', w) :=
                  flush (done f) dflt postfix_priority w (stack f) res in
                let (n', w) := fresh w pos in
                let f := set_result (set_stack f stack') None
                           (result_priority f) in
                Some (mkScanned f w rest
                        (Some (Postfix n' res' (Name n name)))
                        postfix_priority infix_priority)
            | AsPrefix =>
                (* No priority: take this as a prefix by default *)
                let (n, w) := fresh w pos in
                let undefined := prefix_vs_infix =? dflt in
                let f :=
                  if undefined && new_statement f
                     && bool_decide (tok t = tokNAME)
                  then set_is_expression f false else f in
                Some (mkScanned f w rest (Some (Name n name))
                        (if undefined then function_priority s
                         else prefix_vs_infix)
                        infix_priority)
            end
        end
    end.

(** The case of an opening parenthesis or of an indent. *)
Definition scan_block (f : Frame) (w : World) (t : Token) (rest : Stream)
  : option Scanned :=
  let pos := ScanPosition t in
  let blk_opening :=
    match tok t with tokINDENT => Block_indent | _ => TokenText t end in
  let '(f, w) :=
    match IsBlock s blk_opening with
    | Some closing' => (set_blk_closing f closing', w)
    | None =>
        (f, Log w (mkError "Unknown parenthese type: $1 (internal)" pos
                     [ArgText blk_opening]))
    end in
  let paren_priority := InfixPriority s blk_opening in
  match Parse s (blk_closing f) w rest with
  | Some (inner, w, rest) =>
      let '(inner, w) :=
        match inner with
        | Some tree => (tree, w)
        | None => let (n, w) := fresh w pos in (Name n "", w)
        end in
      let (n, w) := fresh w pos in
      Some (mkScanned f w rest
              (Some (Block n inner blk_opening (blk_closing f)))
              paren_priority (default_priority s))
  | None => None
  end.

(** The [switch (tok)] of the loop. *)
Definition scan (f : Frame) (w : World) (t : Token) (rest : Stream)
  : option Scanned :=
  let pos := ScanPosition t in
  let dflt := default_priority s in
  match tok t with
  | tokEOF | tokERROR =>
      let w :=
        if negb (text_eqb closing "")
           && negb (text_eqb closing Block_unindent)
        then Log w (mkError "Unexpected end of text, expected $1" pos
                      [ArgText closing])
        else w in
      Some (mkScanned (set_done f) w rest None dflt dflt)
  | tokINTEGER =>
      Some (leaf f w rest pos
              (fun n => Integer n (to_longlong (IntegerValue t))) false)
  | tokREAL =>
      Some (leaf f w rest pos (fun n => Real n (RealValue t)) false)
  | tokLONGSTRING =>
      Some (leaf f w rest pos
              (fun n => Text n (TextValue t) (openquote t) (closequote t))
              true)
  | tokSTRING | tokQUOTE =>
      let name := first_char (TokenText t) in
      Some (leaf f w rest pos (fun n => Text n (TextValue t) name name)
              true)
  | tokNAME | tokSYMBOL => scan_name f w t rest
  | tokNEWLINE =>
      (* Consider new-line as an infix operator *)
      Some (mkScanned (set_left f (result f) newline) w rest None dflt
              (InfixPriority s newline))
  | tokPARCLOSE =>
      (* Check for mismatched parenthese here *)
      let w :=
        if negb (text_eqb (NameValue t) closing)
        then Log w (mkError "Mismatched parentheses: got $1, expected $2"
                      pos [ArgText (NameValue t); ArgText closing])
        else w in
      Some (mkScanned (set_done f) w rest None dflt dflt)
  | tokUNINDENT =>
      (* Check for mismatched blocks here *)
      let w :=
        if negb (text_eqb closing Block_unindent)
        then Log w (mkError "Mismatched identation, expected $1" pos
                      [ArgText closing])
        else w in
      Some (mkScanned (set_done f) w rest None dflt dflt)
  | tokINDENT | tokPAROPEN => scan_block f w t rest
  | tokNONE =>
      Some (mkScanned f
              (Log w (mkError "Internal error: unknown token $1 ($2)" pos
                        [ArgText (NameValue t); ArgToken (tok t)]))
              rest None dflt dflt)
  end.
End Switch.

Section Loop.
Context `{BlockNames} `{SyntaxFiles} `{ParserOptions} `{NullOperand}.

(** The part of the loop after the [switch]: check what is the current
    result.  [pos] is the position of the token just read. *)
Definition advance (s : Syntax) (sc : Scanned) (pos : TreePosition)
  : Frame * World :=
  let f := frame sc in
  let w := world sc in
  let dflt := default_priority s in
  match result f, left_ f, right_ sc with
  | None, _, rgt =>
      (* First thing we parse *)
      let f := set_result f rgt (prefix_priority sc) in
      let f :=
        if bool_decide (is_Some rgt)
           && (statement_priority s <=? prefix_priority sc)
        then set_new_statement f false else f in
      (f, w)
  | Some res, Some l, rgt =>
      (* Check if we had a statement separator *)
      let f :=
        if infix_priority sc <? statement_priority s
        then set_is_expression (set_new_statement f true) false else f in
      if negb (prefix_priority sc =? dflt) then
        (* Push "A and" in the above example *)
        let st_pos := if new_statement f then Position l else pos in
        let f :=
          set_stack f
            (mkPending (infix f) l (infix_priority sc) st_pos :: stack f) in
        let f := set_left f None (infix f) in
        (* Start over with "not" *)
        (set_result f rgt (prefix_priority sc), w)
      else
        let '(stack', l', w) :=
          flush (done f) dflt (infix_priority sc) w (stack f) l in
        let f := set_stack f stack' in
        (* Now, we want to restart with the rightmost operand *)
        let f :=
          if done f then
            (* End of text: the result is what we just got *)
            set_result f (Some l') (result_priority f)
          else
            (* Something like A+B+C, just got second + *)
            let st_pos := if new_statement f then Position l' else pos in
            set_result
              (set_stack f
                 (mkPending (infix f) l' (infix_priority sc) st_pos :: stack f))
              None (result_priority f) in
        (set_left f None (infix f), w)
  | Some res, None, Some r =>
      (* Check if we had a low-priority prefix (e.g. pragmas) *)
      let f :=
        if prefix_priority sc <? statement_priority s
        then set_is_expression (set_new_statement f true) false else f in
      (* Check priorities for something like "A.B x,y" -> "(A.B) (x,y)" *)
      let '(stack', res', w) :=
        if prefix_priority sc <=? result_priority f
        then flush (done f) dflt (result_priority f) w (stack f) res
        else (stack f, res, w) in
      let f := set_stack f stack' in
      (* Check if new statement *)
      let result_priority' :=
        if negb (is_expression f)
           && (result_priority f >? statement_priority s)
           && match stack f with
              | [] => true
              | top :: _ => priority top <? statement_priority s
              end
        then statement_priority s else result_priority f in
      (* Push a recognized prefix op *)
      let f :=
        set_stack f (mkPending prefix res' result_priority' pos :: stack f) in
      (set_result f (Some r) (prefix_priority sc), w)
  | Some res, None, None => (f, w)
  end.

(** Check if some stuff remains on stack. *)
Fixpoint drain (w : World) (stack : list Pending) (operand : Tree)
  : Tree * World :=
  match stack with
  | [] => (operand, w)
  | prev :: below =>
      let (operand', w') := unstack w prev operand in
      drain w' below operand'
  end.

(** The end of [Parse], after the loop. *)
Definition finish (f : Frame) (w : World) : option Tree * World :=
  match stack f with
  | [] => (result f, w)
  | last :: below =>
      match result f with
      | Some res => let (t, w) := drain w (stack f) res in (Some t, w)
      | None =>
          let '(res, w) :=
            if negb (text_eqb (opcode last) newline) then
              let (n1, w) := fresh w (position last) in
              let (n2, w) := fresh w NOWHERE in
              (Postfix n2 (argument last) (Name n1 (opcode last)), w)
            else (argument last, w) in
          let (t, w) := drain w below res in
          (Some t, w)
      end
  end.

(** The next token: the head of the list, or the end of the input. *)
Definition NextToken (input : Stream) : Token * Stream :=
  match ahead input with
  | [] => (end_token input, input)
  | t :: rest => (t, rest_of input rest)
  end.

(** One turn of the loop [while (!done)]: read a token, run the [switch],
    then update the result.  [Parse] stands for the nested calls. *)
Definition turn
    (Parse : Syntax -> string -> World -> Stream ->
             option (option Tree * World * Stream))
    (s : Syntax) (closing : string) (f : Frame) (w : World) (input : Stream)
  : option (Frame * World * Stream) :=
  let (t, rest) := NextToken input in
  match scan Parse s closing f w t rest with
  | None => None
  | Some sc =>
      let '(f', w') := advance s sc (ScanPosition t) in
      Some (f', w', Parser.input sc)
  end.

(** A whole call of [Parse], given its loop. *)
Definition parse_with
    (loop : Syntax -> string -> Frame -> World -> Stream ->
            option (Frame * World * Stream))
    (s : Syntax) (closing : string) (w : World) (input : Stream)
  : option (option Tree * World * Stream) :=
  match loop s closing (enter s closing) w input with
  | Some (f, w', input') =>
      let (tree, w'') := finish f w' in Some (tree, w'', input')
  | None => None
  end.

(** The loop [while (!done)] of [Parse].  One unit of fuel is spent per
    token and per nested call; [None] is a run that needs more fuel. *)
Fixpoint parse_loop (fuel : nat) (s : Syntax) (closing : string)
    (f : Frame) (w : World) (input : Stream)
  : option (Frame * World * Stream) :=
  match fuel with
  | O => None
  | S fuel =>
      match turn (parse_with (parse_loop fuel)) s closing f w input with
      | None => None
      | Some (f', w', input') =>
          if done f' then Some (f', w', input')
          else parse_loop fuel s closing f' w' input'
      end
  end.

(** [Tree *Parser::Parse(text closing)] *)
Definition Parse (fuel : nat) (s : Syntax) (closing : string)
    (w : World) (input : Stream) : option (option Tree * World * Stream) :=
  parse_with (parse_loop fuel) s closing w input.
End Loop.
End Parser.

(* ====================================================================== *)
(** * compiler-args.cpp: binding a call to the candidate rewrites         *)
(* ====================================================================== *)

Module Calls.

(** The values of the enumeration index the table of names of [Bind]:
    impossible, possible, unconditional. *)
Inductive BindingStrength : Set := FAILED | POSSIBLE | PERFECT.

Definition strength_rank (b : BindingStrength) : Z :=
  match b with FAILED => 0 | POSSIBLE => 1 | PERFECT => 2 end.

Definition is_failed (b : BindingStrength) : bool :=
  match b with FAILED => true | _ => false end.

Definition is_perfect (b : BindingStrength) : bool :=
  match b with PERFECT => true | _ => false end.

(** Return the weakest binding: [if (left > right) left = right]. *)
Definition weakest (l r : BindingStrength) : BindingStrength :=
  if strength_rank l >? strength_rank r then r else l.

(** An [Infix *]: the declaration [left is right] of a rewrite. *)
Record Rewrite : Set := mkRewrite {
  rewrite_node  : Node;
  rewrite_name  : string;
  rewrite_left  : Tree;
  rewrite_right : Tree
}.

Definition rewrite_tree (rw : Rewrite) : Tree :=
  Infix (rewrite_node rw) (rewrite_name rw) (rewrite_left rw)
    (rewrite_right rw).

(** Modelled from the spec: the three lists of a candidate, whose element
    types are declared in compiler-args.h: a binding pairs a name with a
    value, a condition a value with the tree it must equal, a kind
    condition a value with the kind it must have. *)
Record RewriteBinding : Set := mkBinding {
  binding_name : Tree; binding_value : Tree
}.

Record RewriteCondition : Set := mkCondition {
  condition_value : Tree; condition_test : Tree
}.

Record RewriteKind : Set := mkKind {
  kind_value : Tree; kind_test : kind
}.

(** What [Bind] and [Check] use of types.cpp, context.cpp, errors.cpp and
    basics.h.  [World] is all their state: the type maps of the call and
    of the candidate, the scope of the bindings, and the error sink. *)
Class Inference := {
  World : Type;
  (** [vtypes->Type (value)] and [btypes->Type (expr)] *)
  ValueTypes_Type : World -> Tree -> option Tree * World;
  Types_Type : World -> Tree -> option Tree * World;
  (** the body of the loop of [ValueType], which hands the rewrite calls
      of a value over to the types of the candidate *)
  ShareRewriteCalls : World -> Tree -> World;
  Types_AssignType : World -> Tree -> option Tree -> option Tree * World;
  Types_Unify : World -> option Tree -> option Tree -> bool * World;
  Types_DeclaredTypeName : World -> option Tree -> option Tree;
  Types_NewType : World -> Tree -> option Tree * World;
  (** [types->EvaluateType (declType)], in the types of the call *)
  Types_EvaluateType : World -> Tree -> option Tree * World;
  (** [context->Bound (name, true)] and [context->Define (form, value)] *)
  Context_Bound : World -> Tree -> option Tree;
  Context_Define : World -> Tree -> Tree -> World;
  Context_CreateScope : World -> World;
  Context_ProcessDeclarations : World -> Tree -> World;
  (** [new RewriteCandidate]: the types and the context of a candidate *)
  NewCandidate : World -> Rewrite -> Tree -> World;
  (** The local [Errors errors] of [Check]: opened with its first
      message, asked with [HadErrors], closed when [Check] returns *)
  Errors_Open : World -> Tree -> World;
  Errors_HadErrors : World -> bool;
  Errors_Close : World -> World;
  (** the names of the predefined types, and the name [true] *)
  integer_type : Tree;
  real_type : Tree;
  text_type : Tree;
  name_type : Tree;
  boolean_type : Tree;
  block_type : Tree;
  infix_type : Tree;
  prefix_type : Tree;
  postfix_type : Tree;
  tree_type : Tree;
  xl_true : Tree
}.

Section Candidates.
Context `{Inference}.

(** [struct RewriteCandidate]; [world] stands for its [vtypes], [btypes]
    and [context], [next] is the address the next [new] returns. *)
Record RewriteCandidate : Type := mkCandidate {
  rewrite    : Rewrite;
  scope      : Tree;
  bindings   : list RewriteBinding;
  conditions : list RewriteCondition;
  kinds      : list RewriteKind;
  type       : option Tree;
  world      : World;
  next       : N
}.

Definition set_world (rc : RewriteCandidate) (w : World) : RewriteCandidate :=
  mkCandidate (rewrite rc) (scope rc) (bindings rc) (conditions rc) (kinds rc)
    (type rc) w (next rc).

Definition set_type (rc : RewriteCandidate) (t : option Tree)
  : RewriteCandidate :=
  mkCandidate (rewrite rc) (scope rc) (bindings rc) (conditions rc) (kinds rc)
    t (world rc) (next rc).

(** A node made by [new]. *)
Definition fresh (rc : RewriteCandidate) (pos : TreePosition)
  : Node * RewriteCandidate :=
  (mkNode (next rc) pos [],
   mkCandidate (rewrite rc) (scope rc) (bindings rc) (conditions rc)
     (kinds rc) (type rc) (world rc) (N.succ (next rc))).

(** Modelled from the spec: [Condition], [KindCondition] and
    [Unconditional] of compiler-args.h: a condition is added to the list
    of the candidate, and a binding is strong only when the candidate has
    no runtime condition of either sort. *)
Definition Condition (rc : RewriteCandidate) (value test : Tree)
  : RewriteCandidate :=
  mkCandidate (rewrite rc) (scope rc) (bindings rc)
    (conditions rc ++ [mkCondition value test]) (kinds rc) (type rc)
    (world rc) (next rc).

Definition KindCondition (rc : RewriteCandidate) (value : Tree) (k : kind)
  : RewriteCandidate :=
  mkCandidate (rewrite rc) (scope rc) (bindings rc) (conditions rc)
    (kinds rc ++ [mkKind value k]) (type rc) (world rc) (next rc).

Definition Unconditional (rc : RewriteCandidate) : bool :=
  match kinds rc, conditions rc with
  | [], [] => true
  | _, _ => false
  end.

Definition add_binding (rc : RewriteCandidate) (name value : Tree)
  : RewriteCandidate :=
  mkCandidate (rewrite rc) (scope rc)
    (bindings rc ++ [mkBinding name value]) (conditions rc) (kinds rc)
    (type rc) (world rc) (next rc).

(** Calls of the oracles on the world of the candidate. *)
Definition in_world {A} (rc : RewriteCandidate)
    (call : World -> A * World) : A * RewriteCandidate :=
  let (a, w) := call (world rc) in (a, set_world rc w).

(** The loop of [ValueType]: the value, then the children of blocks. *)
Fixpoint share_calls (w : World) (value : Tree) : World :=
  let w := ShareRewriteCalls w value in
  match value with
  | Block _ child _ _ => share_calls w child
  | _ => w
  end.

(** Return the value type for this value, and associated calls. *)
Definition ValueType (rc : RewriteCandidate) (value : Tree)
  : option Tree * RewriteCandidate :=
  let (vtype, rc) := in_world rc (fun w => ValueTypes_Type w value) in
  match vtype with
  | Some _ => (vtype, set_world rc (share_calls (world rc) value))
  | None => (vtype, rc)
  end.

Definition kind_is (t : option Tree) (k : kind) : bool :=
  match t with
  | Some t => kind_eqb (Kind t) k
  | None => false
  end.

(** Check unification for types in a given candidate. *)
Definition Unify (rc : RewriteCandidate) (valueType formType : option Tree)
    (value form : Tree) (declaration : bool) : bool * RewriteCandidate :=
  let refType := Types_DeclaredTypeName (world rc) valueType in
  (* If we have a tree, it may have the right type, must check at runtime *)
  let rc :=
    if same_ptr refType (Some tree_type) then
      let vrefType := Types_DeclaredTypeName (world rc) formType in
      let named t := same_ptr vrefType (Some t) in
      if kind_is valueType INTEGER || named integer_type
      then KindCondition rc value INTEGER
      else if kind_is valueType REAL || named real_type
      then KindCondition rc value REAL
      else if kind_is valueType TEXT || named text_type
      then KindCondition rc value TEXT
      else if named name_type || named boolean_type
      then KindCondition rc value NAME
      else if named block_type
      then KindCondition rc value BLOCK
      else if kind_is valueType INFIX || named infix_type
      then KindCondition rc value INFIX
      else if named prefix_type
      then KindCondition rc value PREFIX
      else if named postfix_type
      then KindCondition rc value POSTFIX
      else rc
    else rc in
  (* Otherwise, do type inference *)
  in_world rc (fun w => Types_Unify w valueType formType).

(** The second half of [BIND_CONSTANT]: the value is no constant of the
    kind of the form. *)
Definition bind_constant (rc : RewriteCandidate) (mtype : Tree)
    (form value : Tree) : BindingStrength * RewriteCandidate :=
  let (type, rc) := ValueType rc value in
  let (ok, rc) := Unify rc type (Some mtype) value form false in
  if ok then (POSSIBLE, Condition rc value form)
  else (FAILED, rc).

(** The case [NAME] of [Bind]. *)
Definition bind_name (rc : RewriteCandidate) (form value : Tree)
  : BindingStrength * RewriteCandidate :=
  let name := form in
  (* Ignore function name if that is all we have *)
  let fname := RewriteDefined (rewrite_left (rewrite rc)) in
  if same_tree fname name then
    (PERFECT, rc)       (* Will degrade to 'POSSIBLE' if there are args *)
  else
    (* Check if what we have as an expression evaluates correctly *)
    let (type, rc) := ValueType rc value in
    match type with
    | None => (FAILED, rc)
    | Some _ =>
        (* Test if the name is already bound, and if so, if trees fail
           to match *)
        let duplicate :=
          match Context_Bound (world rc) name with
          | Some bound =>
              if negb (same_tree bound name) then Some bound else None
          | None => None
          end in
        let '(mismatch, needArg, rc) :=
          match duplicate with
          | Some bound =>
              let (boundType, rc) := ValueType rc bound in
              let (ok, rc) := Unify rc type boundType value form false in
              if ok
              then (false, false, Condition rc value form)
              else (true, true, rc)
          | None => (false, true, rc)
          end in
        if mismatch then (FAILED, rc)
        else
          (* Check if we can unify the value and name types *)
          let (nameType, rc) := in_world rc (fun w => Types_Type w name) in
          let (ok, rc) := Unify rc type nameType value form false in
          if negb ok then (FAILED, rc)
          else if needArg then
            (* Enter the name in the context and in the bindings *)
            let rc := set_world rc (Context_Define (world rc) form value) in
            (POSSIBLE, add_binding rc name value)
          else (POSSIBLE, rc)
    end.

(** The test of [BindBinary]: the same name as operand on both sides. *)
Definition same_operator (form1 value1 : Tree) : bool :=
  match form1, value1 with
  | Name _ formName, Name _ valueName => text_eqb formName valueName
  | _, _ => false
  end.

(** The default delimiters of a text built from its value alone. *)
Definition quote : string := String (Ascii.ascii_of_nat 34) "".

(** Attempts to bind 'value' to the pattern form given in 'form'. *)
Fixpoint Bind (rc : RewriteCandidate) (form value : Tree) {struct form}
  : BindingStrength * RewriteCandidate :=
  match form with
  | Integer _ fv =>
      match value with
      | Integer _ iv => (if iv =? fv then PERFECT else FAILED, rc)
      | _ => bind_constant rc integer_type form value
      end
  | Real _ fv =>
      match value with
      | Real _ iv => (if double_eqb iv fv then PERFECT else FAILED, rc)
      | _ => bind_constant rc real_type form value
      end
  | Text _ fv _ _ =>
      match value with
      | Text _ iv _ _ => (if text_eqb iv fv then PERFECT else FAILED, rc)
      | _ => bind_constant rc text_type form value
      end
  | Name _ _ => bind_name rc form value
  | Infix _ fname fleft fright =>
      (* Check type declarations *)
      if text_eqb fname ":" || text_eqb fname "as" then
        (* Assign the given type to the declared expression *)
        let (type, rc) :=
          in_world rc (fun w => Types_AssignType w fleft (Some fright)) in
        (* Check if we can bind the value from what we know *)
        let (bound, rc) := Bind rc fleft value in
        if is_failed bound then (FAILED, rc)
        else
          (* Add type binding with the given type *)
          let (valueType, rc) := in_world rc (fun w => Types_Type w value) in
          let (ok, rc) := Unify rc valueType type value fleft true in
          if negb ok then (FAILED, rc)
          else
            (* Having been successful makes it a strong binding *)
            (if Unconditional rc then PERFECT else POSSIBLE, rc)
      else if text_eqb fname "when" then
        (* We have a guard - first test if we can bind the left part *)
        let (bound, rc) := Bind rc fleft value in
        if is_failed bound then (FAILED, rc)
        else
          (* Check if we can evaluate the guard *)
          let (checked, rc) := in_world rc (fun w => Types_Type w fright) in
          match checked with
          | None => (FAILED, rc)
          | Some _ =>
              (* Check that the type of the guard is a boolean *)
              let (guardType, rc) :=
                in_world rc (fun w => Types_Type w fright) in
              let (ok, rc) :=
                Unify rc guardType (Some boolean_type) fright fleft false in
              if negb ok then (FAILED, rc)
              else
                (* Add the guard condition; the guard makes the binding
                   weak *)
                (POSSIBLE, Condition rc fright xl_true)
          end
      else
        (* We may have an expression that evaluates as an infix *)
        let at_runtime (rc : RewriteCandidate) :=
          let (type, rc) := in_world rc (fun w => Types_Type w value) in
          match type with
          | None => (FAILED, rc)
          | Some _ =>
              (* Then check if the type matches *)
              let (ok, rc) :=
                Unify rc type (Some infix_type) value form false in
              if negb ok then (FAILED, rc)
              else
                (* If we had to evaluate, we need a runtime pattern match *)
                let pos := Position form in
                let (n1, rc) := fresh rc pos in
                let (n2, rc) := fresh rc NOWHERE in
                let infixLeft := Prefix n2 (Name n1 "left") value in
                let (l, rc) := Bind rc fleft infixLeft in
                if is_failed l then (FAILED, rc)
                else
                  let (n3, rc) := fresh rc pos in
                  let (n4, rc) := fresh rc NOWHERE in
                  let infixRight := Prefix n4 (Name n3 "right") value in
                  let (r, rc) := Bind rc fright infixRight in
                  (* Add a condition on the infix name *)
                  let (n5, rc) := fresh rc pos in
                  let (n6, rc) := fresh rc NOWHERE in
                  let infixName := Prefix n6 (Name n5 "name") value in
                  let (t1, rc) :=
                    in_world rc (fun w => Types_Type w infixName) in
                  match t1 with
                  | None => (FAILED, rc)
                  | Some _ =>
                      let (n7, rc) := fresh rc pos in
                      let infixRequiredName := Text n7 fname quote quote in
                      let (t2, rc) :=
                        in_world rc
                          (fun w => Types_Type w infixRequiredName) in
                      match t2 with
                      | None => (FAILED, rc)
                      | Some _ =>
                          (* Return weakest binding *)
                          (weakest l r,
                           Condition rc infixName infixRequiredName)
                      end
                  end
          end in
        (* If we match the infix name, we can bind left and right *)
        match value with
        | Infix _ vname vleft vright =>
            if text_eqb fname vname then
              let (l, rc) := Bind rc fleft vleft in
              if is_failed l then (FAILED, rc)
              else
                let (r, rc) := Bind rc fright vright in
                (* Return the weakest binding *)
                (weakest l r, rc)
            else at_runtime rc
        | _ => at_runtime rc
        end
  | Prefix _ fleft fright =>
      (* Must match a prefix with the same name *)
      match value with
      | Prefix _ vleft vright =>
          if same_operator fleft vleft then Bind rc fright vright
          else (FAILED, rc)
      | _ => (FAILED, rc)
      end
  | Postfix _ fleft fright =>
      (* Must match a postfix with the same name *)
      match value with
      | Postfix _ vleft vright =>
          if same_operator fright vright then Bind rc fleft vleft
          else (FAILED, rc)
      | _ => (FAILED, rc)
      end
  | Block _ child _ _ =>
      (* Ignore blocks, just look inside *)
      Bind rc child value
  end.

(** Built-ins and C functions: the body is [C], [builtin X] or [C X]. *)
Definition is_builtin (init : Tree) : bool :=
  match init with
  | Name _ value => text_eqb value "C"
  | Prefix _ (Name _ pfname) _ =>
      text_eqb pfname "builtin" || text_eqb pfname "C"
  | _ => false
  end.

(** The body of [RewriteCalls::Check] down to the point where the
    candidate is recorded: the final strength of the binding, and the
    candidate with its type.  The early [return nullptr] after a failed
    [Bind] is the first [FAILED] below. *)
Definition Check_candidate (w : World) (next : N) (scope : Tree)
    (what : Tree) (candidate : Rewrite)
  : BindingStrength * RewriteCandidate :=
  let w := Errors_Open w (rewrite_left candidate) in
  (* Create local type inference deriving from ours *)
  let rc :=
    mkCandidate candidate scope [] [] [] None
      (NewCandidate w candidate scope) next in
  (* Attempt binding / unification of parameters to arguments *)
  let form := rewrite_left candidate in
  let defined := RewriteDefined form in
  let declType := RewriteType form in
  let (type, rc) :=
    match declType with
    | Some t => in_world rc (fun w => Types_EvaluateType w t)
    | None => (None, rc)
    end in
  let (binding, rc) := Bind rc defined what in
  if is_failed binding then (FAILED, rc)
  else
    (* If argument/parameters binding worked, try to typecheck the
       definition *)
    let init := rewrite_right candidate in
    (* Check if we have a type to match *)
    let '(binding, type, rc) :=
      match type with
      | Some _ =>
          let (type, rc) :=
            in_world rc (fun w => Types_AssignType w init type) in
          let (type, rc) :=
            in_world rc (fun w => Types_AssignType w what type) in
          (match type with None => FAILED | Some _ => binding end, type, rc)
      | None => (binding, type, rc)
      end in
    (* Check built-ins and C functions *)
    let '(binding, type, rc) :=
      if is_failed binding then (binding, type, rc)
      else if negb (is_builtin init) then
        (* Process declarations in the initializer *)
        let rc := set_world rc (Context_CreateScope (world rc)) in
        let rc :=
          set_world rc (Context_ProcessDeclarations (world rc) init) in
        let (type, rc) := in_world rc (fun w => Types_Type w init) in
        (match type with None => FAILED | Some _ => binding end, type, rc)
      else
        match declType with
        | None =>
            (* No type specified, assign a generic type *)
            let (type, rc) := in_world rc (fun w => Types_NewType w init) in
            (binding, type, rc)
        | Some _ => (binding, type, rc)
        end in
    (* Match the type of the form and declared entity *)
    let (type, rc) :=
      if negb (is_failed binding) && bool_decide (is_Some type) then
        let (type, rc) :=
          in_world rc (fun w => Types_AssignType w form type) in
        if negb (same_tree form defined)
        then in_world rc (fun w => Types_AssignType w defined type)
        else (type, rc)
      else (type, rc) in
    (* If we had some errors in the process, binding fails *)
    let binding := if Errors_HadErrors (world rc) then FAILED else binding in
    (* If everything went well, define the type for the expression *)
    if is_failed binding then (FAILED, set_type rc type)
    else
      let (type, rc) :=
        in_world rc (fun w => Types_AssignType w what type) in
      (match type with None => FAILED | Some _ => binding end,
       set_type rc type).

(** [struct RewriteCalls]: the candidates found so far for a call. *)
Record RewriteCalls : Type := mkCalls {
  candidates : list RewriteCandidate;
  types      : World;
  heap       : N
}.

(** Check which candidates match, and what binding is required to match.
    The result is [what] or null. *)
Definition Check (calls : RewriteCalls) (scope : Tree) (what : Tree)
    (candidate : Rewrite) : option Tree * RewriteCalls :=
  let (binding, rc) :=
    Check_candidate (types calls) (heap calls) scope what candidate in
  let w := Errors_Close (world rc) in
  (* Record the rewrite candidate if we had any success with binding *)
  let recorded :=
    if is_failed binding then candidates calls
    else (candidates calls ++ [rc])%list in
  (* Keep going unless we had a perfect binding *)
  (if is_perfect binding then Some what else None,
   mkCalls recorded w (next rc)).

(** Modelled from the spec: [Context::Lookup] of context.cpp, the generic
    walker: for each candidate rule, in the order of the walk, call the
    callback; on a non-null return, short-circuit.  [rules] are the rules
    of the bucket of [what], each with the scope that declares it. *)
Fixpoint Lookup {Info : Type}
    (lookup : Info -> Tree -> Tree -> Rewrite -> option Tree * Info)
    (info : Info) (what : Tree) (rules : list (Tree * Rewrite))
  : option Tree * Info :=
  match rules with
  | [] => (None, info)
  | (declScope, decl) :: later =>
      match lookup info declScope what decl with
      | (Some found, info) => (Some found, info)
      | (None, info) => Lookup lookup info what later
      end
  end.

(** The literal rule of the binder as the design text words it: strong on
    an equal constant, weak with an equality condition when the type of
    the value unifies with the type of the literal, failed otherwise. *)
Definition literal_type (form : Tree) : Tree :=
  match form with
  | Real _ _ => real_type
  | Text _ _ _ _ => text_type
  | _ => integer_type
  end.

Definition equal_constant (form value : Tree) : bool :=
  match form, value with
  | Integer _ fv, Integer _ iv => iv =? fv
  | Real _ fv, Real _ iv => double_eqb iv fv
  | Text _ fv _ _, Text _ iv _ _ => text_eqb iv fv
  | _, _ => false
  end.

Definition Bind_literal_as_written (rc : RewriteCandidate)
    (form value : Tree) : BindingStrength * RewriteCandidate :=
  if equal_constant form value then (PERFECT, rc)
  else bind_constant rc (literal_type form) form value.

Definition is_literal (form : Tree) : bool :=
  match form with
  | Integer _ _ | Real _ _ | Text _ _ _ _ => true
  | _ => false
  end.

End Candidates.

(** Modelled from the spec: a small type system, enough to run the binder
    on examples.  A constant has its literal type ([integer], [real],
    [text]), any other tree has a generic type (a name that begins with
    [#]); two types unify when they are the same type name or when one of
    them is generic; nothing is bound and no error is recorded. *)
Definition type_name (a : N) (n : string) : Tree := Name (mkNode a NOWHERE []) n.

Definition literal_type_of (t : Tree) : option Tree :=
  match t with
  | Integer _ _ => Some (type_name 1 "integer")
  | Real _ _ => Some (type_name 2 "real")
  | Text _ _ _ _ => Some (type_name 3 "text")
  | _ => Some (type_name (1000 + addr (node t)) "#")
  end.

(** [Types::IsGeneric] of types.h: a generated generic type name. *)
Definition IsGeneric (type : option Tree) : bool :=
  match type with
  | Some (Name _ (String c _)) => bool_decide (c = Ascii.ascii_of_nat 35)
  | _ => false
  end.

Definition Literals : Inference := {|
  World := unit;
  ValueTypes_Type := fun w t => (literal_type_of t, w);
  Types_Type := fun w t => (literal_type_of t, w);
  ShareRewriteCalls := fun w _ => w;
  Types_AssignType := fun w _ t => (t, w);
  Types_Unify := fun w a b => (same_ptr a b || IsGeneric a || IsGeneric b, w);
  Types_DeclaredTypeName := fun _ t => t;
  Types_NewType := fun w _ => (None, w);
  Types_EvaluateType := fun w t => (Some t, w);
  Context_Bound := fun _ _ => None;
  Context_Define := fun w _ _ => w;
  Context_CreateScope := fun w => w;
  Context_ProcessDeclarations := fun w _ => w;
  NewCandidate := fun w _ _ => w;
  Errors_Open := fun w _ => w;
  Errors_HadErrors := fun _ => false;
  Errors_Close := fun w => w;
  integer_type := type_name 1 "integer";
  real_type := type_name 2 "real";
  text_type := type_name 3 "text";
  name_type := type_name 4 "name";
  boolean_type := type_name 5 "boolean";
  block_type := type_name 6 "block";
  infix_type := type_name 7 "infix";
  prefix_type := type_name 8 "prefix";
  postfix_type := type_name 9 "postfix";
  tree_type := type_name 10 "tree";
  xl_true := type_name 11 "true"
|}.

End Calls.

(* ====================================================================== *)
(** * options.h, context.h: the other members                           *)
(* ====================================================================== *)

(** [Options::LibRemap]: a name that begins with [oldpath] has this
    beginning replaced by [newpath].  [name.find (oldpath) == 0] holds
    when the first place where [oldpath] occurs is the start of the name;
    [name.replace (0, n, newpath)] puts [newpath] in place of the [n] first
    characters. *)
Definition LibRemap (name oldpath newpath : string) : string :=
  match String.index 0 oldpath name with
  | Some O =>
      newpath
      +:+ String.substring (String.length oldpath)
            (String.length name - String.length oldpath) name
  | _ => name
  end.

(** Record that we have a new rewrite for a given kind:
    [hasRewritesForKind |= 1<<k], on the static [uint] of [Context]. *)
Definition HasOneRewriteFor `{Symbols} (k : kind) : Symbols :=
  {| Bound := Bound;
     hasRewritesForKind :=
       to_uint (Z.lor hasRewritesForKind (Z.shiftl 1 (kind_rank k))) |}.

(* ====================================================================== *)
(** * parser.cpp: the tokens that the parser takes from the scanner       *)
(* ====================================================================== *)

(** [scanner.SetTextValue (text)] *)
Definition SetTextValue (t : Token) (txt : string) : Token :=
  mkToken (tok t) (ScanPosition t) (NameValue t) txt (TokenText t)
    (IntegerValue t) (RealValue t) (HadSpaceBefore t) (HadSpaceAfter t)
    (openquote t) (closequote t).

(** [Parser::NextToken] stands between the scanner and [Parse]: it skips
    the comments, gathers the long texts, reads the [syntax] statements
    and merges the new lines.  The scanner is the list of the tokens it
    answers one after the other ([Parser.NextToken] takes the next one);
    the text that [scanner.Comment] reads up to a closing delimiter is a
    parameter, the tokens ahead being those that follow that text. *)
Module Lexer.

Class CommentScanner := {
  (** [scanner.Comment (closing, stripIndent)] at this point of the input *)
  Comment : Stream -> string -> bool -> string
}.

(** The comments of a node, before and after it: its [CommentsInfo]. *)
Definition Comments : Type := list string * list string.

(** The members of [Parser] that [NextToken] and [AddComments] read and
    write.  [scanned] is the token that the scanner answered last, with
    the text that [SetTextValue] gave it; the flags [hadSpaceBefore] and
    [hadSpaceAfter] are those of that token.  [commented] is the node that
    takes the comments that follow it, and [annotations] holds the
    [CommentsInfo] of the nodes, by address. *)
Record State : Type := mkState {
  syntax        : Syntax;
  pending       : token_t;
  scanned       : Token;
  openquote     : string;
  closequote    : string;
  comments      : list string;
  commented     : option N;
  beginningLine : bool;
  annotations   : gmap N Comments
}.

Definition set_syntax (st : State) (s : Syntax) : State :=
  mkState s (pending st) (scanned st) (openquote st) (closequote st)
    (comments st) (commented st) (beginningLine st) (annotations st).

Definition set_pending (st : State) (p : token_t) (line : bool) : State :=
  mkState (syntax st) p (scanned st) (openquote st) (closequote st)
    (comments st) (commented st) line (annotations st).

Definition set_beginningLine (st : State) (line : bool) : State :=
  mkState (syntax st) (pending st) (scanned st) (openquote st)
    (closequote st) (comments st) (commented st) line (annotations st).

Definition set_scanned (st : State) (t : Token) : State :=
  mkState (syntax st) (pending st) t (openquote st) (closequote st)
    (comments st) (commented st) (beginningLine st) (annotations st).

Definition set_quotes (st : State) (opening closing : string) : State :=
  mkState (syntax st) (pending st) (scanned st) opening closing
    (comments st) (commented st) (beginningLine st) (annotations st).

Definition set_commented (st : State) (what : option N) : State :=
  mkState (syntax st) (pending st) (scanned st) (openquote st)
    (closequote st) (comments st) what (beginningLine st) (annotations st).

(** Modelled from the spec: [Parser::AddComment] of parser.h, which puts
    a comment at the end of the list of the comments that no node has
    taken yet. *)
Definition AddComment (st : State) (comment : string) : State :=
  mkState (syntax st) (pending st) (scanned st) (openquote st)
    (closequote st) (comments st ++ [comment]) (commented st)
    (beginningLine st) (annotations st).

(** Add the pending comments to the given tree. *)
Definition AddComments (st : State) (what : N) (before : bool) : State :=
  let cinfo := default ([], []) (annotations st !! what) in
  let cinfo :=
    if before then (comments st, cinfo.2) else (cinfo.1, comments st) in
  mkState (syntax st) (pending st) (scanned st) (openquote st)
    (closequote st) [] (commented st) (beginningLine st)
    (<[what := cinfo]> (annotations st)).

(** If we had comments after a token, add them to that token. *)
Definition comments_after (st : State) : State :=
  match comments st, commented st with
  | _ :: _, Some what =>
      if negb (beginningLine st)
      then set_commented (AddComments st what false) None
      else st
  | _, _ => st
  end.

(** The text of a comment that comes with a new line or an unindent. *)
Definition line_comment (st : State) (t : Token) : State :=
  let opening := TextValue t in
  if negb (text_eqb opening "")
  then comments_after (AddComment st opening)
  else st.

(** The token that [Parse] sees: the kind that [NextToken] returns, with
    what the scanner and the parser answer about it. *)
Definition deliver (st : State) (k : token_t) : Token :=
  let t := scanned st in
  mkToken k (ScanPosition t) (NameValue t) (TextValue t) (TokenText t)
    (IntegerValue t) (RealValue t) (HadSpaceBefore t) (HadSpaceAfter t)
    (openquote st) (closequote st).

(** The end of the loop: a pending new line goes first, and the token
    just read is pushed back. *)
Definition push_back (st : State) (pend result : token_t)
  : Token * State :=
  if negb (bool_decide (pend = tokNONE))
  then (deliver st pend, set_pending st result true)
  else (deliver st result, st).

(** [size_t] is 64 bits wide; with 32 bits, what follows is the same for
    the texts that fit in memory. *)
Definition to_size_t (x : Z) : Z := x mod 2 ^ 64.

(** How a call of [NextToken] ends: it returns a token, with the state
    of the parser and what is left of the input, or it lets through the
    exception [std::out_of_range] of the standard library. *)
Inductive Outcome : Type :=
| Returned (t : Token) (st : State) (rest : Stream)
| out_of_range.

Section NextToken.
Context `{BlockNames} `{SyntaxFiles} `{CommentScanner}.

(** The case of a name or a symbol that is no [syntax] statement, no
    comment and no long text. *)
Definition next_name (st : State) (pend : token_t) (t : Token)
  : Token * State :=
  let opening := NameValue t in
  let s := syntax st in
  (* If the next token has a substatement infix priority, this takes
     over any pending newline.  Example: else *)
  let takes_over :=
    bool_decide (pend = tokNEWLINE)
    && (PrefixPriority s opening =? default_priority s)
    && (InfixPriority s opening <? statement_priority s) in
  let pend := if takes_over then tokNONE else pend in
  let st := if takes_over then set_pending st tokNONE (beginningLine st)
            else st in
  (* All comments after this will be following the token *)
  push_back (set_beginningLine st false) pend (tok t).

(** [longText.erase (longText.length() - cLen, cLen)].  The position is
    a difference of [size_t] values, which wraps around below zero, and
    [erase] throws [std::out_of_range] when its position is past the end
    of the text: [None] is that exception. *)
Definition erase_closing (longText : string) (cLen : Z) : option string :=
  let length := Z.of_nat (String.length longText) in
  let pos := to_size_t (length - cLen) in
  if length <? pos then None
  else Some (String.substring 0 (Z.to_nat pos) longText).

(** The case of a long text between [opening] and [closing]; [None] is
    the exception of [erase]. *)
Definition next_long_text (st : State) (pend : token_t) (t : Token)
    (rest : Stream) (opening closing : string) : option (Token * State) :=
  let longText := Comment rest closing false in
  let cLen := Z.of_nat (String.length closing) in
  match erase_closing longText cLen with
  | None => None
  | Some longText =>
      let st := set_scanned st (SetTextValue t longText) in
      let st := set_quotes st opening closing in
      if bool_decide (pend = tokNEWLINE) then
        Some (deliver st tokNEWLINE,
              set_pending st tokLONGSTRING (beginningLine st))
      else if text_eqb closing newline && bool_decide (pend = tokNONE) then
        Some (deliver st tokLONGSTRING, set_pending st tokNEWLINE true)
      else
        Some (deliver st tokLONGSTRING, set_beginningLine st false)
  end.

(** Return the next token, skipping comments and gathering long text.
    One unit of fuel is spent at each turn of the loop [while (true)];
    [None] is a run that needs more fuel. *)
Fixpoint NextToken (fuel : nat) (st : State) (input : Stream)
  : option Outcome :=
  match fuel with
  | O => None
  | S fuel =>
      let pend := pending st in
      if negb (bool_decide (pend = tokNONE))
         && negb (bool_decide (pend = tokNEWLINE))
      then
        let st := set_pending st tokNONE false in
        Some (Returned (deliver st pend) st input)
      else
        (* Here, there's nothing pending or only a newline *)
        let (t, rest) := Parser.NextToken input in
        let st := set_scanned st t in
        match tok t with
        | tokNAME | tokSYMBOL =>
            let opening := NameValue t in
            if text_eqb opening "syntax" then
              let (s', rest) := ReadSyntaxFile (syntax st) rest 0 in
              NextToken fuel (set_syntax st s') rest
            else
              match IsComment (syntax st) opening with
              | Some closing =>
                  (* Skip comments, keep looking to get the right
                     indentation *)
                  let comment := opening +:+ Comment rest closing true in
                  let st := AddComment st comment in
                  let st :=
                    if text_eqb closing newline
                       && bool_decide (pend = tokNONE)
                    then set_pending (comments_after st) tokNEWLINE true
                    else st in
                  NextToken fuel st rest
              | None =>
                  match IsTextDelimiter (syntax st) opening with
                  | Some closing =>
                      match
                        next_long_text st pend t rest opening closing
                      with
                      | Some (out, st) => Some (Returned out st rest)
                      | None => Some out_of_range
                      end
                  | None =>
                      let (out, st) := next_name st pend t in
                      Some (Returned out st rest)
                  end
              end
        | tokNEWLINE =>
            (* Record actual new-lines and preceding comment; combine
               newline with any previous pending indent *)
            let st := line_comment st t in
            NextToken fuel (set_pending st tokNEWLINE true) rest
        | tokUNINDENT =>
            (* Add newline if what comes next isn't an infix like 'else' *)
            let st := line_comment st t in
            let st := set_pending st tokNEWLINE true in
            Some (Returned (deliver st tokUNINDENT) st rest)
        | tokINDENT =>
            (* If we had a new-line followed by indent, ignore the new
               line *)
            let st := set_pending st tokNONE true in
            Some (Returned (deliver st tokINDENT) st rest)
        | _ =>
            let (out, st) :=
              push_back (set_beginningLine st false) pend (tok t) in
            Some (Returned out st rest)
        end
  end.
End NextToken.

End Lexer.

(* ====================================================================== *)
(** * unit.cpp: the names that are valid for C                            *)
(* ====================================================================== *)

Module Unit.

(** [isalpha] and [isdigit] of <ctype.h>, in the C locale. *)
Definition isalpha (c : Ascii.ascii) : bool :=
  let n := Z.of_nat (Ascii.nat_of_ascii c) in
  (65 <=? n) && (n <=? 90) || (97 <=? n) && (n <=? 122).

Definition isdigit (c : Ascii.ascii) : bool :=
  let n := Z.of_nat (Ascii.nat_of_ascii c) in
  (48 <=? n) && (n <=? 57).

Definition underscore : Ascii.ascii := Ascii.ascii_of_nat 95.

(** [label[i]]: the character at an index, and the terminating zero at
    the index that is the length. *)
Definition char_at (label : string) (i : nat) : Ascii.ascii :=
  default Ascii.zero (String.get i label).

(** The loop over the characters of the label, from index [i], for
    [turns] turns: the answer is false at the first invalid character. *)
Fixpoint valid_chars (label : string) (i turns : nat) : bool :=
  match turns with
  | O => true
  | S turns =>
      let c := char_at label i in
      if negb (isalpha c) && negb (bool_decide (c = underscore))
         && negb (negb (i =? 0)%nat && isdigit c)
      then false
      else valid_chars label (S i) turns
  end.

(** Check if the name is valid for C.  The result is the answer, the
    label, and the message of the error if there is one; the label that
    comes in is the one of the caller, left as it is for a tree that is
    neither a name nor a text. *)
Definition ValidCName (tree : Tree) (label : string)
  : bool * string * option string :=
  let '(label, len) :=
    match tree with
    | Name _ value => (value, to_uint (Z.of_nat (String.length value)))
    | Text _ value _ _ => (value, to_uint (Z.of_nat (String.length value)))
    | _ => (label, 0)
    end in
  if len =? 0 then
    (false, label, Some "No valid C name in $1")
  else
    (* We will NOT call functions beginning with _ (internal functions) *)
    if valid_chars label 0 (Z.to_nat len)
    then (true, label, None)
    else (false, label, Some "C name $1 contains invalid characters").

End Unit.

(* ====================================================================== *)
(** * winglob.cpp: the simulation of [glob] on Windows                    *)
(* ====================================================================== *)

Module WinGlob.

(** The directory service of <windows.h>: the names that
    [FindFirstFileA (dir)] and then [FindNextFileA] answer until the
    latter fails; no name when the handle is invalid. *)
Class FileSystem := {
  FindFiles : string -> list string
}.

Definition backslash : string := String (Ascii.ascii_of_nat 92) "".

(** One of the two characters of ["/\\"]. *)
Definition separator (c : Ascii.ascii) : bool :=
  bool_decide (c = Ascii.ascii_of_nat 47)
  || bool_decide (c = Ascii.ascii_of_nat 92).

(** [pattern.find_first_of ("/\\")]; [None] is [npos]. *)
Fixpoint find_first_of (pattern : string) : option nat :=
  match pattern with
  | EmptyString => None
  | String c rest =>
      if separator c then Some O else S <$> find_first_of rest
  end.

(** Internal variant of glob, where dir is a directory to look into.
    One unit of fuel is spent at each level of the recursion. *)
Fixpoint globinternal `{FileSystem} (fuel : nat) (dir pattern : string)
    (paths : list string) : option (list string) :=
  match fuel with
  | O => None
  | S fuel =>
      (* Transform the regexp into a file-style regexp *)
      let '(subpat, pattern, dirmode) :=
        match find_first_of pattern with
        | Some pos =>
            (String.substring (pos + 1) (String.length pattern - (pos + 1))
               pattern,
             (* [pos - 1] is [npos] when [pos] is zero *)
             String.substring 0
               (if (pos =? 0)%nat then String.length pattern
                else (pos - 1)%nat)
               pattern,
             true)
        | None => ("", pattern, false)
        end in
      (* Open directory *)
      foldl
        (fun paths entry =>
           match paths with
           | Some paths =>
               if dirmode
               then globinternal fuel (dir +:+ backslash +:+ entry) subpat
                      paths
               else Some (paths ++ [entry])%list
           | None => None
           end)
        (Some paths) (FindFiles dir)
  end.

End WinGlob.

(* ====================================================================== *)
(** * Notions used in the statements                                      *)
(* ====================================================================== *)

(** What a pending entry is, up to nodes and positions. *)
Definition pending_shape (prev : Parser.Pending) : string * Shape * Z :=
  (Parser.opcode prev, shape (Parser.argument prev), Parser.priority prev).

(** The loop that flushes the stack, on shapes, for entries that are all
    pending infix operators and while the input goes on. *)
Fixpoint flush_shapes (default_priority priority : Z)
    (stack : list (string * Shape * Z)) (operand : Shape)
  : list (string * Shape * Z) * Shape :=
  match stack with
  | [] => ([], operand)
  | (op, arg, prio) :: below =>
      if negb (prio =? default_priority)
         && (priority >? Parser.clear_low_bit prio)
      then (stack, operand)
      else flush_shapes default_priority priority below (SInfix op arg operand)
  end.

(** The loop that empties the stack at the end, on shapes. *)
Fixpoint drain_shapes (stack : list (string * Shape * Z)) (operand : Shape)
  : Shape :=
  match stack with
  | [] => operand
  | (op, arg, _) :: below => drain_shapes below (SInfix op arg operand)
  end.

(** [CreatePrefix] on shapes: a prefix, but for the unary minus of a
    constant when constants are signed. *)
Definition prefix_shape `{Parser.ParserOptions} (l r : Shape) : Shape :=
  if Parser.signedConstants then
    match l, r with
    | SName value, SInteger iv =>
        if text_eqb value "-" then SInteger (Parser.to_longlong (- iv))
        else SPrefix l r
    | SName value, SReal rv =>
        if text_eqb value "-" then SReal (double_neg rv) else SPrefix l r
    | _, _ => SPrefix l r
    end
  else SPrefix l r.

(** Every pending entry applied in turn to what was read after it, on
    shapes: a pending prefix to its operand, a pending infix operator to
    its two operands. *)
Fixpoint apply_pending `{Parser.ParserOptions}
    (stack : list (string * Shape * Z)) (operand : Shape) : Shape :=
  match stack with
  | [] => operand
  | (op, arg, _) :: below =>
      apply_pending below
        (if text_eqb op Parser.prefix then prefix_shape arg operand
         else SInfix op arg operand)
  end.

(** The best-effort tree of what was read so far, on shapes: the pending
    entries applied to the result; when the input stopped after an
    operator, that operator as a postfix of its left operand (a new line
    is dropped); a null pointer when nothing was read. *)
Definition best_effort `{Parser.ParserOptions} (res : option Shape)
    (stack : list (string * Shape * Z)) : option Shape :=
  match res, stack with
  | Some r, _ => Some (apply_pending stack r)
  | None, [] => None
  | None, (op, arg, _) :: below =>
      Some (apply_pending below
              (if text_eqb op newline then arg
               else SPostfix arg (SName op)))
  end.

(** The parser between two tokens of an infix expression: the shape of
    the partial result, and of the pending infix operators. *)
Definition between (f : Parser.Frame) (res : option Shape)
    (stack : list (string * Shape * Z)) : Prop :=
  shape <$> Parser.result f = res
  /\ Parser.left_ f = None
  /\ pending_shape <$> Parser.stack f = stack
  /\ Forall (fun prev => Parser.opcode prev <> Parser.prefix) (Parser.stack f)
  /\ Parser.done f = false.

(** The condition under which a name after a result is an infix. *)
Definition infix_wins (s : Syntax) (name : string) (before after : bool)
  : Prop :=
  InfixPriority s name <> default_priority s
  /\ (PrefixPriority s name = default_priority s
      \/ before = false \/ after = true).

(** The strength that [Check] ends with, and the candidate it built. *)
Definition final_binding `{Calls.Inference} (calls : Calls.RewriteCalls)
    (scope what : Tree) (candidate : Calls.Rewrite) : Calls.BindingStrength :=
  (Calls.Check_candidate (Calls.types calls) (Calls.heap calls) scope what
     candidate).1.

Definition built_candidate `{Calls.Inference} (calls : Calls.RewriteCalls)
    (scope what : Tree) (candidate : Calls.Rewrite) : Calls.RewriteCandidate :=
  (Calls.Check_candidate (Calls.types calls) (Calls.heap calls) scope what
     candidate).2.

(* ====================================================================== *)
(** * Concrete trees and tables used by the examples                      *)
(* ====================================================================== *)

Definition at_ (a : N) : Node := mkNode a (Z.of_N a) [].

(** The pattern [X : integer when G], as [when] binds weaker than [:]. *)
Definition typed_X : Tree :=
  Infix (at_ 2) ":" (Name (at_ 1) "X") (Name (at_ 3) "integer").

Definition guarded_typed_X : Tree :=
  Infix (at_ 4) "when" typed_X (Name (at_ 5) "G").

(** The pattern [(f X) when G as T] around the form [f X]. *)
Definition f_X : Tree := Prefix (at_ 2) (Name (at_ 1) "f") (Name (at_ 3) "X").

(** A symbol table with no binding and no rewrite. *)
Definition no_symbols : Symbols :=
  {| Bound := fun _ _ => None; hasRewritesForKind := 0 |}.

Definition outer_scope : Tree :=
  Prefix (at_ 10) (Name (at_ 11) "") (Name (at_ 12) "").

Definition closed_scope : Tree :=
  Prefix (at_ 20) outer_scope (Name (at_ 21) "").

Definition current_scope : Tree :=
  Prefix (at_ 30) outer_scope (Name (at_ 31) "").

(** A closure of [x] over [closed_scope]. *)
Definition a_closure : Tree :=
  Prefix (mkNode 40 NOWHERE [ClosureInfo]) closed_scope (Name (at_ 41) "x").

(** Two texts for the sentinels of indentation; any two will do. *)
Definition sentinels : BlockNames :=
  {| Block_indent := "I+"; Block_unindent := "I-" |}.

(** Tables with no entry; default, statement and function priorities. *)
Definition empty_syntax : Syntax :=
  mkSyntax ∅ ∅ ∅ ∅ ∅ ∅ ∅ ∅ ∅ ∅ 0 100 200 "" ∅.

(** No child syntax is ever read. *)
Definition no_files : SyntaxFiles :=
  {| NewChildSyntax := empty_syntax;
     ReadSyntaxFileNamed := fun _ s => s;
     libpath := "" |}.

(** The three tokens of the entry [BLOCK 'open' 'close']. *)
Definition block_entry (opening closing : string) : list Token :=
  [ plain_token tokNAME 0 "BLOCK" false true;
    plain_token tokQUOTE 6 opening true true;
    plain_token tokQUOTE 10 closing true false ].

(** The parser without signed constants. *)
Definition plain_options : Parser.ParserOptions :=
  {| Parser.signedConstants := false |}.

(** Tables where [extern] opens the child syntax of the file [C.syntax],
    which [;] closes. *)
Definition extern_syntax : Syntax :=
  with_subsyntax
    (with_subsyntax_file empty_syntax {[ "extern" := "C.syntax" ]})
    {[ "C.syntax" :=
         with_delimiters (with_filename empty_syntax "C.syntax")
           {[ "extern" := ";" ]} ]}.

(** The locals of [Parse (")")] after [a +], for the tables
    [plus_syntax 310]: nothing as a result, [a +] pending. *)
Definition a_plus_pending : Parser.Frame :=
  Parser.mkFrame None None "+"
    [Parser.mkPending "+" (Name (mkNode 0 0 []) "a") 310 2]
    200 false false "" false.

(** A tree in the place of the null operand of a child syntax. *)
Definition a_null_operand : Parser.NullOperand :=
  {| Parser.null_operand := Name (at_ 0) "" |}.

(** The tokens of [a + b + c], with their spaces. *)
Definition a_plus_b_plus_c : list Token :=
  [ plain_token tokNAME 0 "a" false true;
    plain_token tokSYMBOL 2 "+" true true;
    plain_token tokNAME 4 "b" true true;
    plain_token tokSYMBOL 6 "+" true true;
    plain_token tokNAME 8 "c" true false ].

(** Tables where [+] is an infix operator of priority [p], and nothing
    else is declared. *)
Definition plus_syntax (p : Z) : Syntax :=
  with_infix_priority empty_syntax {[ "+" := p ]}.

(** Tables where [-] is both an infix and a prefix operator. *)
Definition minus_syntax : Syntax :=
  with_prefix_priority (with_infix_priority empty_syntax {[ "-" := 380 ]})
    {[ "-" := 430 ]}.

(** The tokens of [a - b], with spaces on both sides of the operator. *)
Definition a_minus_b : list Token :=
  [ plain_token tokNAME 0 "a" false true;
    plain_token tokSYMBOL 2 "-" true true;
    plain_token tokNAME 4 "b" true false ].

(** The rules [0 is 1] and [0 is 2], and the call [0]. *)
Definition zero_is_one : Calls.Rewrite :=
  Calls.mkRewrite (at_ 21) "is" (Integer (at_ 20) 0) (Integer (at_ 22) 1).

Definition zero_is_two : Calls.Rewrite :=
  Calls.mkRewrite (at_ 31) "is" (Integer (at_ 30) 0) (Integer (at_ 32) 2).

Definition call_zero : Tree := Integer (at_ 40) 0.

Definition call_one : Tree := Integer (at_ 41) 1.

Definition call_N : Tree := Name (at_ 42) "N".

(** A candidate of [0 is 1] before anything is bound. *)
Definition blank_candidate : Calls.RewriteCandidate (H := Calls.Literals) :=
  Calls.mkCandidate (H := Calls.Literals) zero_is_one outer_scope [] [] []
    None tt 100.

(** No candidate found yet. *)
Definition no_calls : Calls.RewriteCalls (H := Calls.Literals) :=
  Calls.mkCalls (H := Calls.Literals) [] tt 100.

(** The pattern [0 when G] and the literal pattern [0]. *)
Definition literal_zero : Tree := Integer (at_ 20) 0.

Definition guarded_zero : Tree :=
  Infix (at_ 50) "when" literal_zero (Name (at_ 51) "G").

(** The bits of 1.5, of a quiet NaN, and of the two zeros. *)
Definition one_and_half : double := 0x3FF8000000000000.

Definition quiet_nan : double := 0x7FF8000000000000.

Definition minus_zero : double := 0x8000000000000000.

(** Two names bound to each other. *)
Definition x_is_y : Symbols :=
  {| Bound := fun _ form =>
       match form with
       | Name _ "x" => Some (Name (mkNode 2 1 []) "y")
       | Name _ "y" => Some (Name (mkNode 1 0 []) "x")
       | _ => None
       end;
     hasRewritesForKind := 0 |}.

(** What [LibPath] does after the extension: the base directory goes in
    front of a name that has no slash. *)
Definition in_directory (base name : string) : string :=
  match String.index 0 "/" name with
  | None => base +:+ name
  | Some _ => name
  end.

(** A name or symbol token that is not the empty text and that opens no
    child syntax. *)
Definition plain_name `{SyntaxFiles} (s : Syntax) (t : Token) : Prop :=
  (tok t = tokNAME \/ tok t = tokSYMBOL)
  /\ NameValue t <> ""
  /\ HasSpecialSyntax s (NameValue t) = None.

(** A token that [Parse] takes as an infix operator after a result. *)
Definition infix_token `{SyntaxFiles} (s : Syntax) (t : Token) : Prop :=
  plain_name s t
  /\ infix_wins s (NameValue t) (HadSpaceBefore t) (HadSpaceAfter t).

(** Tables where [+] and [*] are infix operators. *)
Definition arith_syntax : Syntax :=
  with_infix_priority empty_syntax (<["*" := 330]> {[ "+" := 310 ]}).

(** Tables where the parentheses are a block. *)
Definition paren_syntax : Syntax :=
  with_block_delimiters empty_syntax (<[")" := ""]> {[ "(" := ")" ]}).

(** The tokens on which the loop of [Parse (closing)] stops without a
    message: the closing text itself, the unindent that closes an indent
    block, and the end of the input at top level or in an indent block. *)
Definition expected_end `{BlockNames} (closing : string) (t : Token) : Prop :=
  ((tok t = tokNAME \/ tok t = tokSYMBOL \/ tok t = tokPARCLOSE)
   /\ NameValue t = closing)
  \/ (tok t = tokUNINDENT /\ closing = Block_unindent)
  \/ ((tok t = tokEOF \/ tok t = tokERROR)
      /\ (closing = "" \/ closing = Block_unindent)).

(** The parser with signed constants. *)
Definition signed_options : Parser.ParserOptions :=
  {| Parser.signedConstants := true |}.

(** The state that the calls of [Parse] share only grows: the messages
    already in the sink stay where they are, and the addresses already
    given out are not given again. *)
Definition grows (w w' : Parser.World) : Prop :=
  Parser.errors w `prefix_of` Parser.errors w'
  /\ (Parser.next w <= Parser.next w')%N.

(** What is left of an input is an end of it. *)
Definition consumed (input rest : Stream) : Prop :=
  ahead rest `suffix_of` ahead input
  /\ end_position rest = end_position input
  /\ end_text rest = end_text input.

(** What the nested calls are assumed to do, and [Parse] does. *)
Definition well_behaved
    (P : Syntax -> string -> Parser.World -> Stream ->
         option (option Tree * Parser.World * Stream)) : Prop :=
  forall s closing w input tree w' rest,
    P s closing w input = Some (tree, w', rest) ->
    grows w w' /\ consumed input rest.

(** Every child syntax is kept under the name of its file, as the
    assertion of [HasSpecialSyntax] has it. *)
Definition subsyntax_named (s : Syntax) : Prop :=
  forall (key : string) (child : Syntax),
    subsyntax s !! key = Some child -> filename child = key.

(** Reading a file fills the tables and leaves the name of the file
    alone; a child syntax that has just been made has no name. *)
Definition files_keep_name `{SyntaxFiles} : Prop :=
  filename NewChildSyntax = ""
  /\ forall (f : string) (child : Syntax),
       filename (ReadSyntaxFileNamed f child) = filename child.

(** The tokens that open or close a level of indentation, and the end
    of the input. *)
Definition layout_token (t : Token) : bool :=
  match tok t with
  | tokINDENT | tokPAROPEN | tokUNINDENT | tokPARCLOSE | tokEOF => true
  | _ => false
  end.

(** The two tables of a child syntax file for [C]. *)
Definition syntax_entry (name opening closing : string) : list Token :=
  [ plain_token tokNAME 0 "SYNTAX" false true;
    plain_token tokQUOTE 7 name true true;
    plain_token tokQUOTE 10 opening true true;
    plain_token tokQUOTE 19 closing true false ].

(** What a run of the reader has learnt since the tables [s0]. *)
Definition learnt_since (s0 s : Syntax) : Prop :=
  known_tokens s0 ⊆ known_tokens s
  /\ known_prefixes s0 ⊆ known_prefixes s
  /\ forall t : string,
       t ∈ known_tokens s ->
       t ∈ known_tokens s0
       \/ Forall (fun p => p ∈ known_prefixes s) (proper_prefixes t).

(** A name or a symbol that [NextToken] hands over as it is: no [syntax]
    statement, no opening of a comment or of a long text. *)
Definition ordinary_name (s : Syntax) (t : Token) : Prop :=
  (tok t = tokNAME \/ tok t = tokSYMBOL)
  /\ NameValue t <> "syntax"
  /\ IsComment s (NameValue t) = None
  /\ IsTextDelimiter s (NameValue t) = None.

(** A name that takes over a pending new line: it has no prefix priority
    and an infix priority below the one of statements, as [else] has. *)
Definition takes_over (s : Syntax) (name : string) : bool :=
  (PrefixPriority s name =? default_priority s)
  && (InfixPriority s name <? statement_priority s).

(** A token that is neither a name nor a part of the layout. *)
Definition plain_leaf (t : Token) : Prop :=
  tok t ∈ [tokINTEGER; tokREAL; tokSTRING; tokQUOTE; tokLONGSTRING;
           tokPAROPEN; tokPARCLOSE; tokEOF; tokERROR].

(** A scanner that finds no text in comments. *)
Definition no_comments : Lexer.CommentScanner :=
  {| Lexer.Comment := fun _ _ _ => "" |}.

(** The parser before its first token, on given tables. *)
Definition first_state (s : Syntax) : Lexer.State :=
  Lexer.mkState s tokNONE (plain_token tokNONE 0 "" false false) "" "" []
    None true ∅.



(** Tables where [else] is an infix operator below the statements. *)
Definition else_syntax : Syntax :=
  with_infix_priority empty_syntax {[ "else" := 25 ]}.

(** The token is a name or a symbol that takes over a pending new line. *)
Definition joins_previous_line (s : Syntax) (t : Token) : bool :=
  (bool_decide (tok t = tokNAME) || bool_decide (tok t = tokSYMBOL))
  && takes_over s (NameValue t).

(** The candidate [rc'] is [rc] after some more work of the binder: the
    same rewrite, scope and type, and lists that start with those of
    [rc]. *)
Definition carries_on `{Calls.Inference} (rc rc' : Calls.RewriteCandidate)
  : Prop :=
  Calls.rewrite rc' = Calls.rewrite rc
  /\ Calls.scope rc' = Calls.scope rc
  /\ Calls.type rc' = Calls.type rc
  /\ Calls.bindings rc `prefix_of` Calls.bindings rc'
  /\ Calls.conditions rc `prefix_of` Calls.conditions rc'
  /\ Calls.kinds rc `prefix_of` Calls.kinds rc'
  /\ (Calls.next rc <= Calls.next rc')%N.

(** The candidate of [0 is 1] after the guard of [0 when G] was bound. *)
Definition guarded_candidate : Calls.RewriteCandidate (H := Calls.Literals) :=
  (Calls.Bind (H := Calls.Literals) blank_candidate guarded_zero call_zero).2.

(** The parameter [X : integer]. *)
Definition X_integer : Tree :=
  Infix (at_ 60) ":" (Name (at_ 61) "X")
    (Calls.integer_type (Inference := Calls.Literals)).

(** An identifier of C: a letter or an underscore, then letters, digits
    and underscores. *)
Definition identifier_start (c : Ascii.ascii) : bool :=
  Unit.isalpha c || bool_decide (c = Unit.underscore).

Definition identifier_char (c : Ascii.ascii) : bool :=
  identifier_start c || Unit.isdigit c.

Fixpoint identifier_tail (name : string) : bool :=
  match name with
  | EmptyString => true
  | String c rest => identifier_char c && identifier_tail rest
  end.

Definition c_identifier (name : string) : bool :=
  match name with
  | EmptyString => false
  | String c rest => identifier_start c && identifier_tail rest
  end.

(** The number of separators of a pattern. *)
Fixpoint separators (pattern : string) : nat :=
  match pattern with
  | EmptyString => O
  | String c rest =>
      ((if WinGlob.separator c then 1 else 0) + separators rest)%nat
  end.

(** Every entry found [levels] directories below [dir]. *)
Fixpoint entries_below `{WinGlob.FileSystem} (levels : nat) (dir : string)
    (paths : list string) : list string :=
  match levels with
  | O => (paths ++ WinGlob.FindFiles dir)%list
  | S levels =>
      foldl
        (fun paths entry =>
           entries_below levels (dir +:+ WinGlob.backslash +:+ entry) paths)
        paths (WinGlob.FindFiles dir)
  end.

(** A disk with two directories of two files each. *)
Definition two_by_two : WinGlob.FileSystem :=
  {| WinGlob.FindFiles := fun dir =>
       if text_eqb dir "" then ["a"; "b"]
       else [dir +:+ ".xl"; dir +:+ ".txt"] |}.

(* ====================================================================== *)
(** * Properties of [RewriteDefined]                                      *)
(* ====================================================================== *)

Lemma text_eqb_true (a b : string) : text_eqb a b = true <-> a = b.
Proof. unfold text_eqb. apply bool_decide_eq_true. Qed.

Lemma text_eqb_false (a b : string) : text_eqb a b = false <-> a <> b.
Proof. unfold text_eqb. apply bool_decide_eq_false. Qed.

Lemma text_eqb_refl (a : string) : text_eqb a a = true.
Proof. by apply text_eqb_true. Qed.

(** Case analysis on every comparison of texts in the goal. *)
Ltac text_cases :=
  unfold text_eqb in *; simpl in *;
  repeat (case_bool_decide; simplify_eq; simpl in *; try done);
  try done.

(** The source runs three tests in a row; each removes one layer. *)
Lemma RewriteDefined_bare (form : Tree) :
  bare_form form = true -> RewriteDefined form = form.
Proof.
  destruct form; simpl; try done.
  intros Hbare. unfold RewriteDefined. text_cases.
Qed.

(** C6, as stated, fails: on [X : integer when G] the guard is removed but
    the type annotation stays, whereas the defined form is [X]. *)
Lemma RewriteDefined_keeps_type_under_guard :
  RewriteDefined guarded_typed_X = typed_X
  /\ DefinedForm guarded_typed_X = Name (at_ 1) "X"
  /\ RewriteDefined guarded_typed_X <> DefinedForm guarded_typed_X.
Proof. repeat split. discriminate. Qed.

(** C6, amended: [RewriteDefined] removes at most one type annotation
    ([as] or [:]), then at most one guard ([when]), then at most one
    block, in this order from the outside.  Hence every pattern made of a
    bare form, optionally in a block, optionally guarded, optionally
    typed, is mapped back to the bare form. *)
Theorem RewriteDefined_strips_layers
    (form : Tree) (b : option (Node * string * string))
    (g : option (Node * Tree)) (t : option (Node * bool * Tree)) :
  bare_form form = true ->
  RewriteDefined (typed t (guarded g (in_block b form))) = form.
Proof.
  intros Hbare.
  destruct t as [[[nt colon] ty]|], g as [[ng cond]|], b as [[[nb o] c]|];
    simpl; try (by apply RewriteDefined_bare);
    try destruct colon; unfold RewriteDefined; simpl;
    text_cases; destruct form; simpl in *; text_cases.
Qed.

Lemma RewriteDefined_strips_layers_witness :
  bare_form f_X = true
  /\ RewriteDefined
       (typed (Some (at_ 8, false, Name (at_ 9) "T"))
          (guarded (Some (at_ 6, Name (at_ 7) "G"))
             (in_block (Some (at_ 4, "(", ")")) f_X))) = f_X.
Proof.
  split; [reflexivity |].
  apply (RewriteDefined_strips_layers f_X); reflexivity.
Defined.

(* ====================================================================== *)
(** * Properties of [Context::Rehash]                                     *)
(* ====================================================================== *)

(** Bits of a word above its width are zero. *)
Lemma testbit_above (bits h n : Z) :
  0 <= h < 2 ^ bits -> bits <= n -> Z.testbit h n = false.
Proof.
  intros Hh Hn.
  assert (0 <= bits).
  { destruct (Z.le_gt_cases 0 bits) as [|Hneg]; [done |].
    rewrite Z.pow_neg_r in Hh by lia. lia. }
  rewrite <- (Z.mod_small h (2 ^ bits)) by done.
  apply Z.mod_pow2_bits_high. lia.
Qed.

Lemma Rehash_ILP32_bits (h n : Z) :
  0 <= h < 2 ^ 32 -> 0 <= n ->
  Z.testbit (Rehash 32 h) n =
    if n <? 31 then Z.testbit h (n + 1)
    else if n =? 31 then Z.testbit h 0 else false.
Proof.
  intros Hh Hn. unfold Rehash, ulong_wrap.
  rewrite Z.lor_spec, Z.shiftr_spec by lia.
  destruct (n <? 31) eqn:E1; [apply Z.ltb_lt in E1 | apply Z.ltb_ge in E1].
  - rewrite Z.mod_pow2_bits_low, Z.shiftl_spec by lia.
    rewrite (Z.testbit_neg_r h (n - 31)) by lia. apply orb_false_r.
  - rewrite (testbit_above 32 h (n + 1)) by lia. simpl.
    destruct (n =? 31) eqn:E2; [apply Z.eqb_eq in E2 | apply Z.eqb_neq in E2].
    + subst n. rewrite Z.mod_pow2_bits_low, Z.shiftl_spec by lia. done.
    + apply Z.mod_pow2_bits_high. lia.
Qed.

Lemma Rehash_ILP32_range (h : Z) :
  0 <= h < 2 ^ 32 -> 0 <= Rehash 32 h < 2 ^ 32.
Proof.
  intros Hh. unfold Rehash, ulong_wrap.
  assert (0 <= Z.shiftr h 1 < 2 ^ 32).
  { rewrite Z.shiftr_div_pow2 by lia. change (2 ^ 1) with 2.
    split; [apply Z.div_pos; lia |].
    apply Z.div_lt_upper_bound; lia. }
  assert (0 <= Z.shiftl h 31 mod 2 ^ 32 < 2 ^ 32)
    by (apply Z.mod_pos_bound; lia).
  set (low := Z.shiftr h 1) in *.
  set (high := Z.shiftl h 31 mod 2 ^ 32) in *.
  assert (0 <= Z.lor low high) by (apply Z.lor_nonneg; lia).
  split; [done |].
  destruct (Z.eq_dec (Z.lor low high) 0) as [-> | Hne]; [lia |].
  apply Z.log2_lt_pow2; [lia |].
  rewrite Z.log2_lor by lia.
  apply Z.max_lub_lt.
  - destruct (Z.eq_dec low 0) as [-> |]; [simpl; lia |].
    apply Z.log2_lt_pow2; lia.
  - destruct (Z.eq_dec high 0) as [-> |]; [simpl; lia |].
    apply Z.log2_lt_pow2; lia.
Qed.

Lemma rotate_left1_ILP32_bits (x n : Z) :
  0 <= x < 2 ^ 32 -> 0 <= n ->
  Z.testbit (rotate_left1 32 x) n =
    if n =? 0 then Z.testbit x 31
    else if n <? 32 then Z.testbit x (n - 1) else false.
Proof.
  intros Hx Hn. unfold rotate_left1, ulong_wrap.
  change (32 - 1) with 31.
  rewrite Z.lor_spec, Z.shiftr_spec by lia.
  destruct (n =? 0) eqn:E0; [apply Z.eqb_eq in E0 | apply Z.eqb_neq in E0].
  - subst n. rewrite Z.mod_pow2_bits_low, Z.shiftl_spec by lia.
    rewrite (Z.testbit_neg_r x (0 - 1)) by lia. done.
  - rewrite (testbit_above 32 x (n + 31)) by lia. rewrite orb_false_r.
    destruct (n <? 32) eqn:E1; [apply Z.ltb_lt in E1 | apply Z.ltb_ge in E1].
    + rewrite Z.mod_pow2_bits_low, Z.shiftl_spec by lia. done.
    + apply Z.mod_pow2_bits_high. lia.
Qed.

(** On a 32-bit [ulong] the code is the rotation, and the rotation to the
    left undoes it. *)
Lemma Rehash_ILP32_is_rotation (h : Z) : Rehash 32 h = rotate_right1 32 h.
Proof. reflexivity. Qed.

Lemma Rehash_ILP32_inverse (h : Z) :
  0 <= h < 2 ^ 32 -> rotate_left1 32 (Rehash 32 h) = h.
Proof.
  intros Hh. apply Z.bits_inj'. intros n Hn.
  rewrite rotate_left1_ILP32_bits by (auto using Rehash_ILP32_range).
  destruct (n =? 0) eqn:E0; [apply Z.eqb_eq in E0 | apply Z.eqb_neq in E0].
  - subst. rewrite Rehash_ILP32_bits by lia. done.
  - destruct (n <? 32) eqn:E1; [apply Z.ltb_lt in E1 | apply Z.ltb_ge in E1].
    + rewrite Rehash_ILP32_bits by lia.
      destruct (n - 1 <? 31) eqn:E2; [| apply Z.ltb_ge in E2; lia].
      f_equal. lia.
    + symmetry. by apply (testbit_above 32).
Qed.

Lemma Rehash_ILP32_injective (h1 h2 : Z) :
  0 <= h1 < 2 ^ 32 -> 0 <= h2 < 2 ^ 32 ->
  Rehash 32 h1 = Rehash 32 h2 -> h1 = h2.
Proof.
  intros H1 H2 Heq.
  rewrite <- (Rehash_ILP32_inverse h1), <- (Rehash_ILP32_inverse h2) by done.
  by rewrite Heq.
Qed.

(** On a 32-bit [ulong], the level [k] of the rewrite tree branches on
    the bit [k] of the hash, for the 32 first levels. *)
Lemma Rehash_ILP32_levels (k : nat) :
  forall (h n : Z),
  0 <= h < 2 ^ 32 -> 0 <= n -> n + Z.of_nat k < 32 ->
  0 <= Nat.iter k (Rehash 32) h < 2 ^ 32
  /\ Z.testbit (Nat.iter k (Rehash 32) h) n = Z.testbit h (n + Z.of_nat k).
Proof.
  induction k as [| k IH]; intros h n Hh Hn Hk.
  - simpl. split; [done |]. f_equal. lia.
  - destruct (IH h (n + 1) Hh ltac:(lia) ltac:(lia)) as [Hrange Hbit].
    simpl. split; [by apply Rehash_ILP32_range |].
    rewrite Rehash_ILP32_bits by done.
    destruct (n <? 31) eqn:E; [| apply Z.ltb_ge in E; lia].
    rewrite Hbit. f_equal. lia.
Qed.

Lemma hash_path_ILP32 (d : nat) :
  forall (k : nat) (h : Z),
  0 <= h < 2 ^ 32 -> (k + d <= 32)%nat ->
  hash_path 32 d (Nat.iter k (Rehash 32) h)
  = map (fun i => Z.testbit h (Z.of_nat i)) (seq k d).
Proof.
  induction d as [| d IH]; intros k h Hh Hk; [done |].
  simpl. f_equal.
  - unfold hash_branch. rewrite <- Z.bit0_odd.
    by apply Rehash_ILP32_levels; [| | lia].
  - apply (IH (S k) h Hh). lia.
Qed.

(** C7: on a target where [unsigned long] has 64 bits the code is not the
    rotation and not injective: 1 is sent to 2^31, where the rotation
    gives 2^63; 2^32 and 2^32 + 1 are both sent to 2^63 + 2^31, where the
    rotation of 2^32 is 2^31.  The constant 31 fits a word of 32 bits
    only. *)
Lemma Rehash_LP64_collision :
  Rehash 64 1 = 2 ^ 31
  /\ rotate_right1 64 1 = 2 ^ 63
  /\ Rehash 64 (2 ^ 32) = 2 ^ 63 + 2 ^ 31
  /\ Rehash 64 (2 ^ 32 + 1) = 2 ^ 63 + 2 ^ 31
  /\ rotate_right1 64 (2 ^ 32) = 2 ^ 31
  /\ 2 ^ 32 <> 2 ^ 32 + 1.
Proof. repeat split; vm_compute; congruence. Qed.

(* ====================================================================== *)
(** * Properties of [Interpreter::MakeClosure]                          *)
(* ====================================================================== *)

Lemma marked_closure_spec (value : Tree) :
  marked_closure value = true ->
  Kind value = PREFIX /\ HasClosureInfo value = true.
Proof.
  unfold marked_closure. intros [Hk Hc]%andb_prop. split; [| done].
  by destruct value.
Qed.

Lemma MakeClosure_marked `{Symbols} (fuel : nat) (next : N)
    (context : Context) (value : Tree) :
  marked_closure value = true ->
  MakeClosure (S fuel) next context value = Some (value, next).
Proof.
  intros [Hk Hc]%marked_closure_spec. simpl. rewrite Hk. simpl.
  unfold wrap_value. rewrite Hc. reflexivity.
Qed.

Lemma wrap_value_marked (next : N) (context : Context) (value : Tree) :
  marked_closure (fst (wrap_value next context (Kind value) value)) = true.
Proof.
  unfold wrap_value, marked_closure.
  destruct (kind_eqb (Kind value) PREFIX) eqn:Hk; simpl; [| done].
  destruct (HasClosureInfo value) eqn:Hc; simpl; [| done].
  by rewrite Hk, Hc.
Qed.

Lemma MakeClosure_stable `{Symbols} (fuel : nat) :
  forall (next : N) (context : Context) (value result : Tree) (next' : N),
  MakeClosure fuel next context value = Some (result, next') ->
  forall (fuel' : nat) (next'' : N) (context' : Context),
  MakeClosure (S fuel') next'' context' result = Some (result, next'').
Proof.
  induction fuel as [| fuel IH]; intros next context value result next' Hrun;
    [discriminate |].
  simpl in Hrun.
  assert (Hwrap : forall c,
    Some (wrap_value next c (Kind value) value) = Some (result, next') ->
    forall fuel' next'' context',
      MakeClosure (S fuel') next'' context' result = Some (result, next'')).
  { intros c Heq fuel' next'' context'. apply MakeClosure_marked.
    pose proof (wrap_value_marked next c value) as Hm.
    injection Heq as Heq. by rewrite Heq in Hm. }
  destruct ((3 <=? kind_rank (Kind value))
            || HasRewritesFor (Kind value)) eqn:Hgate.
  - destruct (if kind_eqb (Kind value) NAME then Bound context value else None)
      as [bound |]; [| eapply Hwrap, Hrun].
    destruct (IsClosure bound) as [[inside context1] |].
    + destruct (negb (same_tree value inside)); [eapply IH, Hrun |].
      destruct (negb (same_tree value bound)); [eapply IH, Hrun |].
      eapply Hwrap, Hrun.
    + destruct (negb (same_tree value bound)); [eapply IH, Hrun |].
      eapply Hwrap, Hrun.
  - injection Hrun as -> ->. intros fuel' next'' context'.
    simpl. by rewrite Hgate.
Qed.

(** C4, amended: [MakeClosure] of a value that is already a closure (a
    prefix marked with [ClosureInfo]) returns that very closure, whatever
    the current scope, and allocates nothing; and wrapping is idempotent:
    what [MakeClosure] returns, [MakeClosure] returns unchanged in every
    context. *)
Theorem MakeClosure_closure_unchanged `{Symbols} :
  (forall (fuel : nat) (next : N) (context : Context) (value : Tree),
     marked_closure value = true ->
     MakeClosure (S fuel) next context value = Some (value, next))
  /\ (forall (fuel : nat) (next : N) (context : Context)
        (value result : Tree) (next' : N),
        MakeClosure fuel next context value = Some (result, next') ->
        forall (fuel' : nat) (next'' : N) (context' : Context),
        MakeClosure (S fuel') next'' context' result = Some (result, next'')).
Proof.
  split.
  - intros. by apply MakeClosure_marked.
  - intros fuel. apply MakeClosure_stable.
Qed.

Lemma MakeClosure_closure_unchanged_witness :
  marked_closure a_closure = true
  /\ MakeClosure (H := no_symbols) 1 100 (mkContext current_scope) a_closure
     = Some (a_closure, 100%N)
  /\ MakeClosure (H := no_symbols) 1 7 (mkContext current_scope)
       (Name (at_ 41) "x")
     = Some (Prefix (mkNode 7 NOWHERE [ClosureInfo]) current_scope
               (Name (at_ 41) "x"), 8%N)
  /\ MakeClosure (H := no_symbols) 3 50 (mkContext closed_scope)
       (Prefix (mkNode 7 NOWHERE [ClosureInfo]) current_scope
          (Name (at_ 41) "x"))
     = Some (Prefix (mkNode 7 NOWHERE [ClosureInfo]) current_scope
               (Name (at_ 41) "x"), 50%N).
Proof.
  destruct (MakeClosure_closure_unchanged (H := no_symbols)) as [Hkeep Hidem].
  split; [reflexivity |].
  split; [apply Hkeep; reflexivity |].
  split; [reflexivity |].
  apply (Hidem 1%nat 7%N (mkContext current_scope) (Name (at_ 41) "x") _ 8%N).
  reflexivity.
Defined.

(** C4, as stated, fails: a closure over another scope than the current
    one is not wrapped again over the current scope; it is returned as it
    is.  No scope is compared anywhere in [MakeClosure]. *)
Lemma MakeClosure_keeps_closure_of_other_scope :
  same_tree closed_scope current_scope = false
  /\ MakeClosure (H := no_symbols) 1 100 (mkContext current_scope) a_closure
     = Some (a_closure, 100%N)
  /\ CloseAgain 100 (mkContext current_scope) a_closure
     = (Prefix (mkNode 100 NOWHERE [ClosureInfo]) current_scope
          (Name (at_ 41) "x"), 101%N)
  /\ Some (CloseAgain 100 (mkContext current_scope) a_closure)
     <> MakeClosure (H := no_symbols) 1 100 (mkContext current_scope) a_closure.
Proof. repeat split. discriminate. Qed.

(* ====================================================================== *)
(** * Properties of [Syntax::ReadSyntaxFile]                            *)
(* ====================================================================== *)

Section ReaderFacts.
Context `{BlockNames} `{SyntaxFiles}.

Lemma read_text_entry (r : Reader) (txt : string) :
  section_keyword (entry_text txt) = false ->
  read_text r txt = read_entry r (entry_text txt).
Proof.
  unfold section_keyword, read_text. intros Hkw%bool_decide_eq_false.
  generalize dependent (entry_text txt). intros e Hkw.
  repeat (rewrite (proj2 (text_eqb_false e _));
          [| intros ->; apply Hkw; set_solver]).
  reflexivity.
Qed.

Lemma read_text_BLOCK (r : Reader) :
  read_text r "BLOCK" = set_state r inBlock.
Proof. reflexivity. Qed.

(** A text token is learnt or not, then handled by [read_text]; learning
    touches the sets of known tokens only. *)
Lemma read_token_text (r : Reader) (t : Token) :
  text_token t = true ->
  exists s' : Syntax,
    read_token r t = read_text (set_syntax r s') (TextValue t)
    /\ block_delimiters s' = block_delimiters (syntax r)
    /\ infix_priority s' = infix_priority (syntax r).
Proof.
  unfold text_token, read_token. intros Ht.
  destruct (tok t); try discriminate;
    try (destruct (state_rank inComment <=? state_rank (state r)));
    first [ by exists (learn_token (syntax r) (TextValue t))
          | exists (syntax r); by destruct r ].
Qed.

(** C10, amended: after the three tokens of an entry [BLOCK a b] (a and
    b being no keyword), the closing delimiter b is mapped to the empty
    text in [block_delimiters], so [IsBlock] reports it as an opening
    with an empty closing; the opening a is mapped to b when a and b
    differ (when they are the same text, the entry of b overwrites it);
    both a and b have the current priority in [infix_priority]; and the
    reader is ready for the next entry of the section. *)
Theorem ReadSyntaxFile_block_entry (r : Reader) (tB ta tb : Token) :
  text_token tB = true -> TextValue tB = "BLOCK" ->
  text_token ta = true -> text_token tb = true ->
  section_keyword (entry_text (TextValue ta)) = false ->
  section_keyword (entry_text (TextValue tb)) = false ->
  let a := entry_text (TextValue ta) in
  let b := entry_text (TextValue tb) in
  let r' := read_token (read_token (read_token r tB) ta) tb in
  block_delimiters (syntax r') !! a
  = Some (if bool_decide (a = b) then "" else b)
  /\ block_delimiters (syntax r') !! b = Some ""
  /\ IsBlock (syntax r') b = Some ""
  /\ infix_priority (syntax r') !! a = Some (priority r)
  /\ infix_priority (syntax r') !! b = Some (priority r)
  /\ state r' = inBlock.
Proof.
  intros HB HBt Ha Hb Hka Hkb a b r'. subst r'.
  destruct (read_token_text r tB HB) as (s0 & -> & _ & _).
  rewrite HBt, read_text_BLOCK.
  destruct (read_token_text (set_state (set_syntax r s0) inBlock) ta Ha)
    as (s1 & -> & _ & _).
  rewrite read_text_entry by done. fold a.
  destruct (read_token_text
              (read_entry
                 (set_syntax (set_state (set_syntax r s0) inBlock) s1) a)
              tb Hb) as (s2 & -> & Hd & Hp).
  rewrite read_text_entry by done. fold b.
  simpl in Hd, Hp. simpl. unfold IsBlock. simpl. rewrite Hd, Hp.
  repeat split.
  - case_bool_decide as Hab.
    + rewrite Hab. apply lookup_insert_eq.
    + rewrite lookup_insert_ne by done. apply lookup_insert_eq.
  - apply lookup_insert_eq.
  - apply lookup_insert_eq.
  - destruct (decide (a = b)) as [Hab | Hab].
    + rewrite Hab. apply lookup_insert_eq.
    + rewrite lookup_insert_ne by done. apply lookup_insert_eq.
  - apply lookup_insert_eq.
Qed.
End ReaderFacts.

Lemma ReadSyntaxFile_block_entry_witness :
  let tB := plain_token tokNAME 0 "BLOCK" false true in
  let ta := plain_token tokQUOTE 6 "(" true true in
  let tb := plain_token tokQUOTE 10 ")" true false in
  let r' :=
    read_token (H := sentinels) (H0 := no_files)
      (read_token (H := sentinels) (H0 := no_files)
         (read_token (H := sentinels) (H0 := no_files)
            (set_priority (new_reader empty_syntax 0) 400) tB) ta) tb in
  (text_token tB = true /\ text_token ta = true /\ text_token tb = true
   /\ section_keyword "(" = false /\ section_keyword ")" = false)
  /\ block_delimiters (syntax r') !! "(" = Some ")"
  /\ block_delimiters (syntax r') !! ")" = Some ""
  /\ IsBlock (syntax r') ")" = Some ""
  /\ infix_priority (syntax r') !! "(" = Some 400
  /\ infix_priority (syntax r') !! ")" = Some 400
  /\ state r' = inBlock.
Proof.
  split; [by repeat split |].
  exact (ReadSyntaxFile_block_entry (H := sentinels) (H0 := no_files)
           (set_priority (new_reader empty_syntax 0) 400)
           (plain_token tokNAME 0 "BLOCK" false true)
           (plain_token tokQUOTE 6 "(" true true)
           (plain_token tokQUOTE 10 ")" true false)
           eq_refl eq_refl eq_refl eq_refl eq_refl eq_refl).
Defined.

(** C10, as stated, fails when the two delimiters are the same text: after
    [BLOCK '|' '|'] the table maps [|] to the empty text, not to [|]. *)
Lemma ReadSyntaxFile_same_delimiters :
  let s := fst (ReadSyntaxFile (H := sentinels) (H0 := no_files) empty_syntax
                  (mkStream (block_entry "|" "|") 13 "") 0) in
  block_delimiters s !! "|" = Some ""
  /\ block_delimiters s !! "|" <> Some "|"
  /\ IsBlock s "|" = Some "".
Proof. repeat split; vm_compute; congruence. Qed.

(* ====================================================================== *)
(** * Properties of [Parser::Parse]: errors                             *)
(* ====================================================================== *)

Section ParserErrors.
Import Parser.
Context `{BlockNames} `{SyntaxFiles} `{ParserOptions} `{NullOperand}.

(** Building nodes never touches the error sink. *)
Lemma CreatePrefix_errors (w : World) (l r : Tree) (pos : TreePosition) :
  errors (CreatePrefix w l r pos).2 = errors w.
Proof.
  unfold CreatePrefix. destruct signedConstants; [| done].
  destruct l; try done. destruct (text_eqb value "-"); [| done].
  by destruct r.
Qed.

Lemma unstack_errors (w : World) (prev : Pending) (operand : Tree) :
  errors (unstack w prev operand).2 = errors w.
Proof.
  unfold unstack. destruct (text_eqb (opcode prev) prefix); [| done].
  apply CreatePrefix_errors.
Qed.

Lemma flush_errors (d : bool) (dflt p : Z) (stack : list Pending) :
  forall (w : World) (operand : Tree),
  errors (flush d dflt p w stack operand).2 = errors w.
Proof.
  induction stack as [| prev below IH]; intros w operand; simpl; [done |].
  destruct (stays d dflt p prev); [done |].
  pose proof (unstack_errors w prev operand) as Hu.
  destruct (unstack w prev operand) as [operand' w']. simpl in Hu.
  by rewrite IH.
Qed.

Lemma drain_errors (stack : list Pending) :
  forall (w : World) (operand : Tree),
  errors (drain w stack operand).2 = errors w.
Proof.
  induction stack as [| prev below IH]; intros w operand; simpl; [done |].
  pose proof (unstack_errors w prev operand) as Hu.
  destruct (unstack w prev operand) as [operand' w']. simpl in Hu.
  by rewrite IH.
Qed.

Lemma finish_errors (f : Frame) (w : World) :
  errors (finish f w).2 = errors w.
Proof.
  unfold finish. destruct (stack f) as [| last below] eqn:Hs; [done |].
  destruct (result f) as [res |].
  - pose proof (drain_errors (last :: below) w res) as Hd.
    by destruct (drain w (last :: below) res).
  - destruct (negb (text_eqb (opcode last) newline)); simpl.
    + match goal with |- context [drain ?w0 below ?o] =>
        pose proof (drain_errors below w0 o) as Hd;
        destruct (drain w0 below o) end.
      done.
    + pose proof (drain_errors below w (argument last)) as Hd.
      by destruct (drain w below (argument last)).
Qed.

(** The update of the result keeps the flag [done] and the error sink. *)
Lemma advance_done_errors (s : Syntax) (sc : Scanned) (pos : TreePosition) :
  done (advance s sc pos).1 = done (frame sc)
  /\ errors (advance s sc pos).2 = errors (world sc).
Proof.
  unfold advance.
  destruct (result (frame sc)) as [res |], (left_ (frame sc)) as [l |],
    (right_ sc) as [r |]; simpl.
  all: repeat match goal with
    | |- context [flush ?d ?dp ?p ?w ?st ?o] =>
        pose proof (flush_errors d dp p st w o);
        destruct (flush d dp p w st o) as [[? ?] ?]; simpl in *
    | |- context [if ?c then _ else _] => destruct c; simpl in *
    end.
  all: done.
Qed.

(** A turn that sets [done] ends the loop. *)
Lemma parse_loop_last (fuel : nat) (s : Syntax) (closing : string)
    (f f' : Frame) (w w' : World) (input rest : Stream) :
  turn (parse_with (parse_loop fuel)) s closing f w input
    = Some (f', w', rest) ->
  done f' = true ->
  parse_loop (S fuel) s closing f w input = Some (f', w', rest).
Proof. intros Hturn Hdone. simpl. by rewrite Hturn, Hdone. Qed.

(** A turn on a token that only reports and stops. *)
Lemma turn_stop P (s : Syntax) (closing : string) (f : Frame) (w w1 : World)
    (input : Stream) :
  scan P s closing f w (NextToken input).1 (NextToken input).2
    = Some (mkScanned (set_done f) w1 (NextToken input).2 None
              (default_priority s) (default_priority s)) ->
  exists f' w',
    turn P s closing f w input = Some (f', w', (NextToken input).2)
    /\ done f' = true /\ errors w' = errors w1.
Proof.
  intros Hscan. unfold turn.
  destruct (NextToken input) as [t rest]. simpl in *. rewrite Hscan.
  match goal with |- context [advance s ?sc ?pos] =>
    destruct (advance_done_errors s sc pos) as [Hd He];
    destruct (advance s sc pos) as [f' w'] end.
  exists f', w'. by repeat split.
Qed.

(** The trees that the code after the loop builds, on shapes. *)
Lemma CreatePrefix_prefix_shape (w : World) (l r : Tree) (pos : TreePosition) :
  shape (CreatePrefix w l r pos).1 = prefix_shape (shape l) (shape r).
Proof.
  unfold CreatePrefix, prefix_shape. destruct signedConstants.
  - destruct l; try done; destruct r; simpl; try done;
      by destruct (text_eqb _ "-").
  - done.
Qed.

Lemma drain_apply_pending (stack : list Pending) :
  forall (w : World) (operand : Tree),
  shape (drain w stack operand).1
  = apply_pending (pending_shape <$> stack) (shape operand).
Proof.
  induction stack as [| prev below IH]; intros w operand; [done |].
  cbn [drain fmap list_fmap apply_pending]. unfold pending_shape at 1.
  assert (Hu : shape (unstack w prev operand).1
               = if text_eqb (opcode prev) prefix
                 then prefix_shape (shape (argument prev)) (shape operand)
                 else SInfix (opcode prev) (shape (argument prev))
                        (shape operand)).
  { unfold unstack. destruct (text_eqb (opcode prev) prefix).
    - apply CreatePrefix_prefix_shape.
    - done. }
  destruct (unstack w prev operand) as [operand' w']. simpl in Hu.
  rewrite <- Hu. apply IH.
Qed.

Lemma finish_best_effort (f : Frame) (w : World) :
  shape <$> (finish f w).1
  = best_effort (shape <$> result f) (pending_shape <$> stack f).
Proof.
  unfold finish, best_effort.
  destruct (stack f) as [| last below]; [by destruct (result f) |].
  destruct (result f) as [res |].
  - pose proof (drain_apply_pending (last :: below) w res) as Hd.
    destruct (drain w (last :: below) res) as [t w']. simpl in *.
    by rewrite Hd.
  - cbn [fmap option_fmap option_map list_fmap]. unfold pending_shape at 1.
    destruct (text_eqb (opcode last) newline); simpl.
    + pose proof (drain_apply_pending below w (argument last)) as Hd.
      destruct (drain w below (argument last)) as [t w']. simpl in *.
      by rewrite Hd.
    + match goal with |- context [drain ?w0 below ?o] =>
        pose proof (drain_apply_pending below w0 o) as Hd;
        destruct (drain w0 below o) as [t w'] end.
      simpl in *. by rewrite Hd.
Qed.

(** A turn on a token that stops the loop, between two operands: the
    result and the stack are left to the code after the loop. *)
Lemma advance_stop (s : Syntax) (f : Frame) (w : World) (rest : Stream)
    (pos : TreePosition) (pp ip : Z) :
  left_ f = None ->
  let f' := (advance s (mkScanned (set_done f) w rest None pp ip) pos).1 in
  result f' = result f /\ stack f' = stack f.
Proof.
  intros Hleft. unfold advance. simpl. rewrite Hleft.
  destruct (result f) eqn:Hres; simpl; by rewrite ?Hres.
Qed.

(** C9: when the loop of [Parse (closing)] meets the end of the input (or
    an error token) while a closing delimiter other than the unindent
    sentinel is expected, or a closing parenthesis whose text is not the
    expected closing delimiter, it appends one [Error] to the sink and
    leaves the loop at once; [Parse] then returns, the sink being left as
    it is, the best-effort tree of what was read so far: the pending
    operators applied to the result, a pending operator that nothing
    follows as a postfix, a null pointer when nothing was read.  The
    tree is given for the states the loop is in between two tokens, where
    the local [left] is null. *)
Theorem Parse_reports_and_returns (fuel : nat) (s : Syntax) (closing : string)
    (f : Frame) (w : World) (input : Stream) :
  let t := (NextToken input).1 in
  let rest := (NextToken input).2 in
  let returns (e : Error) :=
    exists f' w',
      parse_loop (S fuel) s closing f w input = Some (f', w', rest)
      /\ errors w' = (errors w ++ [e])%list
      /\ exists tree w'',
           finish f' w' = (tree, w'') /\ errors w'' = errors w'
           /\ (left_ f = None ->
               shape <$> tree
               = best_effort (shape <$> result f)
                   (pending_shape <$> stack f)) in
  ((tok t = tokEOF \/ tok t = tokERROR) ->
   closing <> "" -> closing <> Block_unindent ->
   returns (mkError "Unexpected end of text, expected $1" (ScanPosition t)
              [ArgText closing]))
  /\ (tok t = tokPARCLOSE -> NameValue t <> closing ->
      returns (mkError "Mismatched parentheses: got $1, expected $2"
                 (ScanPosition t) [ArgText (NameValue t); ArgText closing])).
Proof.
  intros t rest returns.
  assert (Hret : forall w1 e,
    scan (parse_with (parse_loop fuel)) s closing f w t rest
      = Some (mkScanned (set_done f) w1 rest None
                (default_priority s) (default_priority s)) ->
    errors w1 = (errors w ++ [e])%list -> returns e).
  { intros w1 e Hscan He.
    assert (Hturn :
      turn (parse_with (parse_loop fuel)) s closing f w input
      = Some (advance s
                (mkScanned (set_done f) w1 rest None (default_priority s)
                   (default_priority s)) (ScanPosition t), rest)).
    { unfold turn. subst t rest.
      destruct (NextToken input) as [t0 rest0]. simpl in *. rewrite Hscan.
      by destruct (advance s _ (ScanPosition t0)). }
    match type of Hturn with context [advance s ?sc ?pos] =>
      destruct (advance_done_errors s sc pos) as [Hd Hw];
      pose proof (advance_stop s f w1 rest pos (default_priority s)
                    (default_priority s)) as Hkeep;
      destruct (advance s sc pos) as [f' w'] end.
    simpl in Hd, Hw, Hkeep, Hturn.
    exists f', w'. split; [by apply parse_loop_last |].
    split; [congruence |].
    exists (finish f' w').1, (finish f' w').2.
    split; [by destruct (finish f' w') |].
    split; [apply finish_errors |].
    intros Hleft. destruct (Hkeep Hleft) as [Hres Hstack].
    by rewrite finish_best_effort, Hres, Hstack. }
  split.
  - intros Htok Hne Hunindent. eapply Hret.
    + unfold scan.
      rewrite (proj2 (text_eqb_false closing "")) by done.
      rewrite (proj2 (text_eqb_false closing Block_unindent)) by done.
      by destruct Htok as [-> | ->].
    + reflexivity.
  - intros Htok Hne. eapply Hret.
    + unfold scan. rewrite Htok.
      by rewrite (proj2 (text_eqb_false (NameValue t) closing)) by done.
    + reflexivity.
Qed.
End ParserErrors.

Lemma Parse_reports_and_returns_witness :
  let w := Parser.mkWorld [] 0 in
  let input := mkStream [plain_token tokPARCLOSE 3 "]" false false] 4 "" in
  (exists tree w',
     Parser.Parse (H := sentinels) (H0 := no_files) (H1 := plain_options)
       (H2 := a_null_operand) 3 (plus_syntax 310) ")" w
       (mkStream [plain_token tokNAME 0 "a" false true;
                  plain_token tokSYMBOL 2 "+" true false] 3 "")
     = Some (Some tree, w', mkStream [] 3 "")
     /\ Parser.errors w'
        = [Parser.mkError "Unexpected end of text, expected $1" 3
             [Parser.ArgText ")"]]
     /\ shape tree = SPostfix (SName "a") (SName "+"))
  /\ (exists f' w',
        Parser.parse_loop (H := sentinels) (H0 := no_files)
          (H1 := plain_options) (H2 := a_null_operand)
          1 empty_syntax ")" (Parser.enter empty_syntax ")") w input
        = Some (f', w', mkStream [] 4 "")
        /\ Parser.errors w'
           = [Parser.mkError "Mismatched parentheses: got $1, expected $2" 3
                [Parser.ArgText "]"; Parser.ArgText ")"]]
        /\ exists tree w'',
             Parser.finish (H1 := plain_options) f' w' = (tree, w'')
             /\ Parser.errors w'' = Parser.errors w'
             /\ tree = None).
Proof.
  intros w input. split.
  - destruct (proj1 (Parse_reports_and_returns (H := sentinels)
                       (H0 := no_files) (H1 := plain_options)
                       (H2 := a_null_operand) 0 (plus_syntax 310) ")"
                       a_plus_pending (Parser.mkWorld [] 1)
                       (mkStream [] 3 "")))
      as (f' & w' & Hloop & Herrors & tree & w'' & Hfinish & Hsink & Hshape);
      [left; reflexivity | discriminate | discriminate |].
    specialize (Hshape eq_refl).
    destruct tree as [tree |]; [| discriminate Hshape].
    exists tree, w''. split.
    + assert (Hrun :
        Parser.parse_loop (H := sentinels) (H0 := no_files)
          (H1 := plain_options) (H2 := a_null_operand) 3 (plus_syntax 310)
          ")" (Parser.enter (plus_syntax 310) ")") w
          (mkStream [plain_token tokNAME 0 "a" false true;
                     plain_token tokSYMBOL 2 "+" true false] 3 "")
        = Parser.parse_loop (H := sentinels) (H0 := no_files)
            (H1 := plain_options) (H2 := a_null_operand) 1 (plus_syntax 310)
            ")" a_plus_pending (Parser.mkWorld [] 1) (mkStream [] 3 ""))
        by reflexivity.
      unfold Parser.Parse, Parser.parse_with. rewrite Hrun.
      rewrite Hloop, Hfinish. reflexivity.
    + split; [by rewrite Hsink, Herrors |].
      by injection Hshape.
  - destruct (proj2 (Parse_reports_and_returns (H := sentinels)
                       (H0 := no_files) (H1 := plain_options)
                       (H2 := a_null_operand) 0 empty_syntax ")"
                       (Parser.enter empty_syntax ")") (Parser.mkWorld [] 0)
                       (mkStream [plain_token tokPARCLOSE 3 "]" false false]
                          4 "")))
      as (f' & w' & Hloop & Herrors & tree & w'' & Hfinish & Hsink & Hshape);
      [reflexivity | discriminate |].
    exists f', w'. split; [exact Hloop |]. split; [exact Herrors |].
    exists tree, w''. split; [exact Hfinish |]. split; [exact Hsink |].
    specialize (Hshape eq_refl). by destruct tree.
Defined.

(* ====================================================================== *)
(** * Properties of [Parser::Parse]: associativity                      *)
(* ====================================================================== *)

Section ParserShapes.
Import Parser.
Context `{BlockNames} `{SyntaxFiles} `{ParserOptions} `{NullOperand}.

(** Clearing the low bit leaves an even priority alone and takes one off
    an odd one. *)
Lemma clear_low_bit_spec (p : Z) :
  clear_low_bit p = if Z.odd p then p - 1 else p.
Proof.
  unfold clear_low_bit.
  assert (Hl : Z.land p (-2) = 2 * Z.div2 p).
  { apply Z.bits_inj'. intros n Hn.
    rewrite Z.land_spec.
    destruct (Z.eq_dec n 0) as [-> | Hn0].
    - rewrite Z.testbit_even_0. apply andb_false_r.
    - replace n with (Z.succ (n - 1)) by lia.
      rewrite Z.testbit_even_succ by lia.
      rewrite Z.div2_spec, Z.shiftr_spec by lia.
      change (-2) with (Z.lnot 1). rewrite Z.lnot_spec by lia.
      rewrite (Z.bits_above_log2 1 (Z.succ (n - 1))) by (simpl; lia).
      simpl. rewrite andb_true_r. f_equal; lia. }
  rewrite Hl. pose proof (Z.div2_odd p) as Hp.
  destruct (Z.odd p); simpl in Hp; lia.
Qed.

Lemma above_own_priority (p : Z) : (p >? clear_low_bit p) = Z.odd p.
Proof.
  rewrite clear_low_bit_spec. destruct (Z.odd p); lia.
Qed.

Lemma unstack_infix_shape (w : World) (prev : Pending) (operand : Tree) :
  opcode prev <> prefix ->
  shape (unstack w prev operand).1
  = SInfix (opcode prev) (shape (argument prev)) (shape operand).
Proof.
  intros Hop. unfold unstack.
  by rewrite (proj2 (text_eqb_false (opcode prev) prefix)) by done.
Qed.

Lemma flush_shape (dflt p : Z) (stack : list Pending) :
  forall (w : World) (operand : Tree),
  Forall (fun prev => opcode prev <> prefix) stack ->
  let out := flush false dflt p w stack operand in
  (pending_shape <$> out.1.1, shape out.1.2)
  = flush_shapes dflt p (pending_shape <$> stack) (shape operand)
  /\ Forall (fun prev => opcode prev <> prefix) out.1.1.
Proof.
  induction stack as [| prev below IH]; intros w operand Hinfix; simpl;
    [done |].
  inversion Hinfix as [| ? ? Hop Hbelow]; subst.
  unfold stays. simpl.
  destruct (negb (priority prev =? dflt)
            && (p >? clear_low_bit (priority prev)));
    simpl; [done |].
  pose proof (unstack_infix_shape w prev operand Hop) as Hu.
  destruct (unstack w prev operand) as [operand' w']. simpl in Hu.
  rewrite <- Hu. by apply IH.
Qed.

Lemma drain_shape (stack : list Pending) :
  forall (w : World) (operand : Tree),
  Forall (fun prev => opcode prev <> prefix) stack ->
  shape (drain w stack operand).1
  = drain_shapes (pending_shape <$> stack) (shape operand).
Proof.
  induction stack as [| prev below IH]; intros w operand Hinfix; simpl;
    [done |].
  inversion Hinfix as [| ? ? Hop Hbelow]; subst.
  pose proof (unstack_infix_shape w prev operand Hop) as Hu.
  destruct (unstack w prev operand) as [operand' w']. simpl in Hu.
  rewrite <- Hu. by apply IH.
Qed.

(** The tree returned after the loop, when a result is there. *)
Lemma finish_shape (f : Frame) (w : World) (res : Shape)
    (stk : list (string * Shape * Z)) :
  shape <$> result f = Some res ->
  pending_shape <$> stack f = stk ->
  Forall (fun prev => opcode prev <> prefix) (stack f) ->
  shape <$> (finish f w).1 = Some (drain_shapes stk res).
Proof.
  intros Hres Hstk Hinfix. unfold finish.
  destruct (result f) as [tree |]; [| done]. injection Hres as <-.
  destruct (stack f) as [| last below] eqn:Hs; [by subst |].
  pose proof (drain_shape (last :: below) w tree Hinfix) as Hd.
  destruct (drain w (last :: below) tree) as [t w']. simpl in *.
  by rewrite Hd, <- Hstk.
Qed.

Variables (s : Syntax) (closing : string).
Variable P :
  Syntax -> string -> World -> Stream -> option (option Tree * World * Stream).

(** A name read when no result is there starts an operand. *)
Lemma turn_operand (f : Frame) (w : World) (t : Token) (tokens : list Token)
    (ep : TreePosition) (et : string) (stk : list (string * Shape * Z)) :
  between f None stk ->
  tok t = tokNAME \/ tok t = tokSYMBOL ->
  NameValue t <> closing ->
  HasSpecialSyntax s (NameValue t) = None ->
  exists f' w',
    turn P s closing f w (mkStream (t :: tokens) ep et)
      = Some (f', w', mkStream tokens ep et)
    /\ between f' (Some (SName (NameValue t))) stk
    /\ errors w' = errors w.
Proof.
  intros (Hres & Hleft & Hstk & Hinfix & Hdone) Htok Hname Hspecial.
  destruct f as [res l op stack rp ie ns bc d]. simpl in *. subst l d.
  destruct res as [|]; [done |].
  unfold turn, NextToken. simpl.
  set (f := mkFrame None None op stack rp ie ns bc false).
  assert (Hscan : forall rest,
            scan P s closing f w t rest = scan_name P s closing f w t rest).
  { intros rest. unfold scan. by destruct Htok as [-> | ->]. }
  rewrite Hscan. unfold scan_name.
  rewrite (proj2 (text_eqb_false (NameValue t) closing)) by done.
  rewrite Hspecial. simpl.
  unfold advance. simpl.
  repeat match goal with
    | |- context [if ?c then _ else _] => destruct c; simpl
    end.
  all: eexists _, _; (split; [reflexivity |]).
  all: by unfold between.
Qed.

(** A name taken as an infix flushes the stack and is pushed on it. *)
Lemma turn_infix (f : Frame) (w : World) (t : Token) (tokens : list Token)
    (ep : TreePosition) (et : string) (res : Shape)
    (stk : list (string * Shape * Z)) :
  between f (Some res) stk ->
  tok t = tokNAME \/ tok t = tokSYMBOL ->
  NameValue t <> closing -> NameValue t <> prefix ->
  HasSpecialSyntax s (NameValue t) = None ->
  discriminate s (NameValue t) (HadSpaceBefore t) (HadSpaceAfter t) = AsInfix ->
  exists f' w',
    turn P s closing f w (mkStream (t :: tokens) ep et)
      = Some (f', w', mkStream tokens ep et)
    /\ (let out :=
          flush_shapes (default_priority s) (InfixPriority s (NameValue t))
            stk res in
        between f' None
          ((NameValue t, out.2, InfixPriority s (NameValue t)) :: out.1))
    /\ errors w' = errors w.
Proof.
  intros (Hres & Hleft & Hstk & Hinfix & Hdone) Htok Hname Hop Hspecial Hrole.
  destruct f as [r l op stack rp ie ns bc d]. simpl in *. subst l d.
  destruct r as [tree |]; [| done]. injection Hres as <-.
  unfold turn, NextToken. simpl.
  set (f := mkFrame (Some tree) None op stack rp ie ns bc false).
  assert (Hscan : forall rest,
            scan P s closing f w t rest = scan_name P s closing f w t rest).
  { intros rest. unfold scan. by destruct Htok as [-> | ->]. }
  rewrite Hscan. unfold scan_name.
  rewrite (proj2 (text_eqb_false (NameValue t) closing)) by done.
  rewrite Hspecial. simpl. rewrite Hrole. simpl.
  unfold advance. simpl.
  rewrite Z.eqb_refl. simpl.
  pose proof (flush_shape (default_priority s) (InfixPriority s (NameValue t))
                stack w tree Hinfix) as [Hf Hi].
  pose proof (flush_errors false (default_priority s)
                (InfixPriority s (NameValue t)) stack w tree) as He.
  repeat match goal with
    | |- context [if ?c then _ else _] => destruct c; simpl
    end.
  all: destruct (flush false (default_priority s)
                   (InfixPriority s (NameValue t)) w stack tree)
         as [[stack' tree'] w']; simpl in *.
  all: repeat match goal with
    | |- context [if ?c then _ else _] => destruct c; simpl
    end.
  all: eexists _, _; (split; [reflexivity |]).
  all: split; [| done].
  all: rewrite Hstk in Hf; rewrite <- Hf; simpl.
  all: unfold between; simpl; repeat split; try done; by constructor.
Qed.

(** The end of the input, at top level, leaves the result alone. *)
Lemma turn_end (f : Frame) (w : World) (ep : TreePosition) (et : string)
    (res : Shape) (stk : list (string * Shape * Z)) :
  closing = "" ->
  between f (Some res) stk ->
  exists f' w',
    turn P s closing f w (mkStream [] ep et) = Some (f', w', mkStream [] ep et)
    /\ done f' = true
    /\ shape <$> result f' = Some res
    /\ pending_shape <$> stack f' = stk
    /\ Forall (fun prev => opcode prev <> prefix) (stack f')
    /\ errors w' = errors w.
Proof.
  intros -> (Hres & Hleft & Hstk & Hinfix & Hdone).
  destruct f as [r l op stack rp ie ns bc d]. simpl in *. subst l d.
  destruct r as [tree |]; [| done].
  unfold turn, NextToken, scan, advance. simpl.
  eexists _, _. split; [reflexivity |]. by simpl.
Qed.

Lemma between_not_done (f : Frame) (res : option Shape)
    (stk : list (string * Shape * Z)) :
  between f res stk -> done f = false.
Proof. by intros (_ & _ & _ & _ & Hdone). Qed.

(** The loop goes on after a turn that does not set [done]. *)
Lemma parse_loop_next (fuel : nat) (f f' : Frame) (w w' : World)
    (input rest : Stream) :
  turn (parse_with (parse_loop fuel)) s closing f w input
    = Some (f', w', rest) ->
  done f' = false ->
  parse_loop (S fuel) s closing f w input
  = parse_loop fuel s closing f' w' rest.
Proof. intros Hturn Hdone. simpl. by rewrite Hturn, Hdone. Qed.

(** A symbol with an infix priority and a space after it is an infix. *)
Lemma discriminate_space_after (name : string) (before : bool) :
  InfixPriority s name <> default_priority s ->
  discriminate s name before true = AsInfix.
Proof.
  intros Hp%Z.eqb_neq. unfold discriminate. rewrite Hp. simpl.
  by rewrite orb_true_r.
Qed.
End ParserShapes.

Section Associativity.
Import Parser.
Context `{BlockNames} `{SyntaxFiles} `{ParserOptions} `{NullOperand}.

(** C5: parsing [a + b + c], where [+] has a declared infix priority p,
    yields [Infix ("+", Infix ("+", a, b), c)] when p is even and
    [Infix ("+", a, Infix ("+", b, c))] when p is odd, and reports no
    error: the second [+] pops the first one from the stack unless
    [p > (p & ~1)], which holds for the odd priorities only. *)
Theorem Parse_associativity (s : Syntax) (p : Z) (w : World) (fuel : nat) :
  InfixPriority s "+" = p -> p <> default_priority s ->
  (forall n, n ∈ ["a"; "+"; "b"; "c"] -> HasSpecialSyntax s n = None) ->
  exists tree w',
    Parse (6 + fuel) s "" w (mkStream a_plus_b_plus_c 9 "")
      = Some (Some tree, w', mkStream [] 9 "")
    /\ errors w' = errors w
    /\ shape tree =
         if Z.even p
         then SInfix "+" (SInfix "+" (SName "a") (SName "b")) (SName "c")
         else SInfix "+" (SName "a") (SInfix "+" (SName "b") (SName "c")).
Proof.
  intros Hp Hd Hspecial.
  assert (Hinfix : forall before,
            discriminate s "+" before true = AsInfix).
  { intros before. apply discriminate_space_after. by rewrite Hp. }
  assert (B0 : between (enter s "") None []).
  { unfold between, enter. simpl. repeat split; by constructor. }
  unfold Parse, parse_with, a_plus_b_plus_c.
  pose (P := fun n => parse_with (parse_loop n)).
  set (ta := plain_token tokNAME 0 "a" false true).
  set (plus1 := plain_token tokSYMBOL 2 "+" true true).
  set (tb := plain_token tokNAME 4 "b" true true).
  set (plus2 := plain_token tokSYMBOL 6 "+" true true).
  set (tc := plain_token tokNAME 8 "c" true false).
  (* a *)
  destruct (turn_operand s "" (P (5 + fuel)%nat) _ w ta
              [plus1; tb; plus2; tc] 9 "" _ B0
              (or_introl eq_refl) ltac:(discriminate)
              (Hspecial "a" ltac:(set_solver)))
    as (f1 & w1 & Ht1 & B1 & E1).
  (* + *)
  destruct (turn_infix s "" (P (4 + fuel)%nat) _ w1 plus1 [tb; plus2; tc]
              9 "" _ _ B1
              (or_intror eq_refl) ltac:(discriminate) ltac:(discriminate)
              (Hspecial "+" ltac:(set_solver)) (Hinfix true))
    as (f2 & w2 & Ht2 & B2 & E2).
  simpl in B2.
  (* b *)
  destruct (turn_operand s "" (P (3 + fuel)%nat) _ w2 tb [plus2; tc] 9 "" _ B2
              (or_introl eq_refl) ltac:(discriminate)
              (Hspecial "b" ltac:(set_solver)))
    as (f3 & w3 & Ht3 & B3 & E3).
  (* + *)
  destruct (turn_infix s "" (P (2 + fuel)%nat) _ w3 plus2 [tc] 9 "" _ _ B3
              (or_intror eq_refl) ltac:(discriminate) ltac:(discriminate)
              (Hspecial "+" ltac:(set_solver)) (Hinfix true))
    as (f4 & w4 & Ht4 & B4 & E4).
  simpl in B4, Ht4. rewrite Hp in B4.
  rewrite (proj2 (Z.eqb_neq p (default_priority s))) in B4 by done.
  rewrite above_own_priority in B4. simpl in B4.
  (* c *)
  destruct (turn_operand s "" (P (1 + fuel)%nat) _ w4 tc [] 9 "" _ B4
              (or_introl eq_refl) ltac:(discriminate)
              (Hspecial "c" ltac:(set_solver)))
    as (f5 & w5 & Ht5 & B5 & E5).
  (* the end of the input *)
  destruct (turn_end s "" (P fuel) f5 w5 9 "" _ _ eq_refl B5)
    as (f6 & w6 & Ht6 & D6 & R6 & S6 & I6 & E6).
  assert (Hloop :
    parse_loop (6 + fuel) s "" (enter s "") w
      (mkStream [ta; plus1; tb; plus2; tc] 9 "")
    = Some (f6, w6, mkStream [] 9 "")).
  { unfold P in *.
    change (6 + fuel)%nat with (S (5 + fuel)).
    rewrite (parse_loop_next s "" (5 + fuel) _ _ _ _ _ _ Ht1
               (between_not_done _ _ _ B1)).
    change (5 + fuel)%nat with (S (4 + fuel)).
    rewrite (parse_loop_next s "" (4 + fuel) _ _ _ _ _ _ Ht2
               (between_not_done _ _ _ B2)).
    change (4 + fuel)%nat with (S (3 + fuel)).
    rewrite (parse_loop_next s "" (3 + fuel) _ _ _ _ _ _ Ht3
               (between_not_done _ _ _ B3)).
    change (3 + fuel)%nat with (S (2 + fuel)).
    rewrite (parse_loop_next s "" (2 + fuel) _ _ _ _ _ _ Ht4
               (between_not_done _ _ _ B4)).
    change (2 + fuel)%nat with (S (1 + fuel)).
    rewrite (parse_loop_next s "" (1 + fuel) _ _ _ _ _ _ Ht5
               (between_not_done _ _ _ B5)).
    change (1 + fuel)%nat with (S fuel).
    apply (parse_loop_last fuel s "" _ _ _ _ _ _ Ht6 D6). }
  rewrite Hloop.
  pose proof (finish_shape f6 w6 _ _ R6 S6 I6) as Hshape.
  pose proof (finish_errors f6 w6) as Herr.
  destruct (finish f6 w6) as [[tree |] w7]; [| done].
  simpl in Hshape, Herr. exists tree, w7. split; [done |].
  split; [congruence |].
  injection Hshape as ->. rewrite <- Z.negb_odd.
  by destruct (Z.odd p).
Qed.
End Associativity.

Lemma Parse_associativity_witness :
  let parse p :=
    Parser.Parse (H := sentinels) (H0 := no_files)
      (H1 := plain_options) (H2 := a_null_operand)
      6 (plus_syntax p) "" (Parser.mkWorld [] 0)
      (mkStream a_plus_b_plus_c 9 "") in
  (InfixPriority (plus_syntax 310) "+" = 310
   /\ 310 <> default_priority (plus_syntax 310))
  /\ (exists tree w',
        parse 310 = Some (Some tree, w', mkStream [] 9 "")
        /\ Parser.errors w' = []
        /\ shape tree =
             SInfix "+" (SInfix "+" (SName "a") (SName "b")) (SName "c"))
  /\ (exists tree w',
        parse 311 = Some (Some tree, w', mkStream [] 9 "")
        /\ Parser.errors w' = []
        /\ shape tree =
             SInfix "+" (SName "a") (SInfix "+" (SName "b") (SName "c"))).
Proof.
  split; [split; [reflexivity | discriminate] |].
  split.
  - apply (Parse_associativity (H := sentinels) (H0 := no_files)
             (H1 := plain_options) (H2 := a_null_operand) (plus_syntax 310) 310
             (Parser.mkWorld [] 0) 0);
      [reflexivity | discriminate | intros n _; reflexivity].
  - apply (Parse_associativity (H := sentinels) (H0 := no_files)
             (H1 := plain_options) (H2 := a_null_operand) (plus_syntax 311) 311
             (Parser.mkWorld [] 0) 0);
      [reflexivity | discriminate | intros n _; reflexivity].
Defined.

(* ====================================================================== *)
(** * Properties of [Parser::Parse]: infix, postfix or prefix           *)
(* ====================================================================== *)

Section Discrimination.
Import Parser.
Context `{BlockNames} `{SyntaxFiles} `{ParserOptions} `{NullOperand}.

Lemma discriminate_AsInfix (s : Syntax) (name : string) (before after : bool) :
  discriminate s name before after = AsInfix <-> infix_wins s name before after.
Proof.
  unfold discriminate, infix_wins.
  destruct (Z.eqb_spec (InfixPriority s name) (default_priority s)) as [Hi | Hi];
    simpl.
  - split; [| tauto]. by destruct (negb _).
  - destruct (Z.eqb_spec (PrefixPriority s name) (default_priority s))
      as [Hp | Hp]; simpl; [tauto |].
    destruct before, after; simpl; try tauto;
      destruct (negb _); split; try done; intros [_ [? | [? | ?]]]; done.
Qed.

Lemma discriminate_otherwise (s : Syntax) (name : string)
    (before after : bool) :
  ~ infix_wins s name before after ->
  discriminate s name before after =
    if PostfixPriority s name =? default_priority s
    then AsPrefix else AsPostfix.
Proof.
  intros Hno. pose proof (discriminate_AsInfix s name before after) as Hiff.
  unfold discriminate in *.
  destruct (negb (InfixPriority s name =? default_priority s)
            && ((PrefixPriority s name =? default_priority s)
                || negb before || after)).
  - exfalso. apply Hno. by apply Hiff.
  - by destruct (PostfixPriority s name =? default_priority s).
Qed.

(** C2, amended: when [Parse] must discriminate a name or symbol that
    follows a partial result (not as the right operand of a pending
    infix), the name is an infix operator if its infix priority is defined
    and its prefix priority is undefined, or there was no space before
    it, or there is a space after it; otherwise it is a postfix operator
    if its postfix priority is defined, and a prefix otherwise. *)
Theorem Parse_discriminates_names P (s : Syntax) (closing : string)
    (f : Frame) (w : World) (t : Token) (rest : Stream) (res : Tree) :
  tok t = tokNAME \/ tok t = tokSYMBOL ->
  NameValue t <> closing ->
  HasSpecialSyntax s (NameValue t) = None ->
  result f = Some res -> left_ f = None ->
  let name := NameValue t in
  let infix_first := infix_wins s name (HadSpaceBefore t) (HadSpaceAfter t) in
  (infix_first ->
   scan P s closing f w t rest
   = Some (mkScanned (set_left f (Some res) name) w rest None
             (default_priority s) (InfixPriority s name)))
  /\ (~ infix_first -> PostfixPriority s name <> default_priority s ->
      exists sc n n' operand,
        scan P s closing f w t rest = Some sc
        /\ right_ sc = Some (Postfix n' operand (Name n name))
        /\ prefix_priority sc = PostfixPriority s name
        /\ result (frame sc) = None /\ left_ (frame sc) = None)
  /\ (~ infix_first -> PostfixPriority s name = default_priority s ->
      exists sc n,
        scan P s closing f w t rest = Some sc
        /\ right_ sc = Some (Name n name)
        /\ prefix_priority sc = operand_priority s name
        /\ result (frame sc) = Some res /\ left_ (frame sc) = None).
Proof.
  intros Htok Hname Hspecial Hres Hleft name infix_first.
  assert (Hscan : scan P s closing f w t rest
                  = scan_name P s closing f w t rest).
  { unfold scan. by destruct Htok as [-> | ->]. }
  rewrite Hscan. unfold scan_name. fold name.
  rewrite (proj2 (text_eqb_false name closing)) by done.
  unfold name in *. rewrite Hspecial, Hres, Hleft.
  repeat split.
  - intros Hin%discriminate_AsInfix. by rewrite Hin.
  - intros Hno%discriminate_otherwise Hpost%Z.eqb_neq.
    rewrite Hno, Hpost. simpl.
    destruct (flush (done f) (default_priority s)
                (PostfixPriority s (NameValue t))
                {| errors := errors w; next := N.succ (next w) |}
                (stack f) res) as [[stack' res'] w'].
    simpl. by eexists _, _, _, _.
  - intros Hno%discriminate_otherwise Hpost.
    rewrite Hno, Hpost, Z.eqb_refl. simpl.
    eexists _, _. split; [reflexivity |]. simpl.
    unfold operand_priority.
    destruct (PrefixPriority s (NameValue t) =? default_priority s); simpl;
      repeat match goal with
      | |- context [if ?c then _ else _] => destruct c; simpl
      end; by rewrite ?Hres, ?Hleft.
Qed.
End Discrimination.

Lemma Parse_discriminates_names_witness :
  let t := plain_token tokSYMBOL 2 "-" true true in
  let a := Name (at_ 0) "a" in
  let f := Parser.mkFrame (Some a) None "" [] 200 false false "" false in
  (infix_wins minus_syntax "-" true true
   /\ Parser.discriminate minus_syntax "-" true false = Parser.AsPrefix)
  /\ Parser.scan (H := sentinels) (H0 := no_files)
       (H1 := plain_options) (H2 := a_null_operand)
       (fun _ _ _ _ => None) minus_syntax "" f (Parser.mkWorld [] 1) t
       (mkStream [] 9 "")
     = Some (Parser.mkScanned (Parser.set_left f (Some a) "-")
               (Parser.mkWorld [] 1) (mkStream [] 9 "") None 0 380).
Proof.
  assert (Hwins : infix_wins minus_syntax "-" true true).
  { split; [discriminate | right; right; reflexivity]. }
  split; [split; [exact Hwins | reflexivity] |].
  refine (proj1 (Parse_discriminates_names (H := sentinels) (H0 := no_files)
                   (H1 := plain_options) (H2 := a_null_operand)
                   (fun _ _ _ _ => None)
                   minus_syntax ""
                   (Parser.mkFrame (Some (Name (at_ 0) "a")) None "" [] 200
                      false false "" false)
                   (Parser.mkWorld [] 1)
                   (plain_token tokSYMBOL 2 "-" true true) (mkStream [] 9 "")
                   (Name (at_ 0) "a")
                   (or_intror eq_refl) _ eq_refl eq_refl eq_refl) Hwins).
  discriminate.
Defined.

(** C2, as stated, fails: in [a - b], where [-] has both an infix and a
    prefix priority and spaces on both sides, the parser takes [-] as an
    infix and builds [Infix ("-", a, b)]; the rule as it is worded (no
    space before *and* a space after) makes it a prefix.  The same holds
    for [a-b], with no space at all. *)
Lemma discriminate_spaces_on_both_sides :
  Parser.discriminate minus_syntax "-" true true = Parser.AsInfix
  /\ Parser.discriminate_as_written minus_syntax "-" true true
     = Parser.AsPrefix
  /\ Parser.discriminate minus_syntax "-" false false = Parser.AsInfix
  /\ Parser.discriminate_as_written minus_syntax "-" false false
     = Parser.AsPrefix
  /\ (fun r => match r with
               | Some (Some tree, _, _) => Some (shape tree)
               | _ => None
               end)
       (Parser.Parse (H := sentinels) (H0 := no_files)
          (H1 := plain_options) (H2 := a_null_operand)
          4 minus_syntax "" (Parser.mkWorld [] 0) (mkStream a_minus_b 5 ""))
     = Some (SInfix "-" (SName "a") (SName "b")).
Proof. repeat split; vm_compute; reflexivity. Qed.

(* ====================================================================== *)
(** * Properties of [RewriteCandidate::Bind] and [RewriteCalls::Check]  *)
(* ====================================================================== *)

Section BinderFacts.
Import Calls.
Context `{Inference}.

Lemma is_failed_spec (b : BindingStrength) : is_failed b = true <-> b = FAILED.
Proof. by destruct b. Qed.

Lemma is_perfect_spec (b : BindingStrength) :
  is_perfect b = true <-> b = PERFECT.
Proof. by destruct b. Qed.

(** The outcome of the second half of the literal rule. *)
Lemma bind_constant_outcome (rc : RewriteCandidate) (mtype form value : Tree) :
  exists type rc1 ok rc2,
    ValueType rc value = (type, rc1)
    /\ Unify rc1 type (Some mtype) value form false = (ok, rc2)
    /\ bind_constant rc mtype form value
       = if ok then (POSSIBLE, Condition rc2 value form) else (FAILED, rc2).
Proof.
  unfold bind_constant.
  destruct (ValueType rc value) as [type rc1].
  destruct (Unify rc1 type (Some mtype) value form false) as [ok rc2] eqn:Hu.
  exists type, rc1, ok, rc2. by repeat split.
Qed.

(** C3, amended: [Bind] of a literal form (an integer, real or text leaf)
    against a value that is a literal of the same kind returns [PERFECT]
    when the two values are equal and [FAILED] when they are not, without
    looking at types; against any other value, it adds the runtime
    condition that the value equals the form and returns [POSSIBLE] when
    the type of the value unifies with the type of the literal, and
    returns [FAILED] otherwise. *)
Theorem Bind_literal (rc : RewriteCandidate) (form value : Tree) :
  is_literal form = true ->
  (Kind value = Kind form ->
   Bind rc form value
   = (if equal_constant form value then PERFECT else FAILED, rc))
  /\ (Kind value <> Kind form ->
      exists vtype rc1 ok rc2,
        ValueType rc value = (vtype, rc1)
        /\ Unify rc1 vtype (Some (literal_type form)) value form false
           = (ok, rc2)
        /\ Bind rc form value
           = if ok
             then (POSSIBLE,
                   mkCandidate (rewrite rc2) (scope rc2) (bindings rc2)
                     (conditions rc2 ++ [mkCondition value form])
                     (kinds rc2) (type rc2) (world rc2) (next rc2))
             else (FAILED, rc2)).
Proof.
  intros Hlit. split.
  - intros Hkind. destruct form; try discriminate; destruct value;
      try discriminate; reflexivity.
  - intros Hkind.
    assert (Hsecond :
      Bind rc form value = bind_constant rc (literal_type form) form value).
    { destruct form; try discriminate; destruct value; try done. }
    rewrite Hsecond. apply bind_constant_outcome.
Qed.

(** C8: binding a guarded form [F when G] never returns [PERFECT]: it
    fails when binding [F] fails; when it succeeds, the guard has a type,
    that type unifies with [boolean], the condition that [G] equals [true]
    is the last runtime condition of the candidate, and the result is
    [POSSIBLE]. *)
Theorem Bind_guard (rc : RewriteCandidate) (n : Node) (F G value : Tree) :
  let out := Bind rc (Infix n "when" F G) value in
  out.1 <> PERFECT
  /\ ((Bind rc F value).1 = FAILED -> out.1 = FAILED)
  /\ (out.1 = POSSIBLE ->
      (Bind rc F value).1 <> FAILED
      /\ exists ty rc1 guardType rc2 rc3,
           in_world (Bind rc F value).2 (fun w => Types_Type w G)
             = (Some ty, rc1)
           /\ in_world rc1 (fun w => Types_Type w G) = (guardType, rc2)
           /\ Unify rc2 guardType (Some boolean_type) G F false = (true, rc3)
           /\ out.2 = Condition rc3 G xl_true
           /\ conditions out.2
              = (conditions rc3 ++ [mkCondition G xl_true])%list).
Proof.
  simpl.
  destruct (Bind rc F value) as [bound rc0] eqn:HF. simpl.
  destruct (is_failed bound) eqn:Hfailed.
  { apply is_failed_spec in Hfailed. subst. by repeat split. }
  assert (bound <> FAILED) by (by destruct bound).
  destruct (in_world rc0 (fun w => Types_Type w G)) as [checked rc1] eqn:Hc.
  destruct checked as [ty |]; [| by repeat split].
  destruct (in_world rc1 (fun w => Types_Type w G)) as [guardType rc2] eqn:Hg.
  destruct (Unify rc2 guardType (Some boolean_type) G F false)
    as [ok rc3] eqn:Hu.
  destruct ok; simpl; [| by repeat split].
  split; [done |]. split; [done |]. intros _. split; [done |].
  by exists ty, rc1, guardType, rc2, rc3.
Qed.

(** The typing of the body never makes a binding stronger: [Check] ends
    with the strength that [Bind] returned, or with [FAILED]. *)
Lemma Check_candidate_degrades (w : World) (next : N) (scope what : Tree)
    (candidate : Rewrite) :
  exists rc0 : RewriteCandidate,
    let bound :=
      (Bind rc0 (RewriteDefined (rewrite_left candidate)) what).1 in
    let final := (Check_candidate w next scope what candidate).1 in
    final = FAILED \/ final = bound.
Proof.
  unfold Check_candidate.
  match goal with
  | |- context [let (_, _) := ?start in _] =>
      destruct start as [type0 rc0]
  end.
  exists rc0.
  destruct (Bind rc0 (RewriteDefined (rewrite_left candidate)) what)
    as [bound rc1].
  cbn [fst snd]. destruct (is_failed bound) eqn:Hf; [by left |].
  (* Check if we have a type to match *)
  match goal with
  | |- context [let (_, _) := ?stage in _] =>
      assert (Hstage : stage.1.1 = FAILED \/ stage.1.1 = bound)
        by (repeat case_match; simplify_eq; cbn [fst snd]; auto);
      destruct stage as [[binding1 type1] rc2]
  end.
  cbn [fst snd] in Hstage.
  (* Check built-ins and C functions *)
  match goal with
  | |- context [let (_, _) := ?stage in _] =>
      assert (Hstage2 : stage.1.1 = FAILED \/ stage.1.1 = binding1)
        by (repeat case_match; simplify_eq; cbn [fst snd]; auto);
      destruct stage as [[binding2 type2] rc3]
  end.
  cbn [fst snd] in Hstage2.
  (* Match the type of the form and declared entity *)
  match goal with
  | |- context [let (_, _) := ?stage in _] =>
      destruct stage as [type3 rc4]
  end.
  destruct (Errors_HadErrors (world rc4)); cbn [is_failed fst]; [by left |].
  destruct (is_failed binding2) eqn:Hf2; [by left |].
  match goal with
  | |- context [let (_, _) := ?stage in _] =>
      destruct stage as [type4 rc5]
  end.
  cbn [fst]. destruct type4; [| by left].
  destruct Hstage2 as [-> | ->]; [by left |].
  destruct Hstage as [-> | ->]; [by left | by right].
Qed.
(** C1: [Check] returns the expression exactly when the final strength of
    the binding is [PERFECT], and null otherwise; the candidate is
    recorded whenever the strength is not [FAILED]; so the walk of
    [Lookup] stops on a perfect candidate and goes on with the later rules
    after any other. *)
Theorem Check_stops_on_perfect (calls : RewriteCalls) (scope what : Tree)
    (candidate : Rewrite) (later : list (Tree * Rewrite)) :
  let binding := final_binding calls scope what candidate in
  let out := Check calls scope what candidate in
  (out.1 = Some what <-> binding = PERFECT)
  /\ (binding <> PERFECT -> out.1 = None)
  /\ candidates out.2
     = (if is_failed binding then candidates calls
        else candidates calls ++ [built_candidate calls scope what candidate])%list
  /\ Lookup Check calls what ((scope, candidate) :: later)
     = if is_perfect binding then (Some what, out.2)
       else Lookup Check out.2 what later.
Proof.
  unfold final_binding, built_candidate. simpl. unfold Check.
  destruct (Check_candidate (types calls) (heap calls) scope what candidate)
    as [binding rc].
  simpl. by destruct binding; repeat split.
Qed.
End BinderFacts.

#[local] Existing Instance Calls.Literals.

Lemma Bind_literal_witness :
  Calls.is_literal literal_zero = true
  /\ Calls.Bind blank_candidate literal_zero call_zero
     = (Calls.PERFECT, blank_candidate)
  /\ exists vtype rc1 rc2,
       Calls.ValueType blank_candidate call_N = (vtype, rc1)
       /\ Calls.Unify rc1 vtype (Some (Calls.literal_type literal_zero))
            call_N literal_zero false = (true, rc2)
       /\ (Calls.Bind blank_candidate literal_zero call_N).1 = Calls.POSSIBLE
       /\ Calls.conditions (Calls.Bind blank_candidate literal_zero call_N).2
          = [Calls.mkCondition call_N literal_zero].
Proof.
  split; [reflexivity |]. split.
  - exact (proj1 (Bind_literal (H := Calls.Literals) blank_candidate
                    literal_zero call_zero eq_refl) eq_refl).
  - destruct (proj2 (Bind_literal (H := Calls.Literals) blank_candidate
                       literal_zero call_N eq_refl) ltac:(discriminate))
      as (vtype & rc1 & ok & rc2 & Hv & Hu & Hb).
    exists vtype, rc1, rc2.
    injection Hv as <- <-. injection Hu as <- <-.
    split; [reflexivity |]. split; [reflexivity |].
    rewrite Hb. split; reflexivity.
Defined.

(** C3, as stated, fails: the literal form [0] against the constant [1],
    whose type [integer] unifies with the type of the literal, is [FAILED]
    and not [POSSIBLE]: the code compares two constants of one kind by
    value and never unifies their types. *)
Lemma Bind_literal_unequal_constant :
  (Calls.ValueType blank_candidate call_one).1 = Some Calls.integer_type
  /\ (Calls.Unify blank_candidate (Some Calls.integer_type)
        (Some Calls.integer_type) call_one literal_zero false).1 = true
  /\ (Calls.Bind blank_candidate literal_zero call_one).1 = Calls.FAILED
  /\ (Calls.Bind_literal_as_written blank_candidate literal_zero call_one).1
     = Calls.POSSIBLE.
Proof. repeat split. Qed.

Lemma Bind_guard_witness :
  let out := Calls.Bind blank_candidate guarded_zero call_zero in
  (Calls.Bind blank_candidate literal_zero call_zero).1 = Calls.PERFECT
  /\ out.1 = Calls.POSSIBLE
  /\ out.1 <> Calls.PERFECT
  /\ (Calls.Bind blank_candidate literal_zero call_zero).1 <> Calls.FAILED
  /\ Calls.conditions out.2
     = [Calls.mkCondition (Name (at_ 51) "G") Calls.xl_true].
Proof.
  destruct (Bind_guard (H := Calls.Literals) blank_candidate (at_ 50)
              literal_zero (Name (at_ 51) "G") call_zero)
    as (Hweak & Hfail & Hcond).
  intros out. subst out. unfold guarded_zero.
  split; [reflexivity |]. split; [reflexivity |].
  split; [exact Hweak |].
  split; [exact (proj1 (Hcond eq_refl)) | reflexivity].
Defined.

Lemma Check_stops_on_perfect_witness :
  final_binding no_calls outer_scope call_zero zero_is_one = Calls.PERFECT
  /\ (Calls.Check no_calls outer_scope call_zero zero_is_one).1
     = Some call_zero
  /\ (Calls.Lookup Calls.Check no_calls call_zero
        [(outer_scope, zero_is_one); (outer_scope, zero_is_two)]).1
     = Some call_zero
  /\ Calls.candidates
       (Calls.Lookup Calls.Check no_calls call_zero
          [(outer_scope, zero_is_one); (outer_scope, zero_is_two)]).2
     = [built_candidate no_calls outer_scope call_zero zero_is_one].
Proof.
  destruct (Check_stops_on_perfect (H := Calls.Literals) no_calls outer_scope
              call_zero zero_is_one [(outer_scope, zero_is_two)])
    as (Hiff & Hnot & Hrec & Hwalk).
  split; [reflexivity |].
  split; [apply Hiff; reflexivity |].
  assert (Hperfect :
    Calls.is_perfect (final_binding no_calls outer_scope call_zero zero_is_one)
    = true) by reflexivity.
  rewrite Hwalk, Hperfect. cbn [fst snd].
  split; [reflexivity |].
  rewrite Hrec. reflexivity.
Defined.

(* ====================================================================== *)
(** * Examples on [double]                                              *)
(* ====================================================================== *)

Example double_eqb_same : double_eqb one_and_half one_and_half = true.
Proof. reflexivity. Qed.

Example double_eqb_nan : double_eqb quiet_nan quiet_nan = false.
Proof. reflexivity. Qed.

Example double_eqb_zeros : double_eqb 0 minus_zero = true.
Proof. reflexivity. Qed.

Example double_neg_zero : double_neg 0 = minus_zero.
Proof. reflexivity. Qed.

Example double_neg_twice : double_neg (double_neg one_and_half) = one_and_half.
Proof. reflexivity. Qed.

(** A literal NaN in a pattern matches no value, not even itself. *)
Example Bind_nan_literal :
  (Calls.Bind blank_candidate (Real (at_ 60) quiet_nan)
     (Real (at_ 61) quiet_nan)).1 = Calls.FAILED.
Proof. reflexivity. Qed.

(* ====================================================================== *)
(** * Properties of the syntax tables                                     *)
(* ====================================================================== *)

Lemma priority_or_default_insert (table : gmap string Z) (default : Z)
    (n m : string) (p : Z) :
  priority_or_default (<[n := p]> table) default m
  = if bool_decide (m = n)
    then (if p =? 0 then default else p)
    else priority_or_default table default m.
Proof.
  unfold priority_or_default. case_bool_decide as Hm.
  - subst. by rewrite lookup_insert_eq.
  - by rewrite lookup_insert_ne.
Qed.

(** X1: the three setters and the three lookups of priorities.  Setting
    a priority that is not zero makes the lookup return it for that name;
    setting zero changes nothing (a zero never hides an entry); the other
    names, and the two other tables, are left as they were. *)
Theorem SetPriority_lookup (s : Syntax) (n m : string) (p : Z) :
  let set_here := bool_decide (m = n) && negb (p =? 0) in
  (InfixPriority (SetInfixPriority s n p) m
     = (if set_here then p else InfixPriority s m)
   /\ PrefixPriority (SetInfixPriority s n p) m = PrefixPriority s m
   /\ PostfixPriority (SetInfixPriority s n p) m = PostfixPriority s m)
  /\ (PrefixPriority (SetPrefixPriority s n p) m
        = (if set_here then p else PrefixPriority s m)
      /\ InfixPriority (SetPrefixPriority s n p) m = InfixPriority s m
      /\ PostfixPriority (SetPrefixPriority s n p) m = PostfixPriority s m)
  /\ (PostfixPriority (SetPostfixPriority s n p) m
        = (if set_here then p else PostfixPriority s m)
      /\ InfixPriority (SetPostfixPriority s n p) m = InfixPriority s m
      /\ PrefixPriority (SetPostfixPriority s n p) m = PrefixPriority s m).
Proof.
  unfold SetInfixPriority, SetPrefixPriority, SetPostfixPriority,
    InfixPriority, PrefixPriority, PostfixPriority.
  destruct (Z.eqb_spec p 0) as [-> | Hp]; simpl.
  - rewrite andb_false_r. by repeat split.
  - rewrite andb_true_r. destruct s; simpl.
    rewrite !priority_or_default_insert.
    rewrite (proj2 (Z.eqb_neq p 0)) by done.
    by repeat split.
Qed.

(* ====================================================================== *)
(** * Properties of [Options::LibPath] and [Options::LibRemap]            *)
(* ====================================================================== *)

Lemma length_app (a b : string) :
  String.length (a +:+ b) = (String.length a + String.length b)%nat.
Proof. induction a as [| c a IH]; simpl; [done | by rewrite IH]. Qed.

Lemma substring_all (a : string) :
  String.substring 0 (String.length a) a = a.
Proof. induction a as [| c a IH]; simpl; [done | by rewrite IH]. Qed.

Lemma substring_app_l (a b : string) :
  String.substring 0 (String.length a) (a +:+ b) = a.
Proof. induction a as [| c a IH]; simpl; [by destruct b | by rewrite IH]. Qed.

Lemma substring_app_r (a b : string) :
  String.substring (String.length a) (String.length b) (a +:+ b) = b.
Proof. induction a as [| c a IH]; simpl; [apply substring_all | done]. Qed.

Lemma index_prefix (a b : string) : String.index 0 a (a +:+ b) = Some O.
Proof.
  destruct a as [| c a]; simpl; [by destruct b |].
  assert (Hp : String.prefix (String c a) (String c a +:+ b) = true).
  { apply String.prefix_correct, substring_app_l. }
  simpl in Hp. by rewrite Hp.
Qed.

Lemma index_at_start (a name : string) :
  String.index 0 a name = Some O -> exists rest, name = a +:+ rest.
Proof.
  intros Hi%String.index_correct1. revert name Hi.
  induction a as [| c a IH]; intros name Hi; [by exists name |].
  destruct name as [| d name]; [done |]. simpl in Hi.
  injection Hi as -> Hi. destruct (IH name Hi) as [rest ->].
  by exists rest.
Qed.

(** X2: [LibRemap] replaces the old path at the start of a name by the
    new one, undoes itself when the two paths are swapped, and leaves
    alone every name that does not begin with the old path. *)
Theorem LibRemap_round_trip (oldpath newpath : string) :
  (forall rest : string,
     LibRemap (oldpath +:+ rest) oldpath newpath = newpath +:+ rest
     /\ LibRemap (LibRemap (oldpath +:+ rest) oldpath newpath)
          newpath oldpath
        = oldpath +:+ rest)
  /\ (forall name : string,
        (forall rest : string, name <> oldpath +:+ rest) ->
        LibRemap name oldpath newpath = name).
Proof.
  assert (Hstart : forall a b rest, LibRemap (a +:+ rest) a b = b +:+ rest).
  { intros a b rest. unfold LibRemap. rewrite index_prefix, length_app.
    replace (String.length a + String.length rest - String.length a)%nat
      with (String.length rest) by lia.
    by rewrite substring_app_r. }
  split.
  - intros rest. by rewrite !Hstart.
  - intros name Hno. unfold LibRemap.
    destruct (String.index 0 oldpath name) as [[| i] |] eqn:Hi; try done.
    destruct (index_at_start _ _ Hi) as [rest ->]. by destruct (Hno rest).
Qed.

Lemma LibRemap_round_trip_witness :
  LibRemap "/usr/lib/elfe/C.syntax" "/usr/lib/" "/opt/" = "/opt/elfe/C.syntax"
  /\ LibRemap (LibRemap "/usr/lib/elfe/C.syntax" "/usr/lib/" "/opt/")
       "/opt/" "/usr/lib/"
     = "/usr/lib/elfe/C.syntax"
  /\ LibRemap "elfe.syntax" "/usr/lib/" "/opt/" = "elfe.syntax".
Proof.
  destruct (LibRemap_round_trip "/usr/lib/" "/opt/") as [Hstart Hother].
  destruct (Hstart "elfe/C.syntax") as [H1 H2].
  split; [exact H1 |]. split; [exact H2 |].
  apply Hother. intros rest. discriminate.
Defined.

(** The last place where a pattern that is not empty occurs in a name
    that ends with it is the end of the name. *)
Lemma occurs_at_end (stem extension : string) :
  occurs_at (stem +:+ extension) extension (String.length stem) = true.
Proof.
  unfold occurs_at. rewrite length_app.
  rewrite (proj2 (Nat.leb_le _ _)) by lia. simpl.
  apply text_eqb_true, substring_app_r.
Qed.

Lemma occurs_at_beyond (name pattern : string) (i : nat) :
  (String.length name < i + String.length pattern)%nat ->
  occurs_at name pattern i = false.
Proof.
  intros Hlen. unfold occurs_at.
  by rewrite (proj2 (Nat.leb_gt _ _)) by lia.
Qed.

Lemma find_rev_seq (P : nat -> bool) (n k : nat) :
  (k <= n)%nat -> P k = true ->
  (forall i, (k < i <= n)%nat -> P i = false) ->
  List.find P (rev (seq 0 (S n))) = Some k.
Proof.
  revert k. induction n as [| n IH]; intros k Hk Hat Habove.
  - assert (k = 0%nat) as -> by lia. simpl. by rewrite Hat.
  - rewrite seq_S, rev_app_distr. simpl.
    destruct (decide (k = S n)) as [-> | Hne]; [by rewrite Hat |].
    rewrite Habove by lia. apply IH; [lia | done |].
    intros i Hi. apply Habove. lia.
Qed.

Lemma find_none (P : nat -> bool) (l : list nat) :
  (forall i, P i = false) -> List.find P l = None.
Proof.
  intros Hno. induction l as [| i l IH]; simpl; [done | by rewrite Hno].
Qed.

Lemma rfind_suffix (stem extension : string) :
  extension <> "" ->
  rfind (stem +:+ extension) extension = Some (String.length stem).
Proof.
  intros Hne. unfold rfind. apply find_rev_seq.
  - rewrite length_app. lia.
  - apply occurs_at_end.
  - intros i Hi. apply occurs_at_beyond. rewrite length_app.
    destruct extension; [done |]. simpl. lia.
Qed.

Lemma rfind_empty (name : string) :
  rfind name "" = Some (String.length name).
Proof.
  unfold rfind. apply find_rev_seq; [lia | | lia].
  unfold occurs_at. simpl. rewrite Nat.add_0_r, Nat.leb_refl. simpl.
  apply text_eqb_true. generalize (String.length name). intros n. revert name.
  induction n as [| n IH]; intros [| c name]; simpl; auto.
Qed.

Lemma rfind_short (name extension : string) :
  (String.length name < String.length extension)%nat ->
  rfind name extension = None.
Proof.
  intros Hlen. unfold rfind. apply find_none.
  intros i. apply occurs_at_beyond. lia.
Qed.

(** X3: a name that ends with the extension is not given it again; the
    base directory is put in front unless the name has a slash. *)
Theorem LibPath_keeps_extension (stem extension base : string) :
  LibPath (stem +:+ extension) extension base
  = in_directory base (stem +:+ extension).
Proof.
  unfold LibPath, in_directory.
  destruct (decide (extension = "")) as [-> | Hne].
  - rewrite rfind_empty. simpl. rewrite Z.sub_0_r, Z.eqb_refl. done.
  - rewrite rfind_suffix by done. rewrite length_app.
    rewrite (proj2 (Z.eqb_eq _ _)) by lia. done.
Qed.

(** X4: the comparison of [LibPath] is one of unsigned numbers: for a name
    that is one character shorter than the extension, the difference of
    the lengths wraps to the number that [rfind] returns for "not found",
    so that the name does not get the extension. *)
Theorem LibPath_short_name (name extension base : string) :
  (String.length name + 1 = String.length extension)%nat ->
  LibPath name extension base = in_directory base name.
Proof.
  intros Hlen. unfold LibPath, in_directory.
  rewrite rfind_short by lia.
  by rewrite (proj2 (Z.eqb_eq _ _)) by lia.
Qed.

Lemma LibPath_short_name_witness :
  (String.length "syntax" + 1 = String.length ".syntax")%nat
  /\ LibPath "syntax" ".syntax" "lib/" = "lib/syntax"
  /\ LibPath "xl" ".syntax" "lib/" = "lib/xl.syntax".
Proof.
  split; [reflexivity |]. split; [| reflexivity].
  apply (LibPath_short_name "syntax" ".syntax" "lib/"). reflexivity.
Defined.

(* ====================================================================== *)
(** * Properties of the closures and of the kinds that have rewrites      *)
(* ====================================================================== *)

Lemma land_bit (x j : Z) :
  0 <= j -> negb (Z.land x (Z.shiftl 1 j) =? 0) = Z.testbit x j.
Proof.
  intros Hj. rewrite Z.shiftl_1_l.
  destruct (Z.testbit x j) eqn:Hb.
  - apply negb_true_iff, Z.eqb_neq. intros Hz.
    assert (Hf : Z.testbit (Z.land x (2 ^ j)) j = false)
      by (rewrite Hz; apply Z.bits_0).
    rewrite Z.land_spec, Hb, Z.pow2_bits_true in Hf by done. done.
  - apply negb_false_iff, Z.eqb_eq, Z.bits_inj'. intros n Hn.
    rewrite Z.land_spec, Z.bits_0, Z.pow2_bits_eqb by done.
    destruct (Z.eqb_spec j n) as [<- | _]; [by rewrite Hb | apply andb_false_r].
Qed.

Lemma kind_rank_range (k : kind) : 0 <= kind_rank k < 32.
Proof. destruct k; simpl; lia. Qed.

Lemma kind_eqb_eq (a b : kind) : kind_eqb a b = true <-> a = b.
Proof. destruct a, b; unfold kind_eqb; simpl; split; intros Heq; done. Qed.

Lemma AsPrefix_Some (t s : Tree) : AsPrefix t = Some s -> s = t.
Proof. destruct t; simpl; congruence. Qed.

(** The bit of a kind after the bit of another one has been set. *)
Lemma HasRewritesFor_after `{Symbols} (k k' : kind) :
  HasRewritesFor (H := HasOneRewriteFor k) k'
  = kind_eqb k k' || HasRewritesFor k'.
Proof.
  pose proof (kind_rank_range k) as Hk. pose proof (kind_rank_range k') as Hk'.
  unfold HasRewritesFor, HasOneRewriteFor. simpl.
  rewrite !land_bit by lia. unfold to_uint.
  rewrite Z.mod_pow2_bits_low, Z.lor_spec, Z.shiftl_1_l by lia.
  rewrite Z.pow2_bits_eqb by lia. unfold kind_eqb.
  by rewrite orb_comm.
Qed.

(** X5: once [HasOneRewriteFor (k)] has run, [HasRewritesFor (k)] holds,
    and the answer for every other kind is the one it was before. *)
Theorem HasOneRewriteFor_recorded `{Symbols} (k k' : kind) :
  HasRewritesFor (H := HasOneRewriteFor k) k'
  = kind_eqb k k' || HasRewritesFor k'.
Proof. apply HasRewritesFor_after. Qed.

(** X6: a constant (an integer, a real or a text) is returned as it is
    while no rewrite is known for any kind, and is closed over the
    current scope once a rewrite for its kind has been recorded. *)
Theorem MakeClosure_constant `{Symbols} (fuel : nat) (next : N)
    (context : Context) (value : Tree) :
  kind_rank (Kind value) < kind_rank NAME ->
  (hasRewritesForKind = 0 ->
   MakeClosure (S fuel) next context value = Some (value, next))
  /\ MakeClosure (H := HasOneRewriteFor (Kind value)) (S fuel) next context
       value
     = Some (Prefix (mkNode next NOWHERE [ClosureInfo])
               (CurrentScope context) value, N.succ next).
Proof.
  intros Hconst. split.
  - intros Hnone. simpl. unfold HasRewritesFor. rewrite Hnone.
    rewrite (proj2 (Z.leb_gt _ _)) by done. simpl. done.
  - cbn [MakeClosure]. rewrite HasRewritesFor_after.
    rewrite (proj2 (kind_eqb_eq _ _)) by done. rewrite orb_true_r.
    by destruct value.
Qed.

Lemma MakeClosure_constant_witness :
  kind_rank (Kind (Integer (at_ 7) 42)) < kind_rank NAME
  /\ MakeClosure (H := no_symbols) 1 100 (mkContext current_scope)
       (Integer (at_ 7) 42)
     = Some (Integer (at_ 7) 42, 100%N)
  /\ MakeClosure (H := HasOneRewriteFor (H := no_symbols) INTEGER) 1 100
       (mkContext current_scope) (Integer (at_ 7) 42)
     = Some (Prefix (mkNode 100 NOWHERE [ClosureInfo]) current_scope
               (Integer (at_ 7) 42), 101%N).
Proof.
  destruct (MakeClosure_constant (H := no_symbols) 0 100
              (mkContext current_scope) (Integer (at_ 7) 42))
    as [Hkeep Hwrap]; [reflexivity |].
  split; [reflexivity |]. split; [apply Hkeep; reflexivity | exact Hwrap].
Defined.

(** The closure that is built around a value that is not followed any
    further. *)
Lemma MakeClosure_wraps `{Symbols} (fuel : nat) (next : N)
    (context : Context) (value : Tree) :
  kind_rank NAME <= kind_rank (Kind value) ->
  (Kind value = NAME -> Bound context value = None) ->
  marked_closure value = false ->
  is_Some (AsPrefix (CurrentScope context)) ->
  exists closure,
    MakeClosure (S fuel) next context value = Some (closure, N.succ next)
    /\ marked_closure closure = true
    /\ IsClosure closure = Some (value, context).
Proof.
  intros Hkind Hfree Hplain [scope Hscope].
  exists (Prefix (mkNode next NOWHERE [ClosureInfo]) (CurrentScope context)
            value).
  split; [| split].
  - cbn [MakeClosure]. rewrite (proj2 (Z.leb_le _ _)) by done. simpl.
    assert (Hb : (if kind_eqb (Kind value) NAME
                  then Bound context value else None) = None).
    { destruct (kind_eqb (Kind value) NAME) eqn:Hn; [| done].
      apply Hfree. by apply kind_eqb_eq. }
    rewrite Hb. unfold wrap_value. unfold marked_closure in Hplain.
    destruct (kind_eqb (Kind value) PREFIX), (HasClosureInfo value);
      simpl in *; done.
  - reflexivity.
  - unfold IsClosure, ScopeParent. rewrite Hscope. simpl.
    rewrite (AsPrefix_Some _ _ Hscope). by destruct context.
Qed.

(** X7: closing a value that is no constant, no closure and no bound
    name builds one new prefix, and [IsClosure] gives back from it the
    value and a context on the scope that was current. *)
Theorem MakeClosure_IsClosure `{Symbols} (fuel : nat) (next : N)
    (context : Context) (value : Tree) :
  kind_rank NAME <= kind_rank (Kind value) ->
  (Kind value = NAME -> Bound context value = None) ->
  marked_closure value = false ->
  is_Some (AsPrefix (CurrentScope context)) ->
  exists closure,
    MakeClosure (S fuel) next context value = Some (closure, N.succ next)
    /\ marked_closure closure = true
    /\ IsClosure closure = Some (value, context).
Proof. apply MakeClosure_wraps. Qed.

Lemma MakeClosure_IsClosure_witness :
  exists closure,
    MakeClosure (H := no_symbols) 1 7 (mkContext current_scope)
      (Name (at_ 41) "x")
    = Some (closure, 8%N)
    /\ marked_closure closure = true
    /\ IsClosure closure = Some (Name (at_ 41) "x", mkContext current_scope).
Proof.
  apply (MakeClosure_IsClosure (H := no_symbols) 0 7
           (mkContext current_scope) (Name (at_ 41) "x")).
  - simpl. lia.
  - reflexivity.
  - reflexivity.
  - by eexists.
Defined.

(** X8: a name that is bound to a closure.  [MakeClosure] goes on with
    the value inside that closure, in the context of the scope of that
    closure: the scope that is current at the call is dropped.  What
    comes out depends on that inner value.  A constant of a kind that has
    no rewrite is returned bare, with no closure around it; a value that
    is closed where it stands (no constant, no closure, no bound name) is
    closed over the scope of the closure it was in. *)
Theorem MakeClosure_bound_to_closure `{Symbols} (fuel : nat) (next : N)
    (context : Context) (x : Tree) (n : Node) (scope inside : Tree) :
  Kind x = NAME ->
  Bound context x = Some (Prefix n scope inside) ->
  HasClosureInfo (Prefix n scope inside) = true ->
  is_Some (AsPrefix scope) ->
  same_tree x inside = false ->
  MakeClosure (S fuel) next context x
  = MakeClosure fuel next (mkContext scope) inside
  /\ (kind_rank (Kind inside) < kind_rank NAME ->
      HasRewritesFor (Kind inside) = false ->
      MakeClosure (S (S fuel)) next context x = Some (inside, next))
  /\ (kind_rank NAME <= kind_rank (Kind inside) ->
      (Kind inside = NAME -> Bound (mkContext scope) inside = None) ->
      marked_closure inside = false ->
      exists closure,
        MakeClosure (S (S fuel)) next context x
        = Some (closure, N.succ next)
        /\ IsClosure closure = Some (inside, mkContext scope)).
Proof.
  intros Hx Hbound Hmark [sc Hsc] Hdiff.
  assert (Hstep : forall fuel' : nat,
    MakeClosure (S fuel') next context x
    = MakeClosure fuel' next (mkContext scope) inside).
  { intros fuel'. simpl. rewrite Hx. simpl. rewrite Hbound. simpl.
    rewrite Hsc, Hmark, Hdiff. simpl.
    by rewrite (AsPrefix_Some _ _ Hsc). }
  split; [apply Hstep |]. split.
  - intros Hconstant Hnone. rewrite Hstep. simpl.
    rewrite (proj2 (Z.leb_gt _ _)) by done. by rewrite Hnone.
  - intros Hkind Hfree Hplain. rewrite Hstep.
    destruct (MakeClosure_wraps fuel next (mkContext scope) inside)
      as (closure & Hrun & _ & Hopen);
      [done | done | done | by exists sc | by exists closure].
Qed.

Lemma MakeClosure_bound_to_closure_witness :
  let bound_names : Symbols :=
    {| Bound := fun c form =>
         match form with
         | Name _ "v" =>
             if same_tree (CurrentScope c) current_scope
             then Some a_closure else None
         | Name _ "k" =>
             if same_tree (CurrentScope c) current_scope
             then Some (Prefix (mkNode 43 NOWHERE [ClosureInfo]) closed_scope
                          (Integer (at_ 44) 42))
             else None
         | _ => None
         end;
       hasRewritesForKind := 0 |} in
  (exists closure,
     MakeClosure (H := bound_names) 2 100 (mkContext current_scope)
       (Name (at_ 50) "v")
     = Some (closure, 101%N)
     /\ IsClosure closure = Some (Name (at_ 41) "x", mkContext closed_scope))
  /\ MakeClosure (H := bound_names) 2 100 (mkContext current_scope)
       (Name (at_ 51) "k")
     = Some (Integer (at_ 44) 42, 100%N).
Proof.
  intros bound_names. split.
  - destruct (MakeClosure_bound_to_closure (H := bound_names) 0 100
                (mkContext current_scope) (Name (at_ 50) "v")
                (mkNode 40 NOWHERE [ClosureInfo]) closed_scope
                (Name (at_ 41) "x"))
      as (_ & _ & Hclosed);
      [reflexivity | reflexivity | reflexivity | by eexists | reflexivity |].
    apply Hclosed; [simpl; lia | reflexivity | reflexivity].
  - destruct (MakeClosure_bound_to_closure (H := bound_names) 0 100
                (mkContext current_scope) (Name (at_ 51) "k")
                (mkNode 43 NOWHERE [ClosureInfo]) closed_scope
                (Integer (at_ 44) 42))
      as (_ & Hconstant & _);
      [reflexivity | reflexivity | reflexivity | by eexists | reflexivity |].
    apply Hconstant; [simpl; lia | reflexivity].
Defined.

(** X9: [MakeClosure] follows the bindings of names with no bound on
    the number of steps: on two names bound to each other, the jump to
    [retry] is taken again and again, and no amount of fuel gives a
    result. *)
Theorem MakeClosure_cycle `{Symbols} (context : Context)
    (nx ny : Node) (x y : string) :
  Bound context (Name nx x) = Some (Name ny y) ->
  Bound context (Name ny y) = Some (Name nx x) ->
  addr nx <> addr ny ->
  forall (fuel : nat) (next : N),
    MakeClosure fuel next context (Name nx x) = None
    /\ MakeClosure fuel next context (Name ny y) = None.
Proof.
  intros Hxy Hyx Hdiff fuel.
  assert (Hx : same_tree (Name nx x) (Name ny y) = false).
  { unfold same_tree. simpl. by apply N.eqb_neq. }
  assert (Hy : same_tree (Name ny y) (Name nx x) = false).
  { unfold same_tree. simpl. by apply N.eqb_neq. }
  induction fuel as [| fuel IH]; intros next; [done |].
  destruct (IH next) as [IHx IHy].
  split; simpl; rewrite ?Hxy, ?Hyx; simpl; rewrite ?Hx, ?Hy; simpl; done.
Qed.

Lemma MakeClosure_cycle_witness :
  MakeClosure (H := x_is_y) 1000 0 (mkContext current_scope)
    (Name (mkNode 1 0 []) "x") = None
  /\ MakeClosure (H := x_is_y) 1000 0 (mkContext current_scope)
       (Name (mkNode 2 1 []) "y") = None.
Proof.
  apply (MakeClosure_cycle (H := x_is_y) (mkContext current_scope)
           (mkNode 1 0 []) (mkNode 2 1 []) "x" "y"); [reflexivity .. |].
  discriminate.
Defined.

(* ====================================================================== *)
(** * Properties of [Parser::Parse]: the shape of what is parsed          *)
(* ====================================================================== *)

Section ParserTurns.
Import Parser.
Context `{BlockNames} `{SyntaxFiles} `{ParserOptions} `{NullOperand}.

Variables (s : Syntax) (closing : string).
Variable P :
  Syntax -> string -> World -> Stream -> option (option Tree * World * Stream).

(** The update of the result after a token that gives no operand and no
    operator. *)
Lemma advance_nothing (f : Frame) (w : World) (rest : Stream)
    (pos : TreePosition) (p q : Z) :
  left_ f = None ->
  exists f',
    advance s (mkScanned f w rest None p q) pos = (f', w)
    /\ result f' = result f /\ left_ f' = None /\ stack f' = stack f
    /\ done f' = done f.
Proof.
  intros Hleft. destruct f as [r l op stk rp ie ns bc d]. simpl in *. subst l.
  unfold advance. simpl. destruct r as [res |]; simpl; by eexists.
Qed.

(** A new line after a result is an infix operator. *)
Lemma turn_newline (f : Frame) (w : World) (t : Token) (tokens : list Token)
    (ep : TreePosition) (et : string) (res : Shape)
    (stk : list (string * Shape * Z)) :
  between f (Some res) stk ->
  tok t = tokNEWLINE ->
  exists f' w',
    turn P s closing f w (mkStream (t :: tokens) ep et)
      = Some (f', w', mkStream tokens ep et)
    /\ (let out :=
          flush_shapes (default_priority s) (InfixPriority s newline)
            stk res in
        between f' None
          ((newline, out.2, InfixPriority s newline) :: out.1))
    /\ errors w' = errors w.
Proof.
  intros (Hres & Hleft & Hstk & Hinfix & Hdone) Htok.
  destruct f as [r l op stack rp ie ns bc d]. simpl in *. subst l d.
  destruct r as [tree |]; [| done]. injection Hres as <-.
  unfold turn, NextToken. simpl. unfold scan. rewrite Htok. simpl.
  unfold advance. simpl.
  rewrite Z.eqb_refl. simpl.
  pose proof (flush_shape (default_priority s) (InfixPriority s newline)
                stack w tree Hinfix) as [Hf Hi].
  pose proof (flush_errors false (default_priority s)
                (InfixPriority s newline) stack w tree) as He.
  repeat match goal with
    | |- context [if ?c then _ else _] => destruct c; simpl
    end.
  all: destruct (flush false (default_priority s)
                   (InfixPriority s newline) w stack tree)
         as [[stack' tree'] w']; simpl in *.
  all: repeat match goal with
    | |- context [if ?c then _ else _] => destruct c; simpl
    end.
  all: eexists _, _; (split; [reflexivity |]).
  all: split; [| done].
  all: rewrite Hstk in Hf; rewrite <- Hf; simpl.
  all: unfold between; simpl; repeat split; try done; by constructor.
Qed.

(** A new line when nothing has been read yet is dropped. *)
Lemma turn_leading_newline (f : Frame) (w : World) (t : Token)
    (tokens : list Token) (ep : TreePosition) (et : string)
    (stk : list (string * Shape * Z)) :
  between f None stk ->
  tok t = tokNEWLINE ->
  exists f',
    turn P s closing f w (mkStream (t :: tokens) ep et)
      = Some (f', w, mkStream tokens ep et)
    /\ between f' None stk.
Proof.
  intros (Hres & Hleft & Hstk & Hinfix & Hdone) Htok.
  destruct f as [r l op stack rp ie ns bc d]. simpl in *. subst l d.
  destruct r as [|]; [done |].
  unfold turn, NextToken. simpl. unfold scan. rewrite Htok. simpl.
  unfold advance. simpl. eexists. split; [reflexivity |]. by unfold between.
Qed.

Lemma scan_expected_end (f : Frame) (w : World) (t : Token) (rest : Stream) :
  expected_end closing t ->
  scan P s closing f w t rest
  = Some (mkScanned (set_done f) w rest None (default_priority s)
            (default_priority s)).
Proof.
  unfold scan, scan_name, expected_end.
  intros [[Htok Hname] | [[Htok Hc] | [Htok Hc]]].
  - rewrite Hname, !text_eqb_refl.
    by destruct Htok as [-> | [-> | ->]].
  - rewrite Htok, Hc, text_eqb_refl. done.
  - destruct Hc as [-> | ->]; rewrite ?text_eqb_refl; simpl;
      rewrite ?andb_false_r; by destruct Htok as [-> | ->].
Qed.

Lemma turn_expected_end (f : Frame) (w : World) (input : Stream) :
  left_ f = None ->
  expected_end closing (NextToken input).1 ->
  exists f',
    turn P s closing f w input = Some (f', w, (NextToken input).2)
    /\ result f' = result f /\ stack f' = stack f /\ done f' = true.
Proof.
  intros Hleft Hend. unfold turn.
  destruct (NextToken input) as [t' rest]. simpl in *.
  rewrite (scan_expected_end f w t' rest Hend).
  destruct (advance_nothing (set_done f) w rest (ScanPosition t')
              (default_priority s) (default_priority s))
    as (f' & -> & Hr & _ & Hs & Hd); [by destruct f |].
  exists f'. split; [done |]. destruct f; simpl in *. by repeat split.
Qed.

(** An opening parenthesis or an indent, when nothing has been read yet:
    the nested call parses the inside, and the result is the block. *)
Lemma turn_block (f : Frame) (w w1 : World) (t : Token)
    (tokens : list Token) (ep : TreePosition) (et : string)
    (stk : list (string * Shape * Z)) (c : string) (inner : option Tree)
    (rest1 : Stream) :
  let opening :=
    match tok t with tokINDENT => Block_indent | _ => TokenText t end in
  between f None stk ->
  tok t = tokPAROPEN \/ tok t = tokINDENT ->
  IsBlock s opening = Some c ->
  P s c w (mkStream tokens ep et) = Some (inner, w1, rest1) ->
  exists f' w',
    turn P s closing f w (mkStream (t :: tokens) ep et)
      = Some (f', w', rest1)
    /\ between f'
         (Some (SBlock (from_option shape (SName "") inner) opening c)) stk
    /\ errors w' = errors w1.
Proof.
  intros opening (Hres & Hleft & Hstk & Hinfix & Hdone) Htok Hblock Hinner.
  destruct f as [r l op stack rp ie ns bc d]. simpl in *. subst l d.
  destruct r as [|]; [done |].
  unfold turn, NextToken. simpl.
  assert (Hscan : forall f0 rest,
            scan P s closing f0 w t rest = scan_block P s f0 w t rest).
  { intros f0 rest. unfold scan. by destruct Htok as [-> | ->]. }
  rewrite Hscan. unfold scan_block. fold opening. rewrite Hblock. simpl.
  unfold rest_of. simpl. rewrite Hinner.
  destruct inner as [tree |]; simpl; unfold advance; simpl.
  all: repeat match goal with
    | |- context [if ?c then _ else _] => destruct c; simpl
    end.
  all: eexists _, _; (split; [reflexivity |]).
  all: by unfold between.
Qed.

(** What [Parse] returns after the loop when an operator is pending and
    no operand came after it. *)
Lemma finish_pending_shape (f : Frame) (w : World) (op : string)
    (arg : Shape) (p : Z) (stk : list (string * Shape * Z)) :
  result f = None ->
  pending_shape <$> stack f = (op, arg, p) :: stk ->
  Forall (fun prev => opcode prev <> prefix) (stack f) ->
  shape <$> (finish f w).1
  = Some (drain_shapes stk
            (if text_eqb op newline then arg else SPostfix arg (SName op)))
  /\ errors (finish f w).2 = errors w.
Proof.
  intros Hres Hstk Hinfix. split; [| apply finish_errors].
  unfold finish. rewrite Hres.
  destruct (stack f) as [| last below]; [done |].
  injection Hstk as Hop Harg Hp Hbelow.
  inversion Hinfix as [| ? ? _ Hb]; subst.
  destruct (text_eqb (opcode last) newline); simpl.
  - pose proof (drain_shape below w (argument last) Hb) as Hd.
    destruct (drain w below (argument last)) as [tree w']. simpl in *.
    by rewrite Hd.
  - match goal with |- context [drain ?w0 below ?o] =>
      pose proof (drain_shape below w0 o Hb) as Hd;
      destruct (drain w0 below o) as [tree w'] end.
    simpl in *. by rewrite Hd.
Qed.

(** A prefix built on an operand that is no number. *)
Lemma CreatePrefix_shape (w : World) (l r : Tree) (pos : TreePosition) :
  Kind r <> INTEGER -> Kind r <> REAL ->
  shape (CreatePrefix w l r pos).1 = SPrefix (shape l) (shape r)
  /\ errors (CreatePrefix w l r pos).2 = errors w.
Proof.
  intros Hi Hr. split; [| apply CreatePrefix_errors].
  unfold CreatePrefix. destruct signedConstants; [| done].
  destruct l; try done. destruct (text_eqb value "-"); [| done].
  by destruct r.
Qed.

(** The update of the result when an operand follows a result and no
    operator is pending: the result is pushed as a pending prefix. *)
Lemma advance_argument (f : Frame) (w : World) (rest : Stream)
    (pos : TreePosition) (res r : Tree) (pp ip : Z) :
  result f = Some res -> left_ f = None -> stack f = [] ->
  exists f' rp,
    advance s (mkScanned f w rest (Some r) pp ip) pos = (f', w)
    /\ result f' = Some r /\ left_ f' = None
    /\ stack f' = [mkPending prefix res rp pos]
    /\ done f' = done f.
Proof.
  intros Hres Hleft Hstack.
  destruct f as [r0 l op stk rp ie ns bc d]. simpl in *. subst r0 l stk.
  unfold advance. simpl.
  repeat match goal with
    | |- context [if ?c then _ else _] => destruct c; simpl
    end.
  all: by eexists _, _.
Qed.

(** What [Parse] returns after the loop when the stack holds one pending
    prefix. *)
Lemma finish_one_prefix (f : Frame) (w : World) (res r : Tree) (rp : Z)
    (pos : TreePosition) :
  result f = Some r -> stack f = [mkPending prefix res rp pos] ->
  finish f w
  = ((Some (CreatePrefix w res r pos).1), (CreatePrefix w res r pos).2).
Proof.
  intros Hres Hstack. unfold finish. rewrite Hstack, Hres. simpl.
  unfold unstack. simpl. by destruct (CreatePrefix w res r pos).
Qed.

(** A name that follows a result and is no operator is an operand: the
    result so far becomes a pending prefix. *)
Lemma turn_argument_name (f : Frame) (w : World) (t : Token)
    (tokens : list Token) (ep : TreePosition) (et : string) (res : Tree) :
  result f = Some res -> left_ f = None -> stack f = [] -> done f = false ->
  tok t = tokNAME \/ tok t = tokSYMBOL ->
  NameValue t <> closing ->
  HasSpecialSyntax s (NameValue t) = None ->
  ~ infix_wins s (NameValue t) (HadSpaceBefore t) (HadSpaceAfter t) ->
  PostfixPriority s (NameValue t) = default_priority s ->
  exists f' w' n rp,
    turn P s closing f w (mkStream (t :: tokens) ep et)
      = Some (f', w', mkStream tokens ep et)
    /\ result f' = Some (Name n (NameValue t)) /\ left_ f' = None
    /\ stack f' = [mkPending prefix res rp (ScanPosition t)]
    /\ done f' = false /\ errors w' = errors w.
Proof.
  intros Hres Hleft Hstack Hdone Htok Hname Hspecial Hno Hpost.
  unfold turn, NextToken. simpl.
  assert (Hscan : forall rest,
            scan P s closing f w t rest = scan_name P s closing f w t rest).
  { intros rest. unfold scan. by destruct Htok as [-> | ->]. }
  rewrite Hscan. unfold scan_name.
  rewrite (proj2 (text_eqb_false (NameValue t) closing)) by done.
  rewrite Hspecial, Hres, Hleft.
  rewrite (discriminate_otherwise _ _ _ _ Hno), Hpost, Z.eqb_refl. simpl.
  match goal with
  | |- context [advance s (mkScanned ?f0 ?w0 ?rest0 (Some ?r0) ?pp ?ip) ?pos] =>
      destruct (advance_argument f0 w0 rest0 pos res r0 pp ip)
        as (f' & rp & -> & Hr & Hl & Hs & Hd)
  end.
  - by destruct (_ && _); destruct f.
  - by destruct (_ && _); destruct f.
  - by destruct (_ && _); destruct f.
  - eexists f', _, _, rp. split; [reflexivity |].
    repeat split; try done.
    rewrite Hd. by destruct (_ && _); destruct f.
Qed.

(** An integer that follows a result is an operand as well. *)
Lemma turn_argument_integer (f : Frame) (w : World) (t : Token)
    (tokens : list Token) (ep : TreePosition) (et : string) (res : Tree) :
  result f = Some res -> left_ f = None -> stack f = [] -> done f = false ->
  tok t = tokINTEGER ->
  exists f' w' n rp,
    turn P s closing f w (mkStream (t :: tokens) ep et)
      = Some (f', w', mkStream tokens ep et)
    /\ result f' = Some (Integer n (to_longlong (IntegerValue t)))
    /\ left_ f' = None
    /\ stack f' = [mkPending prefix res rp (ScanPosition t)]
    /\ done f' = false /\ errors w' = errors w.
Proof.
  intros Hres Hleft Hstack Hdone Htok.
  unfold turn, NextToken. simpl. unfold scan. rewrite Htok.
  unfold leaf. simpl.
  match goal with
  | |- context [advance s (mkScanned ?f0 ?w0 ?rest0 (Some ?r0) ?pp ?ip) ?pos] =>
      destruct (advance_argument f0 w0 rest0 pos res r0 pp ip)
        as (f' & rp & -> & Hr & Hl & Hs & Hd); [done .. |]
  end.
  eexists f', _, _, rp. split; [reflexivity |]. by rewrite Hd.
Qed.

(** What is known of the frame between two tokens. *)
Lemma between_result (f : Frame) (res : Shape) :
  between f (Some res) [] ->
  exists tree,
    result f = Some tree /\ shape tree = res /\ left_ f = None
    /\ stack f = [] /\ done f = false.
Proof.
  intros (Hres & Hleft & Hstk & _ & Hdone).
  destruct (result f) as [tree |]; [| done]. injection Hres as <-.
  exists tree. repeat split; try done. by destruct (stack f).
Qed.

(** A whole call, from its loop. *)
Lemma parse_with_loop (fuel : nat) (w : World) (input : Stream)
    (f' : Frame) (w' : World) (rest : Stream) :
  parse_loop fuel s closing (enter s closing) w input = Some (f', w', rest) ->
  Parse fuel s closing w input
  = Some ((finish f' w').1, (finish f' w').2, rest).
Proof.
  intros Hloop. unfold Parse, parse_with. rewrite Hloop.
  by destruct (finish f' w').
Qed.

Lemma between_enter : between (enter s closing) None [].
Proof. unfold between, enter. simpl. repeat split; by constructor. Qed.
End ParserTurns.

Section ParserShapesMore.
Import Parser.
Context `{BlockNames} `{SyntaxFiles} `{ParserOptions} `{NullOperand}.

(** X10: on an empty input, [Parse] at top level returns a null pointer,
    makes no node and reports nothing. *)
Theorem Parse_empty_input (s : Syntax) (w : World) (fuel : nat)
    (ep : TreePosition) (et : string) :
  Parse (S fuel) s "" w (mkStream [] ep et) = Some (None, w, mkStream [] ep et).
Proof.
  destruct (turn_expected_end s "" (parse_with (parse_loop fuel))
              (enter s "") w (mkStream [] ep et) eq_refl)
    as (f' & Hturn & Hres & Hstack & Hdone).
  { right. right. split; [by left | by left]. }
  rewrite (parse_with_loop s "" (S fuel) w _ f' w (mkStream [] ep et)).
  - unfold finish. by rewrite Hstack, Hres.
  - by apply parse_loop_last.
Qed.

(** X11: priorities in [a op1 b op2 c], where both operators are taken
    as infix: the second operator binds its operands first when its
    priority is above the priority of the first one with the low bit
    cleared; otherwise the first operator is reduced before the second
    one is pushed. *)
Theorem Parse_precedence (s : Syntax) (ta t1 tb t2 tc : Token) (w : World)
    (fuel : nat) (ep : TreePosition) (et : string) :
  plain_name s ta -> plain_name s tb -> plain_name s tc ->
  infix_token s t1 -> infix_token s t2 ->
  let p := InfixPriority s (NameValue t1) in
  let q := InfixPriority s (NameValue t2) in
  let a := SName (NameValue ta) in
  let b := SName (NameValue tb) in
  let c := SName (NameValue tc) in
  exists tree w',
    Parse (6 + fuel) s "" w (mkStream [ta; t1; tb; t2; tc] ep et)
      = Some (Some tree, w', mkStream [] ep et)
    /\ errors w' = errors w
    /\ shape tree =
         if q >? clear_low_bit p
         then SInfix (NameValue t1) a (SInfix (NameValue t2) b c)
         else SInfix (NameValue t2) (SInfix (NameValue t1) a b) c.
Proof.
  intros (Ka & Na & Sa) (Kb & Nb & Sb) (Kc & Nc & Sc)
    [(K1 & N1 & S1) I1] [(K2 & N2 & S2) I2] p q a b c.
  pose proof I1 as [D1 _].
  apply discriminate_AsInfix in I1, I2.
  pose (P := fun n => parse_with (parse_loop n)).
  destruct (turn_operand s "" (P (5 + fuel)%nat) _ w ta [t1; tb; t2; tc]
              ep et _ (between_enter s "") Ka Na Sa)
    as (f1 & w1 & Ht1 & B1 & E1).
  destruct (turn_infix s "" (P (4 + fuel)%nat) _ w1 t1 [tb; t2; tc]
              ep et _ _ B1 K1 N1 N1 S1 I1)
    as (f2 & w2 & Ht2 & B2 & E2).
  simpl in B2.
  destruct (turn_operand s "" (P (3 + fuel)%nat) _ w2 tb [t2; tc] ep et _ B2
              Kb Nb Sb)
    as (f3 & w3 & Ht3 & B3 & E3).
  destruct (turn_infix s "" (P (2 + fuel)%nat) _ w3 t2 [tc] ep et _ _ B3
              K2 N2 N2 S2 I2)
    as (f4 & w4 & Ht4 & B4 & E4).
  simpl in B4. fold p q in B4.
  rewrite (proj2 (Z.eqb_neq p (default_priority s))) in B4 by done.
  simpl in B4.
  destruct (turn_operand s "" (P (1 + fuel)%nat) _ w4 tc [] ep et _ B4
              Kc Nc Sc)
    as (f5 & w5 & Ht5 & B5 & E5).
  destruct (turn_end s "" (P fuel) f5 w5 ep et _ _ eq_refl B5)
    as (f6 & w6 & Ht6 & D6 & R6 & S6 & F6 & E6).
  assert (Hloop :
    parse_loop (6 + fuel) s "" (enter s "") w
      (mkStream [ta; t1; tb; t2; tc] ep et)
    = Some (f6, w6, mkStream [] ep et)).
  { unfold P in *.
    change (6 + fuel)%nat with (S (5 + fuel)).
    rewrite (parse_loop_next s "" (5 + fuel) _ _ _ _ _ _ Ht1
               (between_not_done _ _ _ B1)).
    change (5 + fuel)%nat with (S (4 + fuel)).
    rewrite (parse_loop_next s "" (4 + fuel) _ _ _ _ _ _ Ht2
               (between_not_done _ _ _ B2)).
    change (4 + fuel)%nat with (S (3 + fuel)).
    rewrite (parse_loop_next s "" (3 + fuel) _ _ _ _ _ _ Ht3
               (between_not_done _ _ _ B3)).
    change (3 + fuel)%nat with (S (2 + fuel)).
    rewrite (parse_loop_next s "" (2 + fuel) _ _ _ _ _ _ Ht4
               (between_not_done _ _ _ B4)).
    change (2 + fuel)%nat with (S (1 + fuel)).
    rewrite (parse_loop_next s "" (1 + fuel) _ _ _ _ _ _ Ht5
               (between_not_done _ _ _ B5)).
    change (1 + fuel)%nat with (S fuel).
    apply (parse_loop_last fuel s "" _ _ _ _ _ _ Ht6 D6). }
  rewrite (parse_with_loop s "" _ w _ _ _ _ Hloop).
  pose proof (finish_shape f6 w6 _ _ R6 S6 F6) as Hshape.
  pose proof (finish_errors f6 w6) as Herr.
  destruct (finish f6 w6) as [[tree |] w7]; [| done].
  simpl in Hshape, Herr. exists tree, w7. split; [done |].
  split; [congruence |].
  injection Hshape as ->. by destruct (q >? clear_low_bit p).
Qed.
(** X12: two names in a row, where the second one is no operator, are
    an application: the first name is pushed as a pending prefix and the
    end of the input builds the prefix. *)
Theorem Parse_application (s : Syntax) (tf tx : Token) (w : World)
    (fuel : nat) (ep : TreePosition) (et : string) :
  plain_name s tf -> plain_name s tx ->
  ~ infix_wins s (NameValue tx) (HadSpaceBefore tx) (HadSpaceAfter tx) ->
  PostfixPriority s (NameValue tx) = default_priority s ->
  exists tree w',
    Parse (3 + fuel) s "" w (mkStream [tf; tx] ep et)
      = Some (Some tree, w', mkStream [] ep et)
    /\ errors w' = errors w
    /\ shape tree = SPrefix (SName (NameValue tf)) (SName (NameValue tx)).
Proof.
  intros (Kf & Nf & Sf) (Kx & Nx & Sx) Hno Hpost.
  pose (P := fun n => parse_with (parse_loop n)).
  destruct (turn_operand s "" (P (2 + fuel)%nat) _ w tf [tx]
              ep et _ (between_enter s "") Kf Nf Sf)
    as (f1 & w1 & Ht1 & B1 & E1).
  destruct (between_result _ _ B1) as (tree1 & R1 & Sh1 & L1 & St1 & D1).
  destruct (turn_argument_name s "" (P (1 + fuel)%nat) f1 w1 tx [] ep et
              tree1 R1 L1 St1 D1 Kx Nx Sx Hno Hpost)
    as (f2 & w2 & n & rp & Ht2 & R2 & L2 & St2 & D2 & E2).
  destruct (turn_expected_end s "" (P fuel) f2 w2 (mkStream [] ep et) L2)
    as (f3 & Ht3 & R3 & St3 & D3).
  { right. right. split; by left. }
  assert (Hloop :
    parse_loop (3 + fuel) s "" (enter s "") w (mkStream [tf; tx] ep et)
    = Some (f3, w2, mkStream [] ep et)).
  { unfold P in *.
    change (3 + fuel)%nat with (S (2 + fuel)).
    rewrite (parse_loop_next s "" (2 + fuel) _ _ _ _ _ _ Ht1 D1).
    change (2 + fuel)%nat with (S (1 + fuel)).
    rewrite (parse_loop_next s "" (1 + fuel) _ _ _ _ _ _ Ht2 D2).
    change (1 + fuel)%nat with (S fuel).
    apply (parse_loop_last fuel s "" _ _ _ _ _ _ Ht3 D3). }
  rewrite (parse_with_loop s "" _ w _ _ _ _ Hloop).
  rewrite R2 in R3. rewrite St2 in St3.
  rewrite (finish_one_prefix f3 w2 _ _ _ _ R3 St3).
  destruct (CreatePrefix_shape w2 tree1 (Name n (NameValue tx))
              (ScanPosition tx)) as [Hshape Herr]; [done .. |].
  cbn [fst snd].
  eexists _, _. split; [reflexivity |]. split; [congruence |].
  by rewrite Hshape, Sh1.
Qed.

(** X13: a minus sign before an integer.  With signed constants, the
    end of the input builds no prefix: the integer is negated in place
    (the negation wraps on 64 bits); without them, the prefix is built. *)
Theorem Parse_signed_constant (s : Syntax) (tm ti : Token) (w : World)
    (fuel : nat) (ep : TreePosition) (et : string) :
  plain_name s tm -> NameValue tm = "-" -> tok ti = tokINTEGER ->
  exists tree w',
    Parse (3 + fuel) s "" w (mkStream [tm; ti] ep et)
      = Some (Some tree, w', mkStream [] ep et)
    /\ errors w' = errors w
    /\ shape tree =
         if signedConstants
         then SInteger (to_longlong (- to_longlong (IntegerValue ti)))
         else SPrefix (SName "-") (SInteger (to_longlong (IntegerValue ti))).
Proof.
  intros (Km & Nm & Sm) Hminus Ki.
  pose (P := fun n => parse_with (parse_loop n)).
  destruct (turn_operand s "" (P (2 + fuel)%nat) _ w tm [ti]
              ep et _ (between_enter s "") Km Nm Sm)
    as (f1 & w1 & Ht1 & B1 & E1).
  destruct (between_result _ _ B1) as (tree1 & R1 & Sh1 & L1 & St1 & D1).
  destruct (turn_argument_integer s "" (P (1 + fuel)%nat) f1 w1 ti [] ep et
              tree1 R1 L1 St1 D1 Ki)
    as (f2 & w2 & n & rp & Ht2 & R2 & L2 & St2 & D2 & E2).
  destruct (turn_expected_end s "" (P fuel) f2 w2 (mkStream [] ep et) L2)
    as (f3 & Ht3 & R3 & St3 & D3).
  { right. right. split; by left. }
  assert (Hloop :
    parse_loop (3 + fuel) s "" (enter s "") w (mkStream [tm; ti] ep et)
    = Some (f3, w2, mkStream [] ep et)).
  { unfold P in *.
    change (3 + fuel)%nat with (S (2 + fuel)).
    rewrite (parse_loop_next s "" (2 + fuel) _ _ _ _ _ _ Ht1 D1).
    change (2 + fuel)%nat with (S (1 + fuel)).
    rewrite (parse_loop_next s "" (1 + fuel) _ _ _ _ _ _ Ht2 D2).
    change (1 + fuel)%nat with (S fuel).
    apply (parse_loop_last fuel s "" _ _ _ _ _ _ Ht3 D3). }
  rewrite (parse_with_loop s "" _ w _ _ _ _ Hloop).
  rewrite R2 in R3. rewrite St2 in St3.
  rewrite (finish_one_prefix f3 w2 _ _ _ _ R3 St3).
  pose proof (CreatePrefix_errors w2 tree1
                (Integer n (to_longlong (IntegerValue ti))) (ScanPosition ti))
    as Herr.
  cbn [fst snd].
  eexists _, _. split; [reflexivity |]. split; [congruence |].
  unfold CreatePrefix. rewrite Hminus in Sh1.
  destruct tree1; try discriminate. injection Sh1 as ->.
  by destruct signedConstants.
Qed.
(** X14: operators and new lines at the edges of the input.  An infix
    operator that nothing follows is turned into a postfix operator on
    what is before it; a new line that nothing follows, and a new line
    before anything has been read, leave no trace in the tree. *)
Theorem Parse_trailing_operator (s : Syntax) (ta t1 tn : Token) (w : World)
    (fuel : nat) (ep : TreePosition) (et : string) :
  plain_name s ta -> tok tn = tokNEWLINE ->
  let parsed (tokens : list Token) (expected : Shape) :=
    exists tree w',
      Parse (3 + fuel) s "" w (mkStream tokens ep et)
        = Some (Some tree, w', mkStream [] ep et)
      /\ errors w' = errors w /\ shape tree = expected in
  (infix_token s t1 -> NameValue t1 <> newline ->
   parsed [ta; t1] (SPostfix (SName (NameValue ta)) (SName (NameValue t1))))
  /\ parsed [ta; tn] (SName (NameValue ta))
  /\ parsed [tn; ta] (SName (NameValue ta)).
Proof.
  intros (Ka & Na & Sa) Kn parsed.
  pose (P := fun n => parse_with (parse_loop n)).
  assert (Hend : forall f w0 op arg p,
    between f None [(op, arg, p)] ->
    exists f',
      turn (P fuel) s "" f w0 (mkStream [] ep et)
        = Some (f', w0, mkStream [] ep et)
      /\ done f' = true
      /\ shape <$> (finish f' w0).1
         = Some (if text_eqb op newline then arg else SPostfix arg (SName op))
      /\ errors (finish f' w0).2 = errors w0).
  { intros f w0 op arg p (Hres & Hleft & Hstk & Hinfix & Hdone).
    destruct (turn_expected_end s "" (P fuel) f w0 (mkStream [] ep et)
                Hleft)
      as (f' & Ht & R & St & D).
    { right. right. split; by left. }
    exists f'. split; [done |]. split; [done |].
    apply (finish_pending_shape f' w0 op arg p []).
    - rewrite R. by destruct (result f).
    - by rewrite St.
    - by rewrite St. }
  destruct (turn_operand s "" (P (2 + fuel)%nat) _ w ta [t1]
              ep et _ (between_enter s "") Ka Na Sa)
    as (f1 & w1 & Ht1 & B1 & E1).
  destruct (turn_operand s "" (P (2 + fuel)%nat) _ w ta [tn]
              ep et _ (between_enter s "") Ka Na Sa)
    as (f1' & w1' & Ht1' & B1' & E1').
  repeat split.
  - intros [(K1 & N1 & S1) I1%discriminate_AsInfix] Hnl.
    destruct (turn_infix s "" (P (1 + fuel)%nat) _ w1 t1 [] ep et _ _ B1
                K1 N1 N1 S1 I1)
      as (f2 & w2 & Ht2 & B2 & E2).
    simpl in B2.
    destruct (Hend f2 w2 _ _ _ B2) as (f3 & Ht3 & D3 & Hshape & Herr).
    assert (Hloop :
      parse_loop (3 + fuel) s "" (enter s "") w (mkStream [ta; t1] ep et)
      = Some (f3, w2, mkStream [] ep et)).
    { unfold P in *.
      change (3 + fuel)%nat with (S (2 + fuel)).
      rewrite (parse_loop_next s "" (2 + fuel) _ _ _ _ _ _ Ht1
                 (between_not_done _ _ _ B1)).
      change (2 + fuel)%nat with (S (1 + fuel)).
      rewrite (parse_loop_next s "" (1 + fuel) _ _ _ _ _ _ Ht2
                 (between_not_done _ _ _ B2)).
      change (1 + fuel)%nat with (S fuel).
      apply (parse_loop_last fuel s "" _ _ _ _ _ _ Ht3 D3). }
    unfold parsed. rewrite (parse_with_loop s "" _ w _ _ _ _ Hloop).
    rewrite (proj2 (text_eqb_false _ _) Hnl) in Hshape.
    destruct (finish f3 w2) as [[tree |] w3]; [| done].
    simpl in *. injection Hshape as Hshape.
    exists tree, w3. split; [done |]. split; [congruence | done].
  - destruct (turn_newline s "" (P (1 + fuel)%nat) _ w1' tn [] ep et _ _ B1'
                Kn)
      as (f2 & w2 & Ht2 & B2 & E2).
    simpl in B2.
    destruct (Hend f2 w2 _ _ _ B2) as (f3 & Ht3 & D3 & Hshape & Herr).
    assert (Hloop :
      parse_loop (3 + fuel) s "" (enter s "") w (mkStream [ta; tn] ep et)
      = Some (f3, w2, mkStream [] ep et)).
    { unfold P in *.
      change (3 + fuel)%nat with (S (2 + fuel)).
      rewrite (parse_loop_next s "" (2 + fuel) _ _ _ _ _ _ Ht1'
                 (between_not_done _ _ _ B1')).
      change (2 + fuel)%nat with (S (1 + fuel)).
      rewrite (parse_loop_next s "" (1 + fuel) _ _ _ _ _ _ Ht2
                 (between_not_done _ _ _ B2)).
      change (1 + fuel)%nat with (S fuel).
      apply (parse_loop_last fuel s "" _ _ _ _ _ _ Ht3 D3). }
    unfold parsed. rewrite (parse_with_loop s "" _ w _ _ _ _ Hloop).
    rewrite text_eqb_refl in Hshape.
    destruct (finish f3 w2) as [[tree |] w3]; [| done].
    simpl in *. injection Hshape as Hshape.
    exists tree, w3. split; [done |]. split; [congruence | done].
  - destruct (turn_leading_newline s "" (P (2 + fuel)%nat) _ w tn [ta] ep et
                _ (between_enter s "") Kn)
      as (f1n & Ht1n & B1n).
    destruct (turn_operand s "" (P (1 + fuel)%nat) _ w ta []
                ep et _ B1n Ka Na Sa)
      as (f2 & w2 & Ht2 & B2 & E2).
    destruct (turn_end s "" (P fuel) f2 w2 ep et _ _ eq_refl B2)
      as (f3 & w3 & Ht3 & D3 & R3 & S3 & F3 & E3).
    assert (Hloop :
      parse_loop (3 + fuel) s "" (enter s "") w (mkStream [tn; ta] ep et)
      = Some (f3, w3, mkStream [] ep et)).
    { unfold P in *.
      change (3 + fuel)%nat with (S (2 + fuel)).
      rewrite (parse_loop_next s "" (2 + fuel) _ _ _ _ _ _ Ht1n
                 (between_not_done _ _ _ B1n)).
      change (2 + fuel)%nat with (S (1 + fuel)).
      rewrite (parse_loop_next s "" (1 + fuel) _ _ _ _ _ _ Ht2
                 (between_not_done _ _ _ B2)).
      change (1 + fuel)%nat with (S fuel).
      apply (parse_loop_last fuel s "" _ _ _ _ _ _ Ht3 D3). }
    unfold parsed. rewrite (parse_with_loop s "" _ w _ _ _ _ Hloop).
    pose proof (finish_shape f3 w3 _ _ R3 S3 F3) as Hshape.
    pose proof (finish_errors f3 w3) as Herr.
    destruct (finish f3 w3) as [[tree |] w4]; [| done].
    simpl in *. injection Hshape as Hshape.
    exists tree, w4. split; [done |]. split; [congruence | done].
Qed.
(** X15: a block.  With opening and closing delimiters declared by the
    tables, [open a close] is the block of [a], and [open close] is the
    block of the name that is the empty text; the closing delimiter ends
    the nested call without a message. *)
Theorem Parse_block (s : Syntax) (topen ta tclose : Token) (c : string)
    (w : World) (fuel : nat) (ep : TreePosition) (et : string) :
  tok topen = tokPAROPEN -> IsBlock s (TokenText topen) = Some c ->
  tok tclose = tokPARCLOSE -> NameValue tclose = c ->
  let parsed (tokens : list Token) (inside : Shape) :=
    exists tree w',
      Parse (3 + fuel) s "" w (mkStream tokens ep et)
        = Some (Some tree, w', mkStream [] ep et)
      /\ errors w' = errors w
      /\ shape tree = SBlock inside (TokenText topen) c in
  (plain_name s ta -> NameValue ta <> c ->
   parsed [topen; ta; tclose] (SName (NameValue ta)))
  /\ parsed [topen; tclose] (SName "").
Proof.
  intros Kopen Hblock Kclose Hclose parsed.
  pose (P := fun n => parse_with (parse_loop n)).
  assert (Hopening :
    match tok topen with tokINDENT => Block_indent | _ => TokenText topen end
    = TokenText topen) by (by rewrite Kopen).
  assert (Houter : forall tokens inner w1,
    Parse (2 + fuel) s c w (mkStream tokens ep et)
      = Some (inner, w1, mkStream [] ep et) ->
    errors w1 = errors w ->
    parsed (topen :: tokens) (from_option shape (SName "") inner)).
  { intros tokens inner w1 Hinner Herr1.
    destruct (turn_block s "" (P (2 + fuel)%nat) _ w w1 topen tokens ep et _
                c inner _ (between_enter s "") (or_introl Kopen)
                ltac:(by rewrite Hopening) Hinner)
      as (f1 & w2 & Ht1 & B1 & E1).
    rewrite Hopening in B1.
    destruct (turn_end s "" (P (1 + fuel)%nat) f1 w2 ep et _ _ eq_refl B1)
      as (f2 & w3 & Ht2 & D2 & R2 & S2 & F2 & E2).
    assert (Hloop :
      parse_loop (3 + fuel) s "" (enter s "") w
        (mkStream (topen :: tokens) ep et)
      = Some (f2, w3, mkStream [] ep et)).
    { unfold P in *.
      change (3 + fuel)%nat with (S (2 + fuel)).
      rewrite (parse_loop_next s "" (2 + fuel) _ _ _ _ _ _ Ht1
                 (between_not_done _ _ _ B1)).
      change (2 + fuel)%nat with (S (1 + fuel)).
      apply (parse_loop_last (1 + fuel) s "" _ _ _ _ _ _ Ht2 D2). }
    unfold parsed. rewrite (parse_with_loop s "" _ w _ _ _ _ Hloop).
    pose proof (finish_shape f2 w3 _ _ R2 S2 F2) as Hshape.
    pose proof (finish_errors f2 w3) as Herr.
    destruct (finish f2 w3) as [[tree |] w4]; [| done].
    simpl in *. injection Hshape as Hshape.
    exists tree, w4. split; [done |]. split; [congruence | done]. }
  assert (Hstop : forall n f w0 tokens,
    left_ f = None ->
    exists f',
      turn (P n) s c f w0 (mkStream (tclose :: tokens) ep et)
        = Some (f', w0, mkStream tokens ep et)
      /\ result f' = result f /\ stack f' = stack f /\ done f' = true).
  { intros n f w0 tokens Hleft.
    apply (turn_expected_end s c (P n) f w0
             (mkStream (tclose :: tokens) ep et) Hleft).
    left. split; [by right; right | done]. }
  split.
  - intros (Ka & Na & Sa) Hac.
    destruct (turn_operand s c (P (1 + fuel)%nat) _ w ta [tclose]
                ep et _ (between_enter s c) Ka Hac Sa)
      as (f1 & w1 & Ht1 & B1 & E1).
    destruct (between_result _ _ B1) as (tree1 & R1 & Sh1 & L1 & St1 & D1).
    destruct (Hstop fuel f1 w1 [] L1) as (f2 & Ht2 & R2 & St2 & D2).
    assert (Hloop :
      parse_loop (2 + fuel) s c (enter s c) w (mkStream [ta; tclose] ep et)
      = Some (f2, w1, mkStream [] ep et)).
    { unfold P in *.
      change (2 + fuel)%nat with (S (1 + fuel)).
      rewrite (parse_loop_next s c (1 + fuel) _ _ _ _ _ _ Ht1 D1).
      change (1 + fuel)%nat with (S fuel).
      apply (parse_loop_last fuel s c _ _ _ _ _ _ Ht2 D2). }
    pose proof (parse_with_loop s c _ w _ _ _ _ Hloop) as Hinner.
    unfold finish in Hinner. rewrite St2, St1, R2, R1 in Hinner.
    simpl in Hinner.
    rewrite <- Sh1. by apply (Houter [ta; tclose] (Some tree1) w1).
  - destruct (Hstop (1 + fuel)%nat (enter s c) w [] eq_refl)
      as (f1 & Ht1 & R1 & St1 & D1).
    assert (Hloop :
      parse_loop (2 + fuel) s c (enter s c) w (mkStream [tclose] ep et)
      = Some (f1, w, mkStream [] ep et)).
    { unfold P in *.
      change (2 + fuel)%nat with (S (1 + fuel)).
      apply (parse_loop_last (1 + fuel) s c _ _ _ _ _ _ Ht1 D1). }
    pose proof (parse_with_loop s c _ w _ _ _ _ Hloop) as Hinner.
    unfold finish in Hinner. rewrite St1, R1 in Hinner. simpl in Hinner.
    by apply (Houter [tclose] None w).
Qed.
(** X16: how the loop of [Parse (closing)] ends.  On the closing text
    (as a name, a symbol or a closing parenthesis), on the unindent that
    closes an indent block, and on the end of the input at top level or
    in an indent block, the loop stops at once, reports nothing, makes no
    node and leaves the result and the stack to the code after the loop.
    On an unindent while another closing is expected, it reports the
    mismatched indentation and stops as well. *)
Theorem Parse_closing (fuel : nat) (s : Syntax) (closing : string)
    (f : Frame) (w : World) (input : Stream) :
  let t := (NextToken input).1 in
  let rest := (NextToken input).2 in
  (left_ f = None -> expected_end closing t ->
   exists f',
     parse_loop (S fuel) s closing f w input = Some (f', w, rest)
     /\ result f' = result f /\ stack f' = stack f)
  /\ (tok t = tokUNINDENT -> closing <> Block_unindent ->
      exists f' w',
        parse_loop (S fuel) s closing f w input = Some (f', w', rest)
        /\ errors w'
           = (errors w
              ++ [mkError "Mismatched identation, expected $1"
                    (ScanPosition t) [ArgText closing]])%list).
Proof.
  intros t rest. split.
  - intros Hleft Hend.
    destruct (turn_expected_end s closing (parse_with (parse_loop fuel))
                f w input Hleft Hend) as (f' & Ht & R & St & D).
    exists f'. split; [by apply parse_loop_last | done].
  - intros Htok Hne.
    destruct (turn_stop (parse_with (parse_loop fuel)) s closing f
                w (Log w (mkError "Mismatched identation, expected $1"
                            (ScanPosition t) [ArgText closing])) input)
      as (f' & w' & Ht & D & E).
    { fold t rest. unfold scan. rewrite Htok.
      by rewrite (proj2 (text_eqb_false closing Block_unindent)) by done. }
    exists f', w'. split; [by apply parse_loop_last | done].
Qed.
End ParserShapesMore.

Lemma Parse_precedence_witness :
  let tok_ k pos txt := plain_token k pos txt true true in
  let parse op1 op2 :=
    Parser.Parse (H := sentinels) (H0 := no_files)
      (H1 := plain_options) (H2 := a_null_operand)
      6 arith_syntax "" (Parser.mkWorld [] 0)
      (mkStream [tok_ tokNAME 0 "a"; tok_ tokSYMBOL 2 op1; tok_ tokNAME 4 "b";
                 tok_ tokSYMBOL 6 op2; tok_ tokNAME 8 "c"] 9 "") in
  (exists tree w',
     parse "+" "*" = Some (Some tree, w', mkStream [] 9 "")
     /\ Parser.errors w' = []
     /\ shape tree
        = SInfix "+" (SName "a") (SInfix "*" (SName "b") (SName "c")))
  /\ (exists tree w',
        parse "*" "+" = Some (Some tree, w', mkStream [] 9 "")
        /\ Parser.errors w' = []
        /\ shape tree
           = SInfix "+" (SInfix "*" (SName "a") (SName "b")) (SName "c")).
Proof.
  assert (Hname : forall k pos txt,
    k = tokNAME \/ k = tokSYMBOL -> txt <> "" ->
    plain_name (H := no_files) arith_syntax (plain_token k pos txt true true)).
  { intros k pos txt Hk Htxt. by repeat split. }
  assert (Hop : forall pos txt,
    txt = "+" \/ txt = "*" ->
    infix_token (H := no_files) arith_syntax
      (plain_token tokSYMBOL pos txt true true)).
  { intros pos txt Htxt. split.
    - apply Hname; [by right | by destruct Htxt as [-> | ->]].
    - split; [by destruct Htxt as [-> | ->] | by right; right]. }
  split.
  - apply (Parse_precedence (H := sentinels) (H0 := no_files)
             (H1 := plain_options) (H2 := a_null_operand) arith_syntax
             (plain_token tokNAME 0 "a" true true)
             (plain_token tokSYMBOL 2 "+" true true)
             (plain_token tokNAME 4 "b" true true)
             (plain_token tokSYMBOL 6 "*" true true)
             (plain_token tokNAME 8 "c" true true)
             (Parser.mkWorld [] 0) 0 9 "");
      first [ apply Hname; [by left | done] | apply Hop; auto ].
  - apply (Parse_precedence (H := sentinels) (H0 := no_files)
             (H1 := plain_options) (H2 := a_null_operand) arith_syntax
             (plain_token tokNAME 0 "a" true true)
             (plain_token tokSYMBOL 2 "*" true true)
             (plain_token tokNAME 4 "b" true true)
             (plain_token tokSYMBOL 6 "+" true true)
             (plain_token tokNAME 8 "c" true true)
             (Parser.mkWorld [] 0) 0 9 "");
      first [ apply Hname; [by left | done] | apply Hop; auto ].
Defined.

Lemma Parse_application_witness :
  exists tree w',
    Parser.Parse (H := sentinels) (H0 := no_files)
      (H1 := plain_options) (H2 := a_null_operand)
      3 arith_syntax "" (Parser.mkWorld [] 0)
      (mkStream [plain_token tokNAME 0 "sin" false true;
                 plain_token tokNAME 4 "x" true false] 5 "")
    = Some (Some tree, w', mkStream [] 5 "")
    /\ Parser.errors w' = []
    /\ shape tree = SPrefix (SName "sin") (SName "x").
Proof.
  apply (Parse_application (H := sentinels) (H0 := no_files)
           (H1 := plain_options) (H2 := a_null_operand) arith_syntax
           (plain_token tokNAME 0 "sin" false true)
           (plain_token tokNAME 4 "x" true false)
           (Parser.mkWorld [] 0) 0 5 "").
  - by repeat split; [left |].
  - by repeat split; [left |].
  - intros [Hp _]. by apply Hp.
  - reflexivity.
Defined.

Lemma Parse_signed_constant_witness :
  let input :=
    mkStream [plain_token tokSYMBOL 0 "-" false false;
              mkToken tokINTEGER 1 "" "" "3" 3 0 false false "" ""] 2 "" in
  (exists tree w',
     Parser.Parse (H := sentinels) (H0 := no_files)
       (H1 := signed_options) (H2 := a_null_operand)
       3 arith_syntax "" (Parser.mkWorld [] 0) input
     = Some (Some tree, w', mkStream [] 2 "")
     /\ Parser.errors w' = []
     /\ shape tree = SInteger (-3))
  /\ (exists tree w',
        Parser.Parse (H := sentinels) (H0 := no_files)
          (H1 := plain_options) (H2 := a_null_operand)
          3 arith_syntax "" (Parser.mkWorld [] 0) input
        = Some (Some tree, w', mkStream [] 2 "")
        /\ Parser.errors w' = []
        /\ shape tree = SPrefix (SName "-") (SInteger 3)).
Proof.
  split.
  - apply (Parse_signed_constant (H := sentinels) (H0 := no_files)
             (H1 := signed_options) (H2 := a_null_operand) arith_syntax
             (plain_token tokSYMBOL 0 "-" false false)
             (mkToken tokINTEGER 1 "" "" "3" 3 0 false false "" "")
             (Parser.mkWorld [] 0) 0 2 "");
      [by repeat split; [right |] | reflexivity | reflexivity].
  - apply (Parse_signed_constant (H := sentinels) (H0 := no_files)
             (H1 := plain_options) (H2 := a_null_operand) arith_syntax
             (plain_token tokSYMBOL 0 "-" false false)
             (mkToken tokINTEGER 1 "" "" "3" 3 0 false false "" "")
             (Parser.mkWorld [] 0) 0 2 "");
      [by repeat split; [right |] | reflexivity | reflexivity].
Defined.

Lemma Parse_trailing_operator_witness :
  let parse tokens :=
    Parser.Parse (H := sentinels) (H0 := no_files)
      (H1 := plain_options) (H2 := a_null_operand)
      3 arith_syntax "" (Parser.mkWorld [] 0) (mkStream tokens 9 "") in
  let a := plain_token tokNAME 0 "a" true true in
  let plus := plain_token tokSYMBOL 2 "+" true true in
  let nl := plain_token tokNEWLINE 2 "" false false in
  (exists tree w',
     parse [a; plus] = Some (Some tree, w', mkStream [] 9 "")
     /\ Parser.errors w' = []
     /\ shape tree = SPostfix (SName "a") (SName "+"))
  /\ (exists tree w',
        parse [a; nl] = Some (Some tree, w', mkStream [] 9 "")
        /\ Parser.errors w' = [] /\ shape tree = SName "a")
  /\ (exists tree w',
        parse [nl; a] = Some (Some tree, w', mkStream [] 9 "")
        /\ Parser.errors w' = [] /\ shape tree = SName "a").
Proof.
  destruct (Parse_trailing_operator (H := sentinels) (H0 := no_files)
              (H1 := plain_options) (H2 := a_null_operand) arith_syntax
              (plain_token tokNAME 0 "a" true true)
              (plain_token tokSYMBOL 2 "+" true true)
              (plain_token tokNEWLINE 2 "" false false)
              (Parser.mkWorld [] 0) 0 9 "")
    as (Hop & Hend & Hstart).
  - by repeat split; [left |].
  - reflexivity.
  - split; [| split; [exact Hend | exact Hstart]].
    apply Hop; [| discriminate].
    split; [by repeat split; [right |] |].
    split; [discriminate | by right; right].
Defined.

Lemma Parse_block_witness :
  let parse tokens :=
    Parser.Parse (H := sentinels) (H0 := no_files)
      (H1 := plain_options) (H2 := a_null_operand)
      3 paren_syntax "" (Parser.mkWorld [] 0) (mkStream tokens 9 "") in
  let lpar := plain_token tokPAROPEN 0 "(" false false in
  let a := plain_token tokNAME 1 "a" false false in
  let rpar := plain_token tokPARCLOSE 2 ")" false false in
  (exists tree w',
     parse [lpar; a; rpar] = Some (Some tree, w', mkStream [] 9 "")
     /\ Parser.errors w' = []
     /\ shape tree = SBlock (SName "a") "(" ")")
  /\ (exists tree w',
        parse [lpar; rpar] = Some (Some tree, w', mkStream [] 9 "")
        /\ Parser.errors w' = []
        /\ shape tree = SBlock (SName "") "(" ")").
Proof.
  destruct (Parse_block (H := sentinels) (H0 := no_files)
              (H1 := plain_options) (H2 := a_null_operand) paren_syntax
              (plain_token tokPAROPEN 0 "(" false false)
              (plain_token tokNAME 1 "a" false false)
              (plain_token tokPARCLOSE 2 ")" false false) ")"
              (Parser.mkWorld [] 0) 0 9 "" eq_refl eq_refl eq_refl eq_refl)
    as (Hfull & Hempty).
  split; [| exact Hempty].
  apply Hfull; [by repeat split; [left |] | discriminate].
Defined.

Lemma Parse_closing_witness :
  let loop closing tokens :=
    Parser.parse_loop (H := sentinels) (H0 := no_files)
      (H1 := plain_options) (H2 := a_null_operand)
      1 empty_syntax closing (Parser.enter empty_syntax closing)
      (Parser.mkWorld [] 0) (mkStream tokens 4 "") in
  (exists f',
     loop ")" [plain_token tokPARCLOSE 3 ")" false false]
     = Some (f', Parser.mkWorld [] 0, mkStream [] 4 "")
     /\ Parser.result f' = None /\ Parser.stack f' = [])
  /\ (exists f' w',
        loop ")" [plain_token tokUNINDENT 3 "" false false]
        = Some (f', w', mkStream [] 4 "")
        /\ Parser.errors w'
           = [Parser.mkError "Mismatched identation, expected $1" 3
                [Parser.ArgText ")"]]).
Proof.
  split.
  - apply (proj1 (Parse_closing (H := sentinels) (H0 := no_files)
                    (H1 := plain_options) (H2 := a_null_operand)
                    0 empty_syntax ")"
                    (Parser.enter empty_syntax ")") (Parser.mkWorld [] 0)
                    (mkStream [plain_token tokPARCLOSE 3 ")" false false]
                       4 ""))); [reflexivity |].
    left. split; [by right; right | reflexivity].
  - apply (proj2 (Parse_closing (H := sentinels) (H0 := no_files)
                    (H1 := plain_options) (H2 := a_null_operand)
                    0 empty_syntax ")"
                    (Parser.enter empty_syntax ")") (Parser.mkWorld [] 0)
                    (mkStream [plain_token tokUNINDENT 3 "" false false]
                       4 ""))); [reflexivity | discriminate].
Defined.

(* ====================================================================== *)
(** * Properties of [Parser::Parse]: what a call leaves behind            *)
(* ====================================================================== *)

Section ParserGrows.
Import Parser.
Context `{BlockNames} `{SyntaxFiles} `{ParserOptions} `{NullOperand}.

Lemma grows_refl (w : World) : grows w w.
Proof. split; [done | lia]. Qed.

Lemma grows_trans (w1 w2 w3 : World) :
  grows w1 w2 -> grows w2 w3 -> grows w1 w3.
Proof. intros [E1 N1] [E2 N2]. split; [by etrans | lia]. Qed.

Lemma consumed_refl (input : Stream) : consumed input input.
Proof. by repeat split. Qed.

Lemma consumed_trans (i1 i2 i3 : Stream) :
  consumed i1 i2 -> consumed i2 i3 -> consumed i1 i3.
Proof.
  intros (A1 & P1 & T1) (A2 & P2 & T2).
  repeat split; [by etrans | congruence | congruence].
Qed.

Lemma fresh_grows (w : World) (pos : TreePosition) : grows w (fresh w pos).2.
Proof. split; simpl; [done | lia]. Qed.

Lemma Log_grows (w : World) (e : Error) : grows w (Log w e).
Proof. split; simpl; [by apply prefix_app_r | lia]. Qed.

(** The world after one or two new nodes, or the same world. *)
Ltac grows_now :=
  first [ apply grows_refl | split; simpl; [done | lia] ].

Lemma CreatePrefix_grows (w : World) (l r : Tree) (pos : TreePosition) :
  grows w (CreatePrefix w l r pos).2.
Proof.
  unfold CreatePrefix.
  destruct signedConstants; [| grows_now].
  destruct l; try grows_now.
  destruct (text_eqb value "-"); [| grows_now].
  destruct r; grows_now.
Qed.

Lemma unstack_grows (w : World) (prev : Pending) (operand : Tree) :
  grows w (unstack w prev operand).2.
Proof.
  unfold unstack. destruct (text_eqb (opcode prev) prefix);
    [apply CreatePrefix_grows | grows_now].
Qed.

Lemma flush_grows (d : bool) (dflt p : Z) (stack : list Pending) :
  forall (w : World) (operand : Tree),
  grows w (flush d dflt p w stack operand).2.
Proof.
  induction stack as [| prev below IH]; intros w operand; simpl;
    [apply grows_refl |].
  destruct (stays d dflt p prev); [apply grows_refl |].
  pose proof (unstack_grows w prev operand) as Hu.
  destruct (unstack w prev operand) as [operand' w']. simpl in Hu.
  eapply grows_trans; [exact Hu | apply IH].
Qed.

Lemma drain_grows (stack : list Pending) :
  forall (w : World) (operand : Tree),
  grows w (drain w stack operand).2.
Proof.
  induction stack as [| prev below IH]; intros w operand; simpl;
    [apply grows_refl |].
  pose proof (unstack_grows w prev operand) as Hu.
  destruct (unstack w prev operand) as [operand' w']. simpl in Hu.
  eapply grows_trans; [exact Hu | apply IH].
Qed.

Lemma finish_grows (f : Frame) (w : World) : grows w (finish f w).2.
Proof.
  unfold finish. destruct (stack f) as [| last below] eqn:Hs;
    [apply grows_refl |].
  destruct (result f) as [res |].
  - pose proof (drain_grows (last :: below) w res) as Hd.
    by destruct (drain w (last :: below) res).
  - destruct (negb (text_eqb (opcode last) newline)); simpl.
    + match goal with |- context [drain ?w0 below ?o] =>
        pose proof (drain_grows below w0 o) as Hd;
        destruct (drain w0 below o) end.
      simpl in *. eapply grows_trans; [| exact Hd].
      split; simpl; [done | lia].
    + pose proof (drain_grows below w (argument last)) as Hd.
      by destruct (drain w below (argument last)).
Qed.

Lemma advance_grows (s : Syntax) (sc : Scanned) (pos : TreePosition) :
  grows (world sc) (advance s sc pos).2.
Proof.
  unfold advance.
  destruct (result (frame sc)) as [res |], (left_ (frame sc)) as [l |],
    (right_ sc) as [r |]; simpl.
  all: repeat match goal with
    | |- context [flush ?d ?dp ?p ?w ?st ?o] =>
        pose proof (flush_grows d dp p st w o);
        destruct (flush d dp p w st o) as [[? ?] ?]; simpl in *
    | |- context [if ?c then _ else _] => destruct c; simpl in *
    end.
  all: first [done | apply grows_refl].
Qed.

Lemma scan_grows P (s : Syntax) (closing : string) (f : Frame) (w : World)
    (t : Token) (rest : Stream) (sc : Scanned) :
  well_behaved P ->
  scan P s closing f w t rest = Some sc ->
  grows w (world sc) /\ consumed rest (input sc).
Proof.
  intros HP. unfold scan, leaf.
  assert (Hname : scan_name P s closing f w t rest = Some sc ->
                  grows w (world sc) /\ consumed rest (input sc)).
  { unfold scan_name.
    destruct (text_eqb (NameValue t) closing).
    { intros [= <-]. split; [apply grows_refl | apply consumed_refl]. }
    destruct (HasSpecialSyntax s (NameValue t)) as [[cs closing'] |].
    - destruct (P cs closing' w rest) as [[[inner w1] rest1] |] eqn:Hin;
        [| done].
      destruct (HP _ _ _ _ _ _ _ Hin) as [Hg Hc].
      intros [= <-]. simpl. split; [| done].
      eapply grows_trans; [exact Hg |]. split; simpl; [done | lia].
    - destruct (result f) as [res |], (left_ f) as [l |]; simpl.
      2: destruct (discriminate s (NameValue t) (HadSpaceBefore t)
                     (HadSpaceAfter t)); simpl.
      3: match goal with |- context [flush ?d ?dp ?p ?w0 ?st ?o] =>
           pose proof (flush_grows d dp p st w0 o) as Hf;
           destruct (flush d dp p w0 st o) as [[? ?] ?] end; simpl in *.
      all: intros [= <-]; simpl; split; try apply consumed_refl.
      all: try apply grows_refl.
      all: try (split; simpl; [done | lia]).
      eapply grows_trans; [| eapply grows_trans; [exact Hf |]];
        split; simpl; try done; lia. }
  assert (Hblock : scan_block P s f w t rest = Some sc ->
                   grows w (world sc) /\ consumed rest (input sc)).
  { unfold scan_block.
    set (opening := match tok t with
                    | tokINDENT => Block_indent | _ => TokenText t end).
    assert (Hw : forall f0 w0, grows w w0 ->
      match P s (blk_closing f0) w0 rest with
      | Some (inner, w1, rest1) =>
          let '(inner, w1) :=
            match inner with
            | Some tree => (tree, w1)
            | None => let (n, w1) := fresh w1 (ScanPosition t) in
                      (Name n "", w1)
            end in
          let (n, w1) := fresh w1 (ScanPosition t) in
          Some (mkScanned f0 w1 rest1
                  (Some (Block n inner opening (blk_closing f0)))
                  (InfixPriority s opening) (default_priority s))
      | None => None
      end = Some sc ->
      grows w (world sc) /\ consumed rest (input sc)).
    { intros f0 w0 Hg0.
      destruct (P s (blk_closing f0) w0 rest) as [[[inner w1] rest1] |] eqn:Hin;
        [| done].
      destruct (HP _ _ _ _ _ _ _ Hin) as [Hg Hc].
      destruct inner as [tree |]; simpl; intros [= <-]; simpl;
        (split; [| done]);
        (eapply grows_trans; [exact Hg0 |]);
        (eapply grows_trans; [exact Hg |]);
        split; simpl; try done; lia. }
    destruct (IsBlock s opening) as [closing' |].
    - apply Hw, grows_refl.
    - apply Hw, Log_grows. }
  destruct (tok t); try done.
  all: try (intros [= <-]; simpl; split; try apply consumed_refl).
  all: try apply grows_refl.
  all: try (split; simpl; [done | lia]).
  all: try apply Log_grows.
  all: repeat match goal with
    | |- context [if ?c then _ else _] => destruct c; simpl
    end.
  all: first [apply grows_refl | apply Log_grows].
Qed.

Lemma NextToken_consumed (input : Stream) :
  consumed input (NextToken input).2.
Proof.
  unfold NextToken. destruct input as [[| t tokens] ep et]; simpl;
    [apply consumed_refl |].
  repeat split. simpl. by apply suffix_cons_r.
Qed.

Lemma turn_grows P (s : Syntax) (closing : string) (f f' : Frame)
    (w w' : World) (input rest : Stream) :
  well_behaved P ->
  turn P s closing f w input = Some (f', w', rest) ->
  grows w w' /\ consumed input rest.
Proof.
  intros HP. unfold turn.
  pose proof (NextToken_consumed input) as Hn.
  destruct (NextToken input) as [t rest0]. simpl in Hn.
  destruct (scan P s closing f w t rest0) as [sc |] eqn:Hscan; [| done].
  destruct (scan_grows _ _ _ _ _ _ _ _ HP Hscan) as [Hg Hc].
  pose proof (advance_grows s sc (ScanPosition t)) as Ha.
  destruct (advance s sc (ScanPosition t)) as [f1 w1]. simpl in Ha.
  intros [= <- <- <-]. split.
  - by eapply grows_trans.
  - by eapply consumed_trans.
Qed.

Lemma parse_with_grows loop :
  (forall s closing f w input f' w' rest,
     loop s closing f w input = Some (f', w', rest) ->
     grows w w' /\ consumed input rest) ->
  well_behaved (parse_with loop).
Proof.
  intros Hloop s closing w input tree w' rest. unfold parse_with.
  destruct (loop s closing (enter s closing) w input)
    as [[[f1 w1] rest1] |] eqn:Hl; [| done].
  destruct (Hloop _ _ _ _ _ _ _ _ Hl) as [Hg Hc].
  pose proof (finish_grows f1 w1) as Hf.
  destruct (finish f1 w1) as [tree1 w2]. simpl in Hf.
  intros [= <- <- <-]. split; [by eapply grows_trans | done].
Qed.

Lemma parse_loop_grows (fuel : nat) :
  forall s closing f w input f' w' rest,
    parse_loop fuel s closing f w input = Some (f', w', rest) ->
    grows w w' /\ consumed input rest.
Proof.
  induction fuel as [| fuel IH]; intros s closing f w input f' w' rest;
    [done |].
  simpl.
  destruct (turn (parse_with (parse_loop fuel)) s closing f w input)
    as [[[f1 w1] rest1] |] eqn:Hturn; [| done].
  destruct (turn_grows _ _ _ _ _ _ _ _ _ (parse_with_grows _ IH) Hturn)
    as [Hg Hc].
  destruct (done f1).
  - by intros [= <- <- <-].
  - intros Hrest. destruct (IH _ _ _ _ _ _ _ _ Hrest) as [Hg' Hc'].
    split; [by eapply grows_trans | by eapply consumed_trans].
Qed.

(** X17: whatever [Parse] returns, with or without a child syntax on the
    way, the messages that were in the sink are still there, in front of
    the new ones, and the input that is left is an end of the input that
    was given. *)
Theorem Parse_grows (fuel : nat) (s : Syntax) (closing : string)
    (w w' : World) (input rest : Stream) (tree : option Tree) :
  Parse fuel s closing w input = Some (tree, w', rest) ->
  errors w `prefix_of` errors w' /\ consumed input rest.
Proof.
  intros Hparse.
  destruct (parse_with_grows (parse_loop fuel) (parse_loop_grows fuel)
              _ _ _ _ _ _ _ Hparse) as [[Herrors _] Hrest].
  by split.
Qed.
End ParserGrows.

Lemma Parse_grows_witness :
  let w :=
    Parser.mkWorld
      [Parser.mkError "Unknown parenthese type: $1 (internal)" 0
         [Parser.ArgText "["]] 7 in
  let input :=
    mkStream [plain_token tokNAME 0 "extern" false true;
              plain_token tokSYMBOL 7 ";" true true;
              plain_token tokNAME 9 "d" true false;
              plain_token tokPARCLOSE 10 ")" false false;
              plain_token tokNAME 11 "c" false false] 12 "" in
  exists tree w' rest,
    Parser.Parse (H := sentinels) (H0 := no_files) (H1 := plain_options)
      (H2 := a_null_operand) 4 extern_syntax "" w input
    = Some (Some tree, w', rest)
    /\ shape tree
       = SPrefix (SPrefix (SName "extern") (SName "")) (SName "d")
    /\ rest = mkStream [plain_token tokNAME 11 "c" false false] 12 ""
    /\ Parser.errors w `prefix_of` Parser.errors w'
    /\ consumed input rest.
Proof.
  intros w input.
  destruct (Parser.Parse (H := sentinels) (H0 := no_files)
              (H1 := plain_options) (H2 := a_null_operand) 4 extern_syntax
              "" w input)
    as [[[[tree |] w'] rest] |] eqn:Hparse;
    try (vm_compute in Hparse; discriminate Hparse).
  exists tree, w', rest. split; [reflexivity |].
  split; [by vm_compute in Hparse; injection Hparse as <- _ _ |].
  split; [by vm_compute in Hparse; injection Hparse as _ _ <- |].
  exact (Parse_grows (H := sentinels) (H0 := no_files) (H1 := plain_options)
           (H2 := a_null_operand) 4 extern_syntax "" w w' input rest
           (Some tree) Hparse).
Defined.

(* ====================================================================== *)
(** * Properties of [Syntax::ReadSyntaxFile]: sections and tokens         *)
(* ====================================================================== *)

Section ReaderMore.
Context `{BlockNames} `{SyntaxFiles}.

(** Learning a token changes the two sets of known texts only. *)
Lemma read_token_learns (r : Reader) (t : Token) :
  text_token t = true ->
  exists known prefixes,
    read_token r t
    = read_text (set_syntax r (with_known (syntax r) known prefixes))
        (TextValue t).
Proof.
  unfold text_token, read_token. intros Ht.
  destruct (tok t); try discriminate;
    try (destruct (state_rank inComment <=? state_rank (state r)));
    first [ by eexists _, _
          | exists (known_tokens (syntax r)), (known_prefixes (syntax r));
            by destruct r as [[] ? ? ? ? ? ?] ].
Qed.

Lemma read_text_keyword (r : Reader) (txt : string) (st : State) :
  (txt, st) ∈ [("INFIX", inInfix); ("PREFIX", inPrefix);
               ("POSTFIX", inPostfix)] ->
  read_text r txt = set_state r st.
Proof.
  intros Hin. repeat (apply elem_of_cons in Hin as [[= -> ->] | Hin]);
    try done. by apply elem_of_nil in Hin.
Qed.

(** X18: a priority and an operator in one of the three sections of
    operators.  After the keyword of the section, an integer and a text
    that is no keyword, the lookup of the section gives the integer for
    that text, unless the integer is zero: the zero is stored, and the
    lookup answers the default priority. *)
Theorem ReadSyntaxFile_priority_entry (r : Reader) (tS tp ta : Token) :
  text_token tS = true -> tok tp = tokINTEGER -> text_token ta = true ->
  section_keyword (entry_text (TextValue ta)) = false ->
  let a := entry_text (TextValue ta) in
  let p := to_int (IntegerValue tp) in
  let r' := read_token (read_token (read_token r tS) tp) ta in
  let expected := if p =? 0 then default_priority (syntax r) else p in
  (TextValue tS = "INFIX" ->
   InfixPriority (syntax r') a = expected
   /\ infix_priority (syntax r') !! a = Some p /\ state r' = inInfix)
  /\ (TextValue tS = "PREFIX" ->
      PrefixPriority (syntax r') a = expected
      /\ prefix_priority (syntax r') !! a = Some p /\ state r' = inPrefix)
  /\ (TextValue tS = "POSTFIX" ->
      PostfixPriority (syntax r') a = expected
      /\ postfix_priority (syntax r') !! a = Some p /\ state r' = inPostfix).
Proof.
  intros HS Hp Ha Hka a p r' expected. subst r'.
  destruct (read_token_learns r tS HS) as (k0 & p0 & ->).
  assert (Hsection : forall st,
    (TextValue tS, st) ∈ [("INFIX", inInfix); ("PREFIX", inPrefix);
                          ("POSTFIX", inPostfix)] ->
    exists k1 p1,
      read_token
        (read_token
           (read_text (set_syntax r (with_known (syntax r) k0 p0))
              (TextValue tS)) tp) ta
      = read_entry
          (set_syntax
             (set_priority
                (set_state (set_syntax r (with_known (syntax r) k0 p0)) st) p)
             (with_known (syntax r) k1 p1)) a).
  { intros st Hin. rewrite (read_text_keyword _ _ st Hin).
    set (r1 := set_state _ st).
    assert (read_token r1 tp = set_priority r1 p) as ->.
    { unfold read_token. rewrite Hp.
      assert ((state_rank inComment <=? state_rank (state r1)) = false) as ->.
      { subst r1. simpl.
        repeat (apply elem_of_cons in Hin as [[= _ ->] | Hin]); try done.
        by apply elem_of_nil in Hin. }
      done. }
    destruct (read_token_learns (set_priority r1 p) ta Ha) as (k1 & p1 & ->).
    rewrite read_text_entry by done. by exists k1, p1. }
  split; [| split].
  - intros Hi. destruct (Hsection inInfix) as (k1 & p1 & ->);
      [rewrite Hi; set_solver |].
    simpl. unfold InfixPriority, priority_or_default. simpl.
    rewrite lookup_insert_eq. by repeat split.
  - intros Hi. destruct (Hsection inPrefix) as (k1 & p1 & ->);
      [rewrite Hi; set_solver |].
    simpl. unfold PrefixPriority, priority_or_default. simpl.
    rewrite lookup_insert_eq. by repeat split.
  - intros Hi. destruct (Hsection inPostfix) as (k1 & p1 & ->);
      [rewrite Hi; set_solver |].
    simpl. unfold PostfixPriority, priority_or_default. simpl.
    rewrite lookup_insert_eq. by repeat split.
Qed.
(** The sections and the entries change no set of known texts. *)
Lemma read_text_known (r : Reader) (txt : string) :
  known_tokens (syntax (read_text r txt)) = known_tokens (syntax r)
  /\ known_prefixes (syntax (read_text r txt)) = known_prefixes (syntax r).
Proof.
  unfold read_text, read_entry.
  repeat match goal with
    | |- context [if ?c then _ else _] => destruct c; simpl; try done
    end.
  all: destruct (state r); simpl; try done.
  all: by destruct (childSyntax r).
Qed.

Lemma read_token_known (r : Reader) (t : Token) :
  let s := syntax r in
  let s' := syntax (read_token r t) in
  (known_tokens s' = known_tokens s /\ known_prefixes s' = known_prefixes s)
  \/ (known_tokens s' = {[ TextValue t ]} ∪ known_tokens s
      /\ known_prefixes s'
         = list_to_set (proper_prefixes (TextValue t)) ∪ known_prefixes s).
Proof.
  unfold read_token. cbv zeta.
  destruct (tok t);
    try destruct (state_rank inComment <=? state_rank (state r));
    try match goal with
    | |- context [read_text ?r0 ?txt] =>
        destruct (read_text_known r0 txt) as [-> ->]
    end;
    first [ by left | by right ].
Qed.

Lemma read_token_learnt (s0 : Syntax) (r : Reader) (t : Token) :
  learnt_since s0 (syntax r) -> learnt_since s0 (syntax (read_token r t)).
Proof.
  intros (Ht & Hp & Hclosed).
  destruct (read_token_known r t) as [[Et Ep] | [Et Ep]];
    unfold learnt_since; rewrite Et, Ep.
  - done.
  - split; [etrans; [exact Ht | apply union_subseteq_r] |].
    split; [etrans; [exact Hp | apply union_subseteq_r] |].
    intros t' [->%elem_of_singleton | Hin]%elem_of_union.
    + right. apply Forall_forall. intros p Hin.
      by apply elem_of_union_l, elem_of_list_to_set.
    + destruct (Hclosed t' Hin) as [Hold | Hnew]; [by left | right].
      eapply Forall_impl; [exact Hnew |].
      intros p Hin'. by apply elem_of_union_r.
Qed.

Lemma read_tokens_learnt (s0 : Syntax) (tokens : list Token) (last : Token) :
  forall r : Reader,
  learnt_since s0 (syntax r) ->
  learnt_since s0 (syntax (read_tokens r tokens last).1).
Proof.
  induction tokens as [| t tokens IH]; intros r Hr; simpl.
  - by apply read_token_learnt.
  - pose proof (read_token_learnt s0 r t Hr) as Hr'.
    destruct (tok t); try done;
      destruct (done (read_token r t)); try done; by apply IH.
Qed.

Lemma read_tokens_first (r : Reader) (t : Token) (tokens : list Token)
    (last : Token) :
  exists r' rest,
    read_tokens r (t :: tokens) last = (r', rest)
    /\ learnt_since (syntax (read_token r t)) (syntax r').
Proof.
  assert (Hrefl : forall s, learnt_since s s).
  { intros s. repeat split; try done. by left. }
  simpl.
  destruct (tok t); try (by eexists _, _);
    destruct (done (read_token r t)); try (by eexists _, _).
  all: eexists _, _; (split; [apply surjective_pairing |]).
  all: apply read_tokens_learnt, Hrefl.
Qed.

(** X19: what [ReadSyntaxFile] learns.  The texts that were known
    tokens or known prefixes still are; every known token that is new has
    all its proper prefixes among the known prefixes, as the scanner
    needs to read it one character after the other; and a symbol at the
    start of the input is a known token afterwards. *)
Theorem ReadSyntaxFile_learns (s : Syntax) (input : Stream) (indents : Z) :
  let s' := (ReadSyntaxFile s input indents).1 in
  learnt_since s s'
  /\ forall (t : Token) (tokens : list Token),
       ahead input = t :: tokens -> tok t = tokSYMBOL ->
       KnownToken s' (TextValue t) = true
       /\ Forall (fun p => KnownPrefix s' p = true)
            (proper_prefixes (TextValue t)).
Proof.
  unfold ReadSyntaxFile. split.
  - pose proof (read_tokens_learnt s (ahead input) (end_token input)
                  (new_reader s indents)) as Hl.
    destruct (read_tokens (new_reader s indents) (ahead input)
                (end_token input)) as [r rest].
    apply Hl. repeat split; try done. by left.
  - intros t tokens -> Htok.
    destruct (read_tokens_first (new_reader s indents) t tokens
                (end_token input)) as (r' & rest & -> & Ht & Hp & _).
    simpl.
    assert (Hfirst :
      TextValue t ∈ known_tokens (syntax (read_token (new_reader s indents) t))
      /\ list_to_set (proper_prefixes (TextValue t))
         ⊆ known_prefixes (syntax (read_token (new_reader s indents) t))).
    { unfold read_token. rewrite Htok.
      destruct (read_text_known
                  (set_syntax (new_reader s indents)
                     (learn_token (syntax (new_reader s indents))
                        (TextValue t))) (TextValue t)) as [-> ->].
      simpl. split; [by apply elem_of_union_l, elem_of_singleton |].
      apply union_subseteq_l. }
    destruct Hfirst as [Hin Hsub]. split.
    + apply bool_decide_eq_true. by apply Ht.
    + apply Forall_forall. intros p Hin'.
      apply bool_decide_eq_true. apply Hp, Hsub.
      by apply elem_of_list_to_set.
Qed.
(** The sections and the entries leave the count of indentations and
    the flag [done] alone. *)
Lemma read_text_indents (r : Reader) (txt : string) :
  indents (read_text r txt) = indents r /\ done (read_text r txt) = done r.
Proof.
  unfold read_text, read_entry.
  repeat match goal with
    | |- context [if ?c then _ else _] => destruct c; simpl; try done
    end.
  all: destruct (state r); simpl; try done.
  all: by destruct (childSyntax r).
Qed.

Lemma read_token_indents (r : Reader) (t : Token) :
  layout_token t = false ->
  indents (read_token r t) = indents r /\ done (read_token r t) = done r.
Proof.
  unfold layout_token, read_token. cbv zeta.
  destruct (tok t); try discriminate; intros _;
    try destruct (state_rank inComment <=? state_rank (state r));
    try match goal with
    | |- context [read_text ?r0 ?txt] =>
        destruct (read_text_indents r0 txt) as [-> ->]
    end;
    done.
Qed.

Lemma read_tokens_body (body : list Token) (tclose : Token)
    (rest : list Token) (last : Token) :
  Forall (fun t => layout_token t = false) body ->
  tok tclose = tokUNINDENT \/ tok tclose = tokPARCLOSE ->
  forall r : Reader,
  indents r = 1 -> done r = false ->
  (read_tokens r (body ++ tclose :: rest) last).2 = rest.
Proof.
  intros Hbody Hclose. induction Hbody as [| t body Ht _ IH]; intros r Hi Hd.
  - simpl.
    assert (Hdone : done (read_token r tclose) = true).
    { unfold read_token. cbv zeta.
      destruct Hclose as [-> | ->];
        destruct (state_rank inComment <=? state_rank (state r)); simpl;
        by rewrite Hi. }
    rewrite Hdone. by destruct Hclose as [-> | ->].
  - simpl. destruct (read_token_indents r t Ht) as [Hi' Hd'].
    rewrite Hd', Hd.
    assert (Hgo : (read_tokens (read_token r t) (body ++ tclose :: rest)
                     last).2 = rest) by (apply IH; congruence).
    unfold layout_token in Ht. by destruct (tok t).
Qed.

(** X20: the indentation that [ReadSyntaxFile] counts.  Called with no
    indentation, as the parser does for a [syntax] statement, it reads the
    block that the first indent (or opening parenthesis) opens and stops
    right after the token that closes it: what follows is left to the
    caller.  The count is unsigned: a closing token that comes first does
    not stop the reader, it takes the count from zero to the largest
    unsigned number. *)
Theorem ReadSyntaxFile_reads_one_block (s : Syntax) (topen tclose : Token)
    (body rest : list Token) (ep : TreePosition) (et : string) :
  tok tclose = tokUNINDENT \/ tok tclose = tokPARCLOSE ->
  (tok topen = tokINDENT \/ tok topen = tokPAROPEN ->
   Forall (fun t => layout_token t = false) body ->
   (ReadSyntaxFile s (mkStream (topen :: body ++ tclose :: rest) ep et) 0).2
   = mkStream rest ep et)
  /\ indents (read_token (new_reader s 0) tclose) = 2 ^ 32 - 1
  /\ done (read_token (new_reader s 0) tclose) = false.
Proof.
  intros Hclose. split; [| split].
  - intros Hopen Hbody. unfold ReadSyntaxFile. simpl.
    assert (Hfirst : indents (read_token (new_reader s 0) topen) = 1
                     /\ done (read_token (new_reader s 0) topen) = false).
    { unfold read_token. cbv zeta. by destruct Hopen as [-> | ->]. }
    destruct Hfirst as [Hi Hd]. rewrite Hd.
    pose proof (read_tokens_body body tclose rest
                  (end_token (mkStream (topen :: body ++ tclose :: rest)
                                ep et))
                  Hbody Hclose _ Hi Hd) as Hrest.
    destruct (read_tokens _ (body ++ tclose :: rest) _) as [r' rest'].
    simpl in Hrest. subst rest'. by destruct Hopen as [-> | ->].
  - unfold read_token. cbv zeta. by destruct Hclose as [-> | ->].
  - unfold read_token. cbv zeta. by destruct Hclose as [-> | ->].
Qed.

(** X21: a child syntax.  After the entry [SYNTAX name a b], where no
    text is a keyword, [HasSpecialSyntax (a)] finds the child syntax that
    is kept under the path of the file [name], which is its file name,
    together with the closing [b]; the tables stay such that every child
    syntax is kept under its file name. *)
Theorem ReadSyntaxFile_syntax_entry (r : Reader) (tS tn ta tb : Token) :
  files_keep_name -> subsyntax_named (syntax r) ->
  text_token tS = true -> TextValue tS = "SYNTAX" ->
  text_token tn = true -> text_token ta = true -> text_token tb = true ->
  section_keyword (entry_text (TextValue tn)) = false ->
  section_keyword (entry_text (TextValue ta)) = false ->
  section_keyword (entry_text (TextValue tb)) = false ->
  let file := LibPath (entry_text (TextValue tn)) ".syntax" libpath in
  let a := entry_text (TextValue ta) in
  let b := entry_text (TextValue tb) in
  let r' := read_token (read_token (read_token (read_token r tS) tn) ta) tb in
  exists child : Syntax,
    HasSpecialSyntax (syntax r') a = Some (child, b)
    /\ subsyntax (syntax r') !! file = Some child
    /\ filename child = file
    /\ delimiters child !! a = Some b
    /\ subsyntax_named (syntax r')
    /\ state r' = inSyntax.
Proof.
  intros [Hnew Hfiles] Hnamed HS HSt Hn Ha Hb Hkn Hka Hkb file a b r'.
  subst r'.
  destruct (read_token_learns r tS HS) as (k0 & p0 & ->).
  rewrite HSt.
  change (read_text ?r0 "SYNTAX") with (set_state r0 inSyntaxName).
  match goal with |- context [read_token ?r0 tn] =>
    destruct (read_token_learns r0 tn Hn) as (k1 & p1 & ->) end.
  rewrite read_text_entry by done.
  match goal with |- context [read_token ?r0 ta] =>
    destruct (read_token_learns r0 ta Ha) as (k2 & p2 & ->) end.
  rewrite read_text_entry by done.
  match goal with |- context [read_token ?r0 tb] =>
    destruct (read_token_learns r0 tb Hb) as (k3 & p3 & ->) end.
  rewrite read_text_entry by done.
  fold a b. simpl. fold file.
  set (child0 := default NewChildSyntax (subsyntax (syntax r) !! file)).
  set (child1 := if text_eqb (filename child0) ""
                 then ReadSyntaxFileNamed file (with_filename child0 file)
                 else child0).
  assert (Hname1 : filename child1 = file).
  { subst child1. destruct (text_eqb (filename child0) "") eqn:He.
    - by rewrite Hfiles.
    - subst child0. destruct (subsyntax (syntax r) !! file) as [c |] eqn:Hc.
      + by apply Hnamed.
      + simpl in He. apply text_eqb_false in He. by rewrite Hnew in He. }
  rewrite lookup_insert_eq. simpl. rewrite Hname1.
  exists (with_delimiters child1 (<[a := b]> (delimiters child1))).
  split; [| split; [| split; [| split; [| split]]]]; try done.
  - unfold HasSpecialSyntax. simpl.
    by repeat (rewrite lookup_insert_eq; simpl).
  - apply lookup_insert_eq.
  - simpl. apply lookup_insert_eq.
  - intros key child. simpl.
    destruct (decide (key = file)) as [-> | Hne].
    + rewrite lookup_insert_eq. by intros [= <-].
    + rewrite !lookup_insert_ne by done. apply Hnamed.
Qed.
End ReaderMore.

Lemma ReadSyntaxFile_priority_entry_witness :
  let read p :=
    read_token (H := sentinels) (H0 := no_files)
      (read_token (H := sentinels) (H0 := no_files)
         (read_token (H := sentinels) (H0 := no_files)
            (new_reader (with_priorities empty_syntax 10 100 200) 0)
            (plain_token tokNAME 0 "INFIX" false true))
         (mkToken tokINTEGER 6 "" "" "" p 0 true true "" ""))
      (plain_token tokSYMBOL 10 "+" true false) in
  (InfixPriority (syntax (read 310)) "+" = 310
   /\ infix_priority (syntax (read 310)) !! "+" = Some 310
   /\ state (read 310) = inInfix)
  /\ (InfixPriority (syntax (read 0)) "+" = 10
      /\ infix_priority (syntax (read 0)) !! "+" = Some 0
      /\ state (read 0) = inInfix).
Proof.
  split.
  - apply (ReadSyntaxFile_priority_entry (H := sentinels) (H0 := no_files)
             (new_reader (with_priorities empty_syntax 10 100 200) 0)
             (plain_token tokNAME 0 "INFIX" false true)
             (mkToken tokINTEGER 6 "" "" "" 310 0 true true "" "")
             (plain_token tokSYMBOL 10 "+" true false));
      reflexivity.
  - apply (ReadSyntaxFile_priority_entry (H := sentinels) (H0 := no_files)
             (new_reader (with_priorities empty_syntax 10 100 200) 0)
             (plain_token tokNAME 0 "INFIX" false true)
             (mkToken tokINTEGER 6 "" "" "" 0 0 true true "" "")
             (plain_token tokSYMBOL 10 "+" true false));
      reflexivity.
Defined.

Lemma ReadSyntaxFile_learns_witness :
  let s' :=
    (ReadSyntaxFile (H := sentinels) (H0 := no_files) empty_syntax
       (mkStream [plain_token tokSYMBOL 0 "<=>" false false] 3 "") 0).1 in
  KnownToken s' "<=>" = true
  /\ Forall (fun p => KnownPrefix s' p = true) ["<"; "<="].
Proof.
  exact (proj2 (ReadSyntaxFile_learns (H := sentinels) (H0 := no_files)
                  empty_syntax
                  (mkStream [plain_token tokSYMBOL 0 "<=>" false false] 3 "")
                  0)
           (plain_token tokSYMBOL 0 "<=>" false false) [] eq_refl eq_refl).
Defined.

Lemma ReadSyntaxFile_reads_one_block_witness :
  let after := [plain_token tokNAME 30 "x" false false] in
  (ReadSyntaxFile (H := sentinels) (H0 := no_files) empty_syntax
     (mkStream
        (plain_token tokINDENT 0 "" false false
         :: block_entry "(" ")"
         ++ plain_token tokUNINDENT 20 "" false false :: after) 31 "") 0).2
  = mkStream after 31 ""
  /\ indents (read_token (H := sentinels) (H0 := no_files)
                (new_reader empty_syntax 0)
                (plain_token tokUNINDENT 20 "" false false))
     = 4294967295
  /\ done (read_token (H := sentinels) (H0 := no_files)
             (new_reader empty_syntax 0)
             (plain_token tokUNINDENT 20 "" false false)) = false.
Proof.
  destruct (ReadSyntaxFile_reads_one_block (H := sentinels) (H0 := no_files)
              empty_syntax (plain_token tokINDENT 0 "" false false)
              (plain_token tokUNINDENT 20 "" false false)
              (block_entry "(" ")") [plain_token tokNAME 30 "x" false false]
              31 "" (or_introl eq_refl))
    as (Hblock & Hwrap & Hgo).
  split; [| split; [exact Hwrap | exact Hgo]].
  apply Hblock; [by left |]. by repeat constructor.
Defined.

Lemma ReadSyntaxFile_syntax_entry_witness :
  let r' :=
    fold_left (read_token (H := sentinels) (H0 := no_files))
      (syntax_entry "C" "extern" ";") (new_reader empty_syntax 0) in
  exists child : Syntax,
    HasSpecialSyntax (H := no_files) (syntax r') "extern" = Some (child, ";")
    /\ subsyntax (syntax r') !! "C.syntax" = Some child
    /\ filename child = "C.syntax"
    /\ delimiters child !! "extern" = Some ";"
    /\ subsyntax_named (syntax r')
    /\ state r' = inSyntax.
Proof.
  apply (ReadSyntaxFile_syntax_entry (H := sentinels) (H0 := no_files)
           (new_reader empty_syntax 0)
           (plain_token tokNAME 0 "SYNTAX" false true)
           (plain_token tokQUOTE 7 "C" true true)
           (plain_token tokQUOTE 10 "extern" true true)
           (plain_token tokQUOTE 19 ";" true false));
    try reflexivity.
  - split; [reflexivity | by intros f child].
  - intros key child Hin. simpl in Hin. by rewrite lookup_empty in Hin.
Defined.

(* ====================================================================== *)
(** * Properties of [Parser::NextToken]                                   *)
(* ====================================================================== *)

Section LexerFacts.
Import Lexer.
Context `{BlockNames} `{SyntaxFiles} `{CommentScanner}.

(** The reader of syntax files leaves an end of its input. *)
Lemma read_tokens_suffix (tokens : list Token) (last : Token) :
  forall r : Reader, (read_tokens r tokens last).2 `suffix_of` tokens.
Proof.
  induction tokens as [| t tokens IH]; intros r; simpl; [done |].
  assert (Hgo : (if done (read_token r t)
                 then (read_token r t, tokens)
                 else read_tokens (read_token r t) tokens last).2
                `suffix_of` t :: tokens).
  { destruct (done (read_token r t)); simpl;
      [by apply suffix_cons_r | apply suffix_cons_r, IH]. }
  destruct (tok t); simpl; first [exact Hgo | by apply suffix_cons_r].
Qed.

Lemma ReadSyntaxFile_suffix (s : Syntax) (input : Stream) (indents : Z) :
  ahead (ReadSyntaxFile s input indents).2 `suffix_of` ahead input.
Proof.
  unfold ReadSyntaxFile.
  pose proof (read_tokens_suffix (ahead input) (end_token input)
                (new_reader s indents)) as Hs.
  by destruct (read_tokens _ _ _).
Qed.

Lemma scanner_next (input : Stream) :
  (ahead input = []
   /\ Parser.NextToken input = (end_token input, input))
  \/ exists t tokens,
       ahead input = t :: tokens
       /\ Parser.NextToken input = (t, rest_of input tokens).
Proof.
  unfold Parser.NextToken. destruct (ahead input) as [| t tokens];
    [by left | right; by exists t, tokens].
Qed.






(** What is returned at the end of the loop. *)
Lemma push_back_newline (st : State) (pend result : token_t) :
  pend = tokNONE \/ pend = tokNEWLINE ->
  result <> tokNEWLINE -> result <> tokNONE ->
  tok (push_back st pend result).1 = tokNEWLINE ->
  pending (push_back st pend result).2 <> tokNONE
  /\ pending (push_back st pend result).2 <> tokNEWLINE.
Proof.
  unfold push_back. intros [-> | ->] Hr Hn; simpl; [done |].
  intros _. by split.
Qed.

(** X23: [NextToken] never returns two new lines in a row.  When it
    returns a new line, the token that made it do so is pending, and
    this token, which is no new line, is what the next call returns,
    before anything is taken from the scanner. *)
Theorem NextToken_no_double_newline (fuel : nat) :
  forall (st st' : State) (input rest : Stream) (out : Token),
  Forall (fun t => tok t <> tokNONE) (ahead input) ->
  NextToken fuel st input = Some (Returned out st' rest) ->
  tok out = tokNEWLINE ->
  pending st' <> tokNONE /\ pending st' <> tokNEWLINE
  /\ forall fuel' : nat,
       exists out',
         NextToken (S fuel') st' rest
         = Some (Returned out' (set_pending st' tokNONE false) rest)
         /\ tok out' = pending st' /\ tok out' <> tokNEWLINE.
Proof.
  assert (Hnext : forall st' rest,
    pending st' <> tokNONE /\ pending st' <> tokNEWLINE ->
    pending st' <> tokNONE /\ pending st' <> tokNEWLINE
    /\ forall fuel' : nat,
         exists out',
           NextToken (S fuel') st' rest
           = Some (Returned out' (set_pending st' tokNONE false) rest)
           /\ tok out' = pending st' /\ tok out' <> tokNEWLINE).
  { intros st' rest [Hn Hl]. split; [done |]. split; [done |].
    intros fuel'. simpl.
    rewrite (bool_decide_eq_false_2 _ Hn), (bool_decide_eq_false_2 _ Hl).
    simpl. by eexists. }
  induction fuel as [| fuel IH]; intros st st' input rest out Hscan;
    [done |].
  simpl.
  destruct (negb (bool_decide (pending st = tokNONE))
            && negb (bool_decide (pending st = tokNEWLINE))) eqn:Hpend.
  { intros [= <- <- <-]. simpl.
    apply andb_prop in Hpend as [_ Hl].
    apply negb_true_iff, bool_decide_eq_false in Hl. done. }
  assert (Hp : pending st = tokNONE \/ pending st = tokNEWLINE).
  { apply andb_false_iff in Hpend as [Hp | Hp];
      apply negb_false_iff, bool_decide_eq_true in Hp; auto. }
  assert (Htail : forall pend st0 result rest0,
    pend = tokNONE \/ pend = tokNEWLINE ->
    result <> tokNEWLINE -> result <> tokNONE ->
    (let (out0, st1) := push_back st0 pend result in
     Some (Returned out0 st1 rest0)) = Some (Returned out st' rest) ->
    tok out = tokNEWLINE ->
    pending st' <> tokNONE /\ pending st' <> tokNEWLINE
    /\ forall fuel' : nat,
         exists out',
           NextToken (S fuel') st' rest
           = Some (Returned out' (set_pending st' tokNONE false) rest)
           /\ tok out' = pending st' /\ tok out' <> tokNEWLINE).
  { intros pend st0 result rest0 Hp0 Hnl Hno Heq Hout.
    pose proof (push_back_newline st0 pend result Hp0 Hnl Hno) as Hpb.
    destruct (push_back st0 pend result) as [out0 st1].
    injection Heq as <- <- <-. by apply Hnext, Hpb. }
  destruct (scanner_next input) as [[Hnil ->] | (t & tokens & Hcons & ->)].
  { unfold end_token. simpl. by apply Htail. }
  rewrite Hcons in Hscan. inversion Hscan as [| ? ? Ht Htokens]; subst.
  assert (Hname : tok t = tokNAME \/ tok t = tokSYMBOL ->
    (if text_eqb (NameValue t) "syntax"
     then
       let (s', rest0) :=
         ReadSyntaxFile (syntax (set_scanned st t)) (rest_of input tokens) 0 in
       NextToken fuel (set_syntax (set_scanned st t) s') rest0
     else
       match IsComment (syntax (set_scanned st t)) (NameValue t) with
       | Some closing =>
           NextToken fuel
             (if text_eqb closing newline
                 && bool_decide (pending st = tokNONE)
              then
                set_pending
                  (comments_after
                     (AddComment (set_scanned st t)
                        (NameValue t
                         +:+ Comment (rest_of input tokens) closing true)))
                  tokNEWLINE true
              else
                AddComment (set_scanned st t)
                  (NameValue t
                   +:+ Comment (rest_of input tokens) closing true))
             (rest_of input tokens)
       | None =>
           match IsTextDelimiter (syntax (set_scanned st t)) (NameValue t) with
           | Some closing =>
               match
                 next_long_text (set_scanned st t) (pending st) t
                   (rest_of input tokens) (NameValue t) closing
               with
               | Some (out0, st0) =>
                   Some (Returned out0 st0 (rest_of input tokens))
               | None => Some out_of_range
               end
           | None =>
               let (out0, st0) :=
                 next_name (set_scanned st t) (pending st) t in
               Some (Returned out0 st0 (rest_of input tokens))
           end
       end) = Some (Returned out st' rest) ->
    tok out = tokNEWLINE ->
    pending st' <> tokNONE /\ pending st' <> tokNEWLINE
    /\ forall fuel' : nat,
         exists out',
           NextToken (S fuel') st' rest
           = Some (Returned out' (set_pending st' tokNONE false) rest)
           /\ tok out' = pending st' /\ tok out' <> tokNEWLINE).
  { intros Hk.
    destruct (text_eqb (NameValue t) "syntax").
    { pose proof (ReadSyntaxFile_suffix (syntax (set_scanned st t))
                    (rest_of input tokens) 0) as Hs.
      destruct (ReadSyntaxFile _ _ _) as [s' rest0]. simpl in Hs.
      apply IH. destruct Hs as [front ->].
      by apply Forall_app in Htokens as [_ ?]. }
    destruct (IsComment (syntax (set_scanned st t)) (NameValue t));
      [by apply IH |].
    destruct (IsTextDelimiter (syntax (set_scanned st t)) (NameValue t))
      as [closing |].
    - unfold next_long_text.
      destruct (erase_closing _ _); [| done].
      destruct (bool_decide (pending st = tokNEWLINE)).
      { intros [= <- <- <-] _. by apply Hnext. }
      destruct (text_eqb closing newline && bool_decide (pending st = tokNONE));
        by intros [= <- <- <-].
    - unfold next_name.
      match goal with |- context [push_back ?st0 ?pend0 (tok t)] =>
        apply (Htail pend0 st0) end.
      + destruct (_ && _ && _); auto.
      + by destruct Hk as [-> | ->].
      + done. }
  destruct (tok t) eqn:Hk; simpl; try done.
  all: try (by apply (Htail (pending st))).
  - apply Hname. by left.
  - apply Hname. by right.
  - by apply IH.
  - by intros [= <- <- <-].
  - by intros [= <- <- <-].
Qed.

Lemma plain_leaf_kind (t : Token) :
  plain_leaf t ->
  tok t <> tokNONE /\ tok t <> tokNAME /\ tok t <> tokSYMBOL
  /\ tok t <> tokNEWLINE /\ tok t <> tokINDENT /\ tok t <> tokUNINDENT.
Proof.
  unfold plain_leaf. rewrite !elem_of_cons, elem_of_nil.
  intros Hin. repeat split; intros Hk; rewrite Hk in Hin;
    repeat (destruct Hin as [Hin | Hin]; [discriminate |]); done.
Qed.

Lemma line_comment_keeps (st : State) (t : Token) :
  syntax (line_comment st t) = syntax st
  /\ pending (line_comment st t) = pending st.
Proof.
  unfold line_comment, comments_after.
  destruct (negb (text_eqb (TextValue t) "")); [| done].
  simpl. destruct (comments st ++ [TextValue t])%list; [done |].
  destruct (commented st); [| done].
  by destruct (negb (beginningLine st)).
Qed.

(** X24: the layout that [Parse] sees.  New lines that follow one another
    are merged, and what comes after them decides: an indent is returned
    alone, the new lines being dropped; an unindent is returned at once
    and leaves a new line pending; a name that has no prefix priority and
    an infix priority below the statements, like [else], is returned
    alone too; before any other token the new line is returned first and
    the token is kept for the next call. *)
Theorem NextToken_layout (lines : list Token) :
  forall (fuel : nat) (st : State) (input : Stream) (t : Token)
         (tokens : list Token),
  Forall (fun l => tok l = tokNEWLINE) lines ->
  ahead input = (lines ++ t :: tokens)%list ->
  pending st = tokNONE \/ pending st = tokNEWLINE ->
  tok t = tokINDENT \/ tok t = tokUNINDENT
  \/ ordinary_name (syntax st) t \/ plain_leaf t ->
  (length lines < fuel)%nat ->
  exists out st',
    NextToken fuel st input = Some (Returned out st' (rest_of input tokens))
    /\ syntax st' = syntax st
    /\ (tok t = tokINDENT -> tok out = tokINDENT /\ pending st' = tokNONE)
    /\ (tok t = tokUNINDENT ->
        tok out = tokUNINDENT /\ pending st' = tokNEWLINE)
    /\ (ordinary_name (syntax st) t \/ plain_leaf t ->
        if (bool_decide (pending st = tokNEWLINE)
            || negb (bool_decide (lines = [])))
           && negb (joins_previous_line (syntax st) t)
        then tok out = tokNEWLINE /\ pending st' = tok t
        else tok out = tok t /\ pending st' = tokNONE).
Proof.
  induction lines as [| l lines IH];
    intros fuel st input t tokens Hlines Hahead Hpend Hkind Hfuel.
  - destruct fuel as [| fuel]; [simpl in Hfuel; lia |].
    simpl.
    assert (Hgo : negb (bool_decide (pending st = tokNONE))
                  && negb (bool_decide (pending st = tokNEWLINE)) = false).
    { destruct Hpend as [-> | ->]; done. }
    rewrite Hgo. unfold Parser.NextToken. rewrite Hahead. simpl.
    destruct Hkind as [Hk | [Hk | [Hk | Hk]]].
    + rewrite Hk. simpl. eexists _, _. split; [done |]. simpl.
      split; [done |]. split; [done |]. split; [done |].
      intros [[[Hn | Hn] _] | Hn%plain_leaf_kind]; try congruence.
      by destruct Hn as (_ & _ & _ & _ & ? & ?).
    + rewrite Hk. simpl. eexists _, _. split; [done |].
      destruct (line_comment_keeps (set_scanned st t) t) as [Hs Hp].
      simpl. split; [done |]. split; [done |]. split; [done |].
      intros [[[Hn | Hn] _] | Hn%plain_leaf_kind]; try congruence.
      by destruct Hn as (_ & _ & _ & _ & ? & ?).
    + destruct Hk as (Hname & Hsyntax & Hcomment & Htext).
      assert (Hnot : text_eqb (NameValue t) "syntax" = false)
        by by apply text_eqb_false.
      assert (Hbody :
        exists out st',
          (let (out0, st0) := next_name (set_scanned st t) (pending st) t in
           Some (Returned out0 st0 (rest_of input tokens)))
          = Some (Returned out st' (rest_of input tokens))
          /\ syntax st' = syntax st
          /\ (if bool_decide (pending st = tokNEWLINE)
                 && negb (joins_previous_line (syntax st) t)
              then tok out = tokNEWLINE /\ pending st' = tok t
              else tok out = tok t /\ pending st' = tokNONE)).
      { unfold next_name, joins_previous_line, takes_over, push_back. simpl.
        assert (Hn : bool_decide (tok t = tokNAME)
                     || bool_decide (tok t = tokSYMBOL) = true).
        { destruct Hname as [-> | ->]; done. }
        rewrite Hn. simpl.
        destruct Hpend as [Hp | Hp]; rewrite Hp; simpl.
        - eexists _, _. split; [done |]. by simpl.
        - destruct (PrefixPriority (syntax st) (NameValue t)
                    =? default_priority (syntax st)); simpl;
            [destruct (InfixPriority (syntax st) (NameValue t)
                       <? statement_priority (syntax st)); simpl |];
            eexists _, _; (split; [done |]); by simpl. }
      destruct Hbody as (out & st' & Hrun & Hsyn & Hres).
      exists out, st'.
      split.
      { destruct Hname as [-> | ->]; simpl;
          by rewrite Hnot, Hcomment, Htext. }
      split; [done |].
      split; [destruct Hname; congruence |].
      split; [destruct Hname; congruence |].
      intros _. by rewrite orb_false_r.
    + pose proof (plain_leaf_kind t Hk)
        as (Hnone & Hname & Hsymbol & Hline & Hin & Hun).
      assert (Hjoin : joins_previous_line (syntax st) t = false).
      { unfold joins_previous_line.
        by rewrite (bool_decide_eq_false_2 _ Hname),
                   (bool_decide_eq_false_2 _ Hsymbol). }
      rewrite Hjoin, orb_false_r, andb_true_r.
      assert (Hbody :
        exists out st',
          (let (out0, st0) :=
             push_back (set_beginningLine (set_scanned st t) false)
               (pending st) (tok t) in
           Some (Returned out0 st0 (rest_of input tokens)))
          = Some (Returned out st' (rest_of input tokens))
          /\ syntax st' = syntax st
          /\ (if bool_decide (pending st = tokNEWLINE)
              then tok out = tokNEWLINE /\ pending st' = tok t
              else tok out = tok t /\ pending st' = tokNONE)).
      { unfold push_back.
        destruct Hpend as [Hp | Hp]; rewrite Hp; simpl;
          eexists _, _; (split; [done |]); by simpl. }
      destruct Hbody as (out & st' & Hrun & Hsyn & Hres).
      exists out, st'.
      split; [by destruct (tok t) |].
      split; [done |]. split; [done |]. split; [done |]. done.
  - destruct fuel as [| fuel]; [simpl in Hfuel; lia |].
    inversion Hlines as [| ? ? Hl Hrest]; subst.
    simpl.
    assert (Hgo : negb (bool_decide (pending st = tokNONE))
                  && negb (bool_decide (pending st = tokNEWLINE)) = false).
    { destruct Hpend as [-> | ->]; done. }
    rewrite Hgo. unfold Parser.NextToken. rewrite Hahead. simpl.
    rewrite Hl.
    destruct (line_comment_keeps (set_scanned st l) l) as [Hs Hp].
    destruct (IH fuel
                (set_pending (line_comment (set_scanned st l) l)
                   tokNEWLINE true)
                (rest_of input (lines ++ t :: tokens)%list) t tokens)
      as (out & st' & Hrun & Hsyn & Hin & Hun & Hother);
      [done | done | by right | simpl; by rewrite Hs | simpl in Hfuel; lia |].
    exists out, st'. simpl in Hsyn, Hother. rewrite Hs in Hsyn, Hother.
    simpl in Hsyn, Hother.
    split; [exact Hrun |]. split; [done |]. split; [done |].
    split; [done |]. intros Hk. specialize (Hother Hk).
    simpl in Hother. by rewrite orb_true_r.
Qed.
End LexerFacts.


Lemma NextToken_no_double_newline_witness :
  exists out' : Token,
    Lexer.NextToken (H := sentinels) (H0 := no_files) (H1 := no_comments) 1
      (Lexer.set_pending
         (Lexer.set_scanned (first_state else_syntax)
            (plain_token tokINTEGER 1 "" false false))
         tokINTEGER true)
      (mkStream [] 2 "")
    = Some (Lexer.Returned out'
              (Lexer.set_pending
                 (Lexer.set_scanned (first_state else_syntax)
                    (plain_token tokINTEGER 1 "" false false))
                 tokNONE false)
              (mkStream [] 2 ""))
    /\ tok out' = tokINTEGER.
Proof.
  destruct (NextToken_no_double_newline (H := sentinels) (H0 := no_files)
              (H1 := no_comments) 3 (first_state else_syntax)
              (Lexer.set_pending
                 (Lexer.set_scanned (first_state else_syntax)
                    (plain_token tokINTEGER 1 "" false false))
                 tokINTEGER true)
              (mkStream [plain_token tokNEWLINE 0 "" false false;
                         plain_token tokINTEGER 1 "" false false] 2 "")
              (mkStream [] 2 "")
              (Lexer.deliver
                 (Lexer.set_scanned (first_state else_syntax)
                    (plain_token tokINTEGER 1 "" false false))
                 tokNEWLINE))
    as (_ & _ & Hnext).
  - simpl. repeat constructor; done.
  - reflexivity.
  - reflexivity.
  - destruct (Hnext O) as (out' & Hrun & Hkind & _).
    exists out'. split; [exact Hrun | exact Hkind].
Defined.

Lemma NextToken_layout_witness :
  exists (out : Token) (st' : Lexer.State),
    Lexer.NextToken (H := sentinels) (H0 := no_files) (H1 := no_comments) 3
      (first_state else_syntax)
      (mkStream [plain_token tokNEWLINE 0 "" false false;
                 plain_token tokNEWLINE 1 "" false false;
                 plain_token tokNAME 2 "else" false false;
                 plain_token tokINTEGER 3 "" false false] 4 "")
    = Some (Lexer.Returned out st'
              (mkStream [plain_token tokINTEGER 3 "" false false] 4 ""))
    /\ tok out = tokNAME /\ Lexer.pending st' = tokNONE.
Proof.
  destruct (NextToken_layout (H := sentinels) (H0 := no_files)
              (H1 := no_comments)
              [plain_token tokNEWLINE 0 "" false false;
               plain_token tokNEWLINE 1 "" false false]
              3 (first_state else_syntax)
              (mkStream [plain_token tokNEWLINE 0 "" false false;
                         plain_token tokNEWLINE 1 "" false false;
                         plain_token tokNAME 2 "else" false false;
                         plain_token tokINTEGER 3 "" false false] 4 "")
              (plain_token tokNAME 2 "else" false false)
              [plain_token tokINTEGER 3 "" false false])
    as (out & st' & Hrun & _ & _ & _ & Hother).
  - repeat constructor.
  - reflexivity.
  - by left.
  - right. right. left. unfold ordinary_name. simpl.
    repeat split; [by left | done].
  - simpl. lia.
  - exists out, st'. split; [exact Hrun |].
    apply Hother. left. unfold ordinary_name. simpl.
    repeat split; [by left | done].
Defined.

(* ====================================================================== *)
(** * Properties of [RewriteCandidate::Bind]: what a call adds          *)
(* ====================================================================== *)

Section BinderGrows.
Import Calls.
Context `{Inference}.

Lemma carries_on_refl (rc : RewriteCandidate) : carries_on rc rc.
Proof. by repeat split. Qed.

Lemma carries_on_trans (a b c : RewriteCandidate) :
  carries_on a b -> carries_on b c -> carries_on a c.
Proof.
  intros (? & ? & ? & ? & ? & ? & ?) (? & ? & ? & ? & ? & ? & ?).
  repeat split; try congruence; try (by etrans); lia.
Qed.

Lemma set_world_carries_on (rc : RewriteCandidate) (w : World) :
  carries_on rc (set_world rc w).
Proof. by repeat split. Qed.

Lemma in_world_carries_on {A} (rc : RewriteCandidate)
    (call : World -> A * World) :
  carries_on rc (in_world rc call).2.
Proof.
  unfold in_world. destruct (call (world rc)). apply set_world_carries_on.
Qed.

Lemma fresh_carries_on (rc : RewriteCandidate) (pos : TreePosition) :
  carries_on rc (fresh rc pos).2.
Proof. repeat split; simpl; try done. lia. Qed.

Lemma Condition_carries_on (rc : RewriteCandidate) (value test : Tree) :
  carries_on rc (Condition rc value test).
Proof. repeat split; simpl; try done. by apply prefix_app_r. Qed.

Lemma KindCondition_carries_on (rc : RewriteCandidate) (value : Tree)
    (k : kind) :
  carries_on rc (KindCondition rc value k).
Proof. repeat split; simpl; try done. by apply prefix_app_r. Qed.

Lemma add_binding_carries_on (rc : RewriteCandidate) (name value : Tree) :
  carries_on rc (add_binding rc name value).
Proof. repeat split; simpl; try done. by apply prefix_app_r. Qed.

Lemma ValueType_carries_on (rc : RewriteCandidate) (value : Tree) :
  carries_on rc (ValueType rc value).2.
Proof.
  unfold ValueType.
  pose proof (in_world_carries_on rc (fun w => ValueTypes_Type w value)) as Hw.
  destruct (in_world rc _) as [[vtype |] rc1]; simpl in *; [| done].
  eapply carries_on_trans; [exact Hw | apply set_world_carries_on].
Qed.

Lemma Unify_carries_on (rc : RewriteCandidate) (valueType formType : option Tree)
    (value form : Tree) (declaration : bool) :
  carries_on rc (Unify rc valueType formType value form declaration).2.
Proof.
  unfold Unify.
  match goal with |- carries_on _ (in_world ?rc1 ?call).2 =>
    apply (carries_on_trans rc rc1); [| apply in_world_carries_on] end.
  repeat match goal with
  | |- carries_on _ (if ?c then _ else _) => destruct c
  end; first [apply carries_on_refl | apply KindCondition_carries_on].
Qed.

(** One call of the binder on the way: what is known of the candidate so
    far is carried over the call. *)
Ltac carry_over Hacc :=
  let Hc := fresh "Hc" in
  let Hnew := fresh "Hacc" in
  match goal with
  | |- context [ValueType ?rc ?v] =>
      pose proof (ValueType_carries_on rc v) as Hc;
      pose proof (carries_on_trans _ _ _ Hacc Hc) as Hnew;
      destruct (ValueType rc v) as [? ?]
  | |- context [Unify ?rc ?a ?b ?c ?d ?e] =>
      pose proof (Unify_carries_on rc a b c d e) as Hc;
      pose proof (carries_on_trans _ _ _ Hacc Hc) as Hnew;
      destruct (Unify rc a b c d e) as [? ?]
  | |- context [in_world ?rc ?call] =>
      pose proof (in_world_carries_on rc call) as Hc;
      pose proof (carries_on_trans _ _ _ Hacc Hc) as Hnew;
      destruct (in_world rc call) as [? ?]
  | |- context [fresh ?rc ?pos] =>
      pose proof (fresh_carries_on rc pos) as Hc;
      pose proof (carries_on_trans _ _ _ Hacc Hc) as Hnew;
      destruct (fresh rc pos) as [? ?]
  | IH : forall rc value, carries_on rc (Bind rc ?f value).2
    |- context [Bind ?rc ?f ?v] =>
      pose proof (IH rc v) as Hc;
      pose proof (carries_on_trans _ _ _ Hacc Hc) as Hnew;
      destruct (Bind rc f v) as [? ?]
  end;
  simpl in Hnew; clear Hacc Hc; rename Hnew into Hacc.

Ltac carry_branch :=
  match goal with
  | |- carries_on _ (if ?c then _ else _).2 => destruct c
  | |- carries_on _ (match ?o with Some _ => _ | None => _ end).2 =>
      destruct o
  end; cbv beta iota.

Ltac carry_end Hacc :=
  simpl;
  first
    [ exact Hacc
    | eapply carries_on_trans; [exact Hacc |];
      first [ apply Condition_carries_on | apply add_binding_carries_on
            | apply set_world_carries_on ] ].

Lemma bind_constant_carries_on (rc0 rc : RewriteCandidate)
    (mtype form value : Tree) :
  carries_on rc0 rc ->
  carries_on rc0 (bind_constant rc mtype form value).2.
Proof.
  intros Hacc. unfold bind_constant.
  carry_over Hacc. carry_over Hacc.
  match goal with |- context [if ?c then _ else _] => destruct c end;
    carry_end Hacc.
Qed.

Lemma bind_name_carries_on (rc0 rc : RewriteCandidate) (form value : Tree) :
  carries_on rc0 rc ->
  carries_on rc0 (bind_name rc form value).2.
Proof.
  intros Hacc. unfold bind_name.
  destruct (same_tree _ form); [done |].
  carry_over Hacc.
  match goal with |- context [match ?o with Some _ => _ | None => _ end] =>
    destruct o as [vtype |] end; [| done].
  match goal with
  | |- context [match ?d with Some _ => _ | None => (false, true, ?r) end] =>
      destruct d as [bound |]
  end.
  - carry_over Hacc. carry_over Hacc.
    match goal with |- context [if ?c then _ else _] => destruct c end;
      [| done].
    assert (Hacc' := carries_on_trans _ _ _ Hacc
                       (Condition_carries_on _ value form)).
    clear Hacc. simpl.
    carry_over Hacc'. carry_over Hacc'.
    match goal with |- context [if ?c then _ else _] => destruct c end;
      simpl; done.
  - simpl. carry_over Hacc. carry_over Hacc.
    match goal with |- context [if ?c then _ else _] => destruct c end;
      simpl; [done |].
    eapply carries_on_trans; [exact Hacc |].
    eapply carries_on_trans;
      [apply set_world_carries_on | apply add_binding_carries_on].
Qed.

Lemma Bind_carries_on (form : Tree) :
  forall (rc : RewriteCandidate) (value : Tree),
  carries_on rc (Bind rc form value).2.
Proof.
  induction form as [n fv | n fv | n fv o c | n fv | n child IHchild o c
                    | n fleft IHleft fright IHright
                    | n fleft IHleft fright IHright
                    | n fname fleft IHleft fright IHright];
    intros rc value; pose proof (carries_on_refl rc) as Hacc.
  - destruct value; simpl;
      try (by apply bind_constant_carries_on); done.
  - destruct value; simpl;
      try (by apply bind_constant_carries_on); done.
  - destruct value; simpl;
      try (by apply bind_constant_carries_on); done.
  - simpl. by apply bind_name_carries_on.
  - simpl. apply IHchild.
  - destruct value; simpl; try done.
    destruct (same_operator fleft value1); [apply IHright | done].
  - destruct value; simpl; try done.
    destruct (same_operator fright value2); [apply IHleft | done].
  - simpl.
    destruct (text_eqb fname ":" || text_eqb fname "as").
    { carry_over Hacc. carry_over Hacc. carry_branch; [done |].
      carry_over Hacc. carry_over Hacc. carry_branch; done. }
    destruct (text_eqb fname "when").
    { carry_over Hacc. carry_branch; [done |].
      carry_over Hacc. carry_branch; [| done].
      carry_over Hacc. carry_over Hacc. carry_branch; carry_end Hacc. }
    assert (Hruntime : forall rc1 : RewriteCandidate,
      carries_on rc rc1 ->
      carries_on rc
        (let (type, rc2) := in_world rc1 (fun w => Types_Type w value) in
         match type with
         | None => (FAILED, rc2)
         | Some _ =>
             let (ok, rc3) :=
               Unify rc2 type (Some infix_type) value
                 (Infix n fname fleft fright) false in
             if negb ok then (FAILED, rc3)
             else
               let pos := Position (Infix n fname fleft fright) in
               let (n1, rc4) := fresh rc3 pos in
               let (n2, rc5) := fresh rc4 NOWHERE in
               let infixLeft := Prefix n2 (Name n1 "left") value in
               let (l, rc6) := Bind rc5 fleft infixLeft in
               if is_failed l then (FAILED, rc6)
               else
                 let (n3, rc7) := fresh rc6 pos in
                 let (n4, rc8) := fresh rc7 NOWHERE in
                 let infixRight := Prefix n4 (Name n3 "right") value in
                 let (r, rc9) := Bind rc8 fright infixRight in
                 let (n5, rc10) := fresh rc9 pos in
                 let (n6, rc11) := fresh rc10 NOWHERE in
                 let infixName := Prefix n6 (Name n5 "name") value in
                 let (t1, rc12) :=
                   in_world rc11 (fun w => Types_Type w infixName) in
                 match t1 with
                 | None => (FAILED, rc12)
                 | Some _ =>
                     let (n7, rc13) := fresh rc12 pos in
                     let infixRequiredName := Text n7 fname quote quote in
                     let (t2, rc14) :=
                       in_world rc13
                         (fun w => Types_Type w infixRequiredName) in
                     match t2 with
                     | None => (FAILED, rc14)
                     | Some _ =>
                         (weakest l r,
                          Condition rc14 infixName infixRequiredName)
                     end
                 end
         end).2).
    { clear Hacc. intros rc1 Hacc. cbv zeta.
      carry_over Hacc. carry_branch; [| done].
      carry_over Hacc. carry_branch; [done |].
      carry_over Hacc. carry_over Hacc. carry_over Hacc.
      carry_branch; [done |].
      carry_over Hacc. carry_over Hacc. carry_over Hacc.
      carry_over Hacc. carry_over Hacc. carry_over Hacc.
      carry_branch; [| done].
      carry_over Hacc. carry_over Hacc.
      carry_branch; carry_end Hacc. }
    destruct value; try (by apply Hruntime).
    destruct (text_eqb fname name); [| by apply Hruntime].
    carry_over Hacc. carry_branch; [done |].
    carry_over Hacc. done.
Qed.

Lemma Unconditional_before (rc rc' : RewriteCandidate) :
  carries_on rc rc' -> Unconditional rc' = true -> Unconditional rc = true.
Proof.
  intros (_ & _ & _ & _ & Hc & Hk & _). unfold Unconditional.
  destruct (kinds rc') as [| k ks]; [| done].
  destruct (conditions rc') as [| c cs]; [| done].
  apply prefix_nil_inv in Hc, Hk. by rewrite Hc, Hk.
Qed.

(** X25: [Bind] only adds to a candidate.  Whatever the form and the
    value are, and whether the binding fails or not, the candidate keeps
    its rewrite, its scope and its type; the bindings, the conditions and
    the kind conditions it had are still there, in the same order, before
    the new ones; and no address is handed out twice. *)
Theorem Bind_only_adds (rc : RewriteCandidate) (form value : Tree) :
  let after := (Bind rc form value).2 in
  rewrite after = rewrite rc
  /\ scope after = scope rc
  /\ type after = type rc
  /\ bindings rc `prefix_of` bindings after
  /\ conditions rc `prefix_of` conditions after
  /\ kinds rc `prefix_of` kinds after
  /\ (next rc <= next after)%N.
Proof. apply Bind_carries_on. Qed.

(** X26: a parameter with a declared type is bound strongly only in a
    candidate that has no run-time condition.  Once a condition or a kind
    condition is recorded, by a literal, a guard or an earlier parameter,
    the binding of [X : T] or [X as T] is possible at best. *)
Theorem Bind_typed_after_condition (rc : RewriteCandidate) (n : Node)
    (fname : string) (X T value : Tree) :
  fname = ":" \/ fname = "as" ->
  Unconditional rc = false ->
  (Bind rc (Infix n fname X T) value).1 <> PERFECT.
Proof.
  intros Hname Hcond. simpl.
  assert (Hdecl : text_eqb fname ":" || text_eqb fname "as" = true).
  { destruct Hname as [-> | ->]; done. }
  rewrite Hdecl.
  pose proof (carries_on_refl rc) as Hacc.
  carry_over Hacc.
  match goal with |- context [Bind ?rc1 X value] =>
    pose proof (Bind_carries_on X rc1 value) as Hc;
    pose proof (carries_on_trans _ _ _ Hacc Hc) as Hnew;
    destruct (Bind rc1 X value) as [? ?]
  end.
  simpl in Hnew. clear Hacc Hc.
  destruct (is_failed _); [done |].
  carry_over Hnew. carry_over Hnew.
  destruct (negb _); [done |]. simpl.
  match goal with |- context [Unconditional ?final] =>
    destruct (Unconditional final) eqn:Hfinal; [| done]
  end.
  apply (Unconditional_before rc) in Hfinal; [congruence | exact Hnew].
Qed.

End BinderGrows.

Lemma Bind_typed_after_condition_witness :
  (Calls.Bind blank_candidate X_integer call_one).1 = Calls.PERFECT
  /\ Calls.Unconditional guarded_candidate = false
  /\ (Calls.Bind guarded_candidate X_integer call_one).1 <> Calls.PERFECT.
Proof.
  split; [reflexivity |]. split; [reflexivity |].
  apply (Bind_typed_after_condition (H := Calls.Literals) guarded_candidate
           (at_ 60) ":" (Name (at_ 61) "X") Calls.integer_type call_one).
  - by left.
  - reflexivity.
Defined.

(* ====================================================================== *)
(** * Properties of [CompilerUnit::ValidCName]                          *)
(* ====================================================================== *)

Lemma char_at_next (c : Ascii.ascii) (rest : string) (i : nat) :
  Unit.char_at (String c rest) (S i) = Unit.char_at rest i.
Proof. done. Qed.

(** After the first character, the loop checks the characters one by
    one, whatever the index is. *)
Lemma valid_chars_rest (rest : string) :
  forall (label : string) (i : nat),
  (forall k, Unit.char_at label (S i + k) = Unit.char_at rest k) ->
  Unit.valid_chars label (S i) (String.length rest)
  = identifier_tail rest.
Proof.
  induction rest as [| c rest IH]; intros label i Hat; [done |].
  cbn [String.length Unit.valid_chars identifier_tail].
  pose proof (Hat O) as H0. rewrite Nat.add_0_r in H0.
  rewrite H0. change (Unit.char_at (String c rest) 0) with c.
  cbn [Nat.eqb negb andb].
  unfold identifier_char at 1, identifier_start.
  rewrite (IH label (S i)).
  - by destruct (Unit.isalpha c), (bool_decide (c = Unit.underscore)),
         (Unit.isdigit c).
  - intros k. replace (S (S i) + k)%nat with (S i + S k)%nat by lia.
    by rewrite Hat.
Qed.

Lemma valid_chars_identifier (name : string) :
  name <> "" ->
  Unit.valid_chars name 0 (String.length name) = c_identifier name.
Proof.
  destruct name as [| c rest]; [done |]. intros _.
  cbn [String.length Unit.valid_chars c_identifier].
  change (Unit.char_at (String c rest) 0) with c.
  cbn [Nat.eqb negb andb].
  rewrite (valid_chars_rest rest (String c rest) 0) by done.
  unfold identifier_start.
  by destruct (Unit.isalpha c), (bool_decide (c = Unit.underscore)).
Qed.

Lemma length_as_uint (name : string) :
  Z.of_nat (String.length name) < 2 ^ 32 ->
  to_uint (Z.of_nat (String.length name)) = Z.of_nat (String.length name).
Proof. intros Hlen. unfold to_uint. apply Z.mod_small. lia. Qed.

(** X27: [ValidCName] accepts the identifiers of C and nothing else.  The
    value of a name or of a text (shorter than 2^32 characters) is valid
    when it begins with a letter or an underscore and goes on with
    letters, digits and underscores: a name that begins with an
    underscore is accepted.  The label is that value in both cases, and a
    tree of another kind is refused with the label left as it was. *)
Theorem ValidCName_identifier (tree : Tree) (label : string) :
  match tree with
  | Name _ value | Text _ value _ _ =>
      Z.of_nat (String.length value) < 2 ^ 32 ->
      (Unit.ValidCName tree label).1.1 = c_identifier value
      /\ (Unit.ValidCName tree label).1.2 = value
  | _ =>
      Unit.ValidCName tree label
      = (false, label, Some "No valid C name in $1")
  end.
Proof.
  assert (Hvalue : forall value : string,
    Z.of_nat (String.length value) < 2 ^ 32 ->
    (if to_uint (Z.of_nat (String.length value)) =? 0
     then (false, value, Some "No valid C name in $1")
     else
       if Unit.valid_chars value 0
            (Z.to_nat (to_uint (Z.of_nat (String.length value))))
       then (true, value, None)
       else (false, value, Some "C name $1 contains invalid characters")).1.1
    = c_identifier value
    /\ (if to_uint (Z.of_nat (String.length value)) =? 0
        then (false, value, Some "No valid C name in $1")
        else
          if Unit.valid_chars value 0
               (Z.to_nat (to_uint (Z.of_nat (String.length value))))
          then (true, value, None)
          else (false, value,
                Some "C name $1 contains invalid characters")).1.2
       = value).
  { intros value Hlen. rewrite (length_as_uint value Hlen), Nat2Z.id.
    destruct value as [| c rest]; [done |].
    rewrite valid_chars_identifier by done.
    replace (Z.of_nat (String.length (String c rest)) =? 0) with false
      by (symmetry; apply Z.eqb_neq; simpl; lia).
    by destruct (c_identifier (String c rest)). }
  destruct tree; try done; unfold Unit.ValidCName; apply Hvalue.
Qed.

Lemma ValidCName_identifier_witness :
  (Unit.ValidCName (Name (at_ 1) "_exit") "").1.1 = true
  /\ (Unit.ValidCName (Name (at_ 1) "_exit") "").1.2 = "_exit".
Proof.
  apply (ValidCName_identifier (Name (at_ 1) "_exit") ""). simpl. lia.
Defined.

(* ====================================================================== *)
(** * Properties of [globinternal]                                      *)
(* ====================================================================== *)

Section GlobFacts.
Import WinGlob.
Context `{FileSystem}.

Lemma substring_whole (s : string) : String.substring 0 (String.length s) s = s.
Proof. induction s as [| c s IH]; [done |]. simpl. by rewrite IH. Qed.

(** What follows the first separator is shorter and has one separator
    less. *)
Lemma find_first_of_Some (pattern : string) (pos : nat) :
  find_first_of pattern = Some pos ->
  let subpat :=
    String.substring (pos + 1) (String.length pattern - (pos + 1)) pattern in
  separators pattern = S (separators subpat)
  /\ (String.length subpat < String.length pattern)%nat.
Proof.
  revert pos. induction pattern as [| c rest IH]; intros pos; [done |].
  simpl. destruct (separator c).
  - intros [= <-]. simpl. rewrite Nat.sub_0_r, substring_whole.
    split; [done | lia].
  - destruct (find_first_of rest) as [p |]; [| done].
    intros [= <-]. destruct (IH p eq_refl) as [Hsep Hlen].
    simpl. split; [done | lia].
Qed.

Lemma find_first_of_None (pattern : string) :
  find_first_of pattern = None -> separators pattern = O.
Proof.
  induction pattern as [| c rest IH]; [done |].
  simpl. destruct (separator c); [done |].
  destruct (find_first_of rest); [done |]. intros _. by apply IH.
Qed.

Lemma entries_below_keeps (levels : nat) :
  forall (dir : string) (paths : list string),
  paths `prefix_of` entries_below levels dir paths.
Proof.
  induction levels as [| levels IH]; intros dir paths; simpl.
  - by apply prefix_app_r.
  - generalize (FindFiles dir). intros entries. revert paths.
    induction entries as [| e entries IHe]; intros paths; [done |].
    simpl. etrans; [apply (IH (dir +:+ backslash +:+ e)) | apply IHe].
Qed.

Lemma globinternal_entries (fuel : nat) :
  forall (dir pattern : string) (paths : list string),
  (String.length pattern < fuel)%nat ->
  globinternal fuel dir pattern paths
  = Some (entries_below (separators pattern) dir paths).
Proof.
  induction fuel as [| fuel IH]; intros dir pattern paths Hfuel; [lia |].
  simpl. destruct (find_first_of pattern) as [pos |] eqn:Hfind.
  - destruct (find_first_of_Some pattern pos Hfind) as [Hsep Hlen].
    simpl in Hsep, Hlen. rewrite Hsep. simpl.
    generalize (FindFiles dir). intros entries. revert paths.
    induction entries as [| e entries IHe]; intros paths; [done |].
    simpl. rewrite IH by lia. apply IHe.
  - rewrite (find_first_of_None pattern Hfind). simpl.
    generalize (FindFiles dir). intros entries. revert paths.
    induction entries as [| e entries IHe]; intros paths.
    + simpl. by rewrite app_nil_r.
    + simpl. rewrite IHe. by rewrite <- app_assoc.
Qed.

(** X28: [globinternal] never reads the names of its pattern.  It returns
    as soon as the fuel is more than the length of the pattern, and two
    patterns with the same number of separators give the same paths: all
    the entries that many directories below, after the paths that were
    there before. *)
Theorem globinternal_ignores_names (fuel fuel' : nat)
    (dir pattern pattern' : string) (paths : list string) :
  separators pattern = separators pattern' ->
  (String.length pattern < fuel)%nat ->
  (String.length pattern' < fuel')%nat ->
  exists found,
    globinternal fuel dir pattern paths = Some found
    /\ globinternal fuel' dir pattern' paths = Some found
    /\ found = entries_below (separators pattern) dir paths
    /\ paths `prefix_of` found.
Proof.
  intros Hsame Hfuel Hfuel'.
  exists (entries_below (separators pattern) dir paths).
  split; [by apply globinternal_entries |].
  split; [rewrite Hsame; by apply globinternal_entries |].
  split; [done | apply entries_below_keeps].
Qed.

End GlobFacts.

Lemma globinternal_ignores_names_witness :
  WinGlob.globinternal (H := two_by_two) 5 "" "*.xl" ["old"]
  = Some ["old"; "a"; "b"]
  /\ WinGlob.globinternal (H := two_by_two) 7 "" "*.none" ["old"]
     = Some ["old"; "a"; "b"].
Proof.
  destruct (globinternal_ignores_names (H := two_by_two) 5 7 "" "*.xl"
              "*.none" ["old"])
    as (found & Hone & Hother & Hfound & _).
  - reflexivity.
  - simpl. lia.
  - simpl. lia.
  - rewrite Hone, Hother, Hfound. split; reflexivity.
Defined.
